(** * A scapegoat tree over a heap of nodes

    Shallow embedding of [ScapegoatTree.cpp] / [ScapegoatTree.h] (and of the
    alpha check of [GenericScapegoatTree.h]).

    Modelling decisions:
    - a [Node*] is an [option nat]: [None] is [nullptr], [Some a] an address;
      the nodes live in a heap [gmap nat Node]; [new] takes a fresh address,
      [delete] removes the cell, dereferencing an address without a cell (or
      [nullptr]) is an error ([None] in the option monad);
    - loops and recursive calls that follow pointers take a fuel argument; the
      public operations supply fuel from the number of heap cells, and running
      out of fuel is reported like an error ([None]);
    - [int] keys are integers [Z] (keys are only compared and copied);
    - the [size_t] counters [size] and [maxSize] are natural numbers (they
      count live nodes and cannot reach the word size);
    - the [double] balance factor [alpha] is an exact rational [Q]: products
      and comparisons are exact, and [floor(log(size) / log(1 / alpha))] is
      the exact floor of the logarithm. *)

From Stdlib Require Import ZArith QArith Qround Lia Lqa String.

From stdpp Require Import option list gmap sorting.

Local Open Scope nat_scope.

(** ** Nodes and the heap *)

Record Node := mkNode { key : Z; left : option nat; right : option nat }.

Definition set_key (n : Node) (k : Z) : Node := mkNode k (left n) (right n).

Definition set_left (n : Node) (p : option nat) : Node := mkNode (key n) p (right n).

Definition set_right (n : Node) (p : option nat) : Node := mkNode (key n) (left n) p.

(** ** The tree object together with the nodes it owns *)

Record ScapegoatTree := mkTree {
  heap : gmap nat Node;
  root : option nat;
  size : nat;
  maxSize : nat;
  alpha : Q;
  replaceWithSucc : bool
}.

Definition with_heap (t : ScapegoatTree) (h : gmap nat Node) : ScapegoatTree :=
  mkTree h (root t) (size t) (maxSize t) (alpha t) (replaceWithSucc t).

Definition with_root (t : ScapegoatTree) (r : option nat) : ScapegoatTree :=
  mkTree (heap t) r (size t) (maxSize t) (alpha t) (replaceWithSucc t).

Definition with_size (t : ScapegoatTree) (n : nat) : ScapegoatTree :=
  mkTree (heap t) (root t) n (maxSize t) (alpha t) (replaceWithSucc t).

Definition with_maxSize (t : ScapegoatTree) (n : nat) : ScapegoatTree :=
  mkTree (heap t) (root t) (size t) n (alpha t) (replaceWithSucc t).

Definition with_replaceWithSucc (t : ScapegoatTree) (b : bool) : ScapegoatTree :=
  mkTree (heap t) (root t) (size t) (maxSize t) (alpha t) b.

Record Scapegoat := mkScapegoat {
  scapegoat : option nat;
  parent : option nat;
  treeSize : nat
}.

Record VerificationData := mkVerificationData {
  balanced : bool;
  isBST : bool;
  subtreeSize : nat;
  height : Z
}.

(** ** Construction *)

Inductive exception := invalid_argument (what : string).

Definition kDefaultAlpha : Q := 1 # 2.

Definition kMinAlpha : Q := 1 # 2.

Definition kMaxAlpha : Q := 1.

(** [checkInvalidAlpha] of the generic tree; the integer tree inlines the
    same test in its constructor. *)
Definition checkInvalidAlpha (a : Q) : option exception :=
  if Qle_bool a kMinAlpha || Qle_bool kMaxAlpha a
  then Some (invalid_argument "Alpha not in range (0.5, 1)!")
  else None.

Definition ScapegoatTree_ctor (a : Q) : exception + ScapegoatTree :=
  if Qle_bool a kMinAlpha || Qle_bool kMaxAlpha a
  then inl (invalid_argument "Alpha not in range (0.5, 1)!")
  else inr (mkTree ∅ None 0 0 a true).


(** ** The alpha-deep height *)

(** [floor_log_from fuel b x pow h] counts how many more factors [b] fit
    under [x], starting from [pow = b ^ h]. *)
Fixpoint floor_log_from (fuel : nat) (b x pow : Q) (h : nat) : nat :=
  match fuel with
  | O => h
  | S fuel' =>
      if Qle_bool (pow * b) x
      then floor_log_from fuel' b x (pow * b) (S h)
      else h
  end.

(** [floor(log(size) / log(1 / alpha))]; [log(0)] is minus infinity, whose
    conversion to [size_t] is undefined. *)
Definition getAlphaDeepHeight (a : Q) (sz : nat) : option nat :=
  match sz with
  | O => None
  | S _ =>
      Some (floor_log_from (sz * Z.to_nat (Qnum a)) (/ a)
              (inject_Z (Z.of_nat sz)) 1 0)
  end.

(** [size <= alpha * maxSize] *)
Definition size_le_alpha_maxSize (a : Q) (sz msz : nat) : bool :=
  Qle_bool (inject_Z (Z.of_nat sz)) (a * inject_Z (Z.of_nat msz)).

(** [size >= alpha * maxSize] *)
Definition size_ge_alpha_maxSize (a : Q) (sz msz : nat) : bool :=
  Qle_bool (a * inject_Z (Z.of_nat msz)) (inject_Z (Z.of_nat sz)).

(** ** search *)

Fixpoint search_loop (fuel : nat) (h : gmap nat Node) (k : Z) (curr : option nat)
  : option bool :=
  match fuel with
  | O => None
  | S fuel' =>
      match curr with
      | None => Some false
      | Some c =>
          n ← h !! c;
          if (k =? key n)%Z then Some true
          else if (k <? key n)%Z then search_loop fuel' h k (left n)
          else search_loop fuel' h k (right n)
      end
  end.

Definition search (k : Z) (t : ScapegoatTree) : option bool :=
  search_loop (S (base.size (heap t))) (heap t) k (root t).

(** ** getSubtreeSize *)

Fixpoint getSubtreeSize (fuel : nat) (h : gmap nat Node) (node : option nat)
  : option nat :=
  match fuel with
  | O => None
  | S fuel' =>
      match node with
      | None => Some 0
      | Some c =>
          n ← h !! c;
          sl ← getSubtreeSize fuel' h (left n);
          sr ← getSubtreeSize fuel' h (right n);
          Some (1 + sl + sr)
      end
  end.

(** ** findScapegoat

    The stack [insertionPath] is a list whose head is the top; [top] or [pop]
    on an empty stack is an error. *)

Fixpoint findScapegoat_loop (fuel : nat) (a : Q) (h : gmap nat Node)
    (insertionPath : list (option nat)) (curr par : option nat)
    (currSize currIndex : nat) {struct insertionPath} : option Scapegoat :=
  match par with
  | None => Some (mkScapegoat curr par currSize)
  | Some p =>
      deep ← getAlphaDeepHeight a currSize;
      if deep <? currIndex then Some (mkScapegoat curr par currSize)
      else
        pn ← h !! p;
        other ← (if decide (left pn = curr)
                 then getSubtreeSize fuel h (right pn)
                 else getSubtreeSize fuel h (left pn));
        match insertionPath with
        | [] => None
        | top :: rest =>
            findScapegoat_loop fuel a h rest par top
              (currSize + (1 + other)) (S currIndex)
        end
  end.

Definition findScapegoat (fuel : nat) (a : Q) (h : gmap nat Node)
    (insertionPath : list (option nat)) : option Scapegoat :=
  match insertionPath with
  | curr :: par :: rest =>
      currSize ← getSubtreeSize fuel h curr;
      findScapegoat_loop fuel a h rest curr par currSize 1
  | _ => None
  end.

(** ** flatten and buildTree *)

Fixpoint flatten (fuel : nat) (h : gmap nat Node) (treeRoot listHead : option nat)
  : option (option nat * gmap nat Node) :=
  match fuel with
  | O => None
  | S fuel' =>
      match treeRoot with
      | None => Some (listHead, h)
      | Some c =>
          n ← h !! c;
          '(tl, h1) ← flatten fuel' h (right n) listHead;
          n1 ← h1 !! c;
          let h2 := <[c := set_right n1 tl]> h1 in
          n2 ← h2 !! c;
          flatten fuel' h2 (left n2) treeRoot
      end
  end.

Definition halfTreeSize (treeSize : nat) : Q :=
  (inject_Z (Z.of_nat treeSize) - 1) / 2.

Arguments halfTreeSize : simpl never.

Fixpoint buildTree (fuel : nat) (h : gmap nat Node) (treeSize : nat)
    (listHead : option nat) : option (option nat * gmap nat Node) :=
  match fuel with
  | O => None
  | S fuel' =>
      match treeSize with
      | O =>
          c ← listHead;
          n ← h !! c;
          Some (listHead, <[c := set_left n None]> h)
      | S _ =>
          '(firstHalf, h1) ←
            buildTree fuel' h (Z.to_nat (Qceiling (halfTreeSize treeSize))) listHead;
          f ← firstHalf;
          fn ← h1 !! f;
          '(secondHalf, h2) ←
            buildTree fuel' h1 (Z.to_nat (Qfloor (halfTreeSize treeSize))) (right fn);
          s ← secondHalf;
          sn ← h2 !! s;
          fn2 ← h2 !! f;
          let h3 := <[f := set_right fn2 (left sn)]> h2 in
          sn3 ← h3 !! s;
          Some (secondHalf, <[s := set_left sn3 firstHalf]> h3)
      end
  end.

(** ** rebuild

    The local [dummy] node is a heap cell at a fresh address, released when
    the function returns. *)

Definition rebuild (sg : Scapegoat) (t : ScapegoatTree) : option ScapegoatTree :=
  let dummy := fresh (dom (heap t)) in
  let h0 := <[dummy := mkNode (-1) None None]> (heap t) in
  '(nodeList, h1) ← flatten (S (base.size h0)) h0 (scapegoat sg) (Some dummy);
  '(_, h2) ← buildTree (S (treeSize sg)) h1 (treeSize sg) nodeList;
  d ← h2 !! dummy;
  t' ← match parent sg with
       | None => Some (with_maxSize (with_root (with_heap t h2) (left d)) (size t))
       | Some p =>
           pn ← h2 !! p;
           if decide (scapegoat sg = left pn)
           then Some (with_heap t (<[p := set_left pn (left d)]> h2))
           else Some (with_heap t (<[p := set_right pn (left d)]> h2))
       end;
  Some (with_heap t' (delete dummy (heap t'))).

(** ** insert *)

(** The descent of [insert]: [Some None] when the key is already present,
    otherwise the final stack and [prev]. *)
Fixpoint insert_find (fuel : nat) (h : gmap nat Node) (k : Z)
    (insertionPath : list (option nat)) (prev curr : option nat)
  : option (option (list (option nat) * option nat)) :=
  match fuel with
  | O => None
  | S fuel' =>
      match curr with
      | None => Some (Some (insertionPath, prev))
      | Some c =>
          n ← h !! c;
          let insertionPath := curr :: insertionPath in
          let prev := curr in
          if (k =? key n)%Z then Some None
          else if (k <? key n)%Z then insert_find fuel' h k insertionPath prev (left n)
          else insert_find fuel' h k insertionPath prev (right n)
      end
  end.

Definition insert (k : Z) (t : ScapegoatTree) : option (bool * ScapegoatTree) :=
  found ← insert_find (S (base.size (heap t))) (heap t) k [None] None (root t);
  match found with
  | None => Some (false, t)
  | Some (insertionPath, prev) =>
      let node := fresh (dom (heap t)) in
      let h1 := <[node := mkNode k None None]> (heap t) in
      t1 ← match prev with
           | None => Some (with_root (with_heap t h1) (Some node))
           | Some p =>
               pn ← h1 !! p;
               if (k <? key pn)%Z
               then Some (with_heap t (<[p := set_left pn (Some node)]> h1))
               else Some (with_heap t (<[p := set_right pn (Some node)]> h1))
           end;
      let t2 := with_size t1 (S (size t1)) in
      let t3 := if maxSize t2 <? size t2 then with_maxSize t2 (size t2) else t2 in
      deepHeight ← getAlphaDeepHeight (alpha t3) (size t3);
      let insertionHeight := length insertionPath - 1 in
      if (1 <=? insertionHeight) && (deepHeight <? insertionHeight)
      then
        sg ← findScapegoat (S (base.size (heap t3))) (alpha t3) (heap t3) insertionPath;
        t4 ← rebuild sg t3;
        Some (true, t4)
      else Some (true, t3)
  end.

(** ** remove *)

(** The descent of [remove]: [Some None] when the key is absent, otherwise
    [prev] and the node holding the key. *)
Fixpoint remove_find (fuel : nat) (h : gmap nat Node) (k : Z)
    (prev curr : option nat) : option (option (option nat * nat)) :=
  match fuel with
  | O => None
  | S fuel' =>
      match curr with
      | None => Some None
      | Some c =>
          n ← h !! c;
          if (k =? key n)%Z then Some (Some (prev, c))
          else
            let prev := curr in
            if (k <? key n)%Z then remove_find fuel' h k prev (left n)
            else if (k >? key n)%Z then remove_find fuel' h k prev (right n)
            else remove_find fuel' h k prev curr
      end
  end.

(** [while (curr->left) { prev = curr; curr = curr->left; }] *)
Fixpoint descend_left (fuel : nat) (h : gmap nat Node) (prev curr : nat)
  : option (nat * nat) :=
  match fuel with
  | O => None
  | S fuel' =>
      cn ← h !! curr;
      match left cn with
      | None => Some (prev, curr)
      | Some l => descend_left fuel' h curr l
      end
  end.

(** [while (curr->right) { prev = curr; curr = curr->right; }] *)
Fixpoint descend_right (fuel : nat) (h : gmap nat Node) (prev curr : nat)
  : option (nat * nat) :=
  match fuel with
  | O => None
  | S fuel' =>
      cn ← h !! curr;
      match right cn with
      | None => Some (prev, curr)
      | Some r => descend_right fuel' h curr r
      end
  end.

Definition removeNodeWithTwoChildren (node : nat) (t : ScapegoatTree)
  : option ScapegoatTree :=
  let h := heap t in
  let fuel := S (base.size h) in
  '(curr, h1) ←
    (if replaceWithSucc t then
       n ← h !! node;
       curr ← right n;
       cn ← h !! curr;
       match left cn with
       | None => Some (curr, <[node := set_right n (right cn)]> h)
       | Some _ =>
           '(prev, curr) ← descend_left fuel h node curr;
           cn ← h !! curr;
           pn ← h !! prev;
           Some (curr, <[prev := set_left pn (right cn)]> h)
       end
     else
       n ← h !! node;
       curr ← left n;
       cn ← h !! curr;
       match right cn with
       | None => Some (curr, <[node := set_left n (left cn)]> h)
       | Some _ =>
           '(prev, curr) ← descend_right fuel h node curr;
           cn ← h !! curr;
           pn ← h !! prev;
           Some (curr, <[prev := set_right pn (left cn)]> h)
       end);
  cn ← h1 !! curr;
  nn ← h1 !! node;
  let h2 := <[node := set_key nn (key cn)]> h1 in
  let h3 := delete curr h2 in
  Some (with_replaceWithSucc (with_heap t h3) (negb (replaceWithSucc t))).

Definition removeNodeWithoutChild (node : nat) (par : option nat) (t : ScapegoatTree)
  : option ScapegoatTree :=
  let h := heap t in
  n ← h !! node;
  let child := match left n with Some _ => left n | None => right n end in
  t1 ← (if decide (root t = Some node) then Some (with_root t child)
        else
          p ← par;
          pn ← h !! p;
          if decide (left pn = Some node)
          then Some (with_heap t (<[p := set_left pn child]> h))
          else Some (with_heap t (<[p := set_right pn child]> h)));
  Some (with_heap t1 (delete node (heap t1))).

Definition remove (k : Z) (t : ScapegoatTree) : option (bool * ScapegoatTree) :=
  found ← remove_find (S (base.size (heap t))) (heap t) k None (root t);
  match found with
  | None => Some (false, t)
  | Some (prev, curr) =>
      cn ← heap t !! curr;
      t1 ← (match left cn, right cn with
            | Some _, Some _ => removeNodeWithTwoChildren curr t
            | _, _ => removeNodeWithoutChild curr prev t
            end);
      let t2 := with_size t1 (size t1 - 1) in
      if size_le_alpha_maxSize (alpha t2) (size t2) (maxSize t2)
      then
        t3 ← rebuild (mkScapegoat (root t2) None (size t2)) t2;
        Some (true, t3)
      else Some (true, t2)
  end.

(** ** verify *)

Fixpoint verifyHelper (fuel : nat) (a : Q) (h : gmap nat Node) (node : option nat)
  : option VerificationData :=
  match fuel with
  | O => None
  | S fuel' =>
      match node with
      | None => Some (mkVerificationData true true 0 (-1))
      | Some c =>
          n ← h !! c;
          l ← verifyHelper fuel' a h (left n);
          r ← verifyHelper fuel' a h (right n);
          let ok : bool := isBST l && isBST r in
          ok1 ← match left n with
                | None => Some ok
                | Some lc =>
                    if ok then ln ← h !! lc; Some (key ln <? key n)%Z else Some false
                end;
          ok2 ← match right n with
                | None => Some ok1
                | Some rc =>
                    if ok1 : bool then rn ← h !! rc; Some (key rn >? key n)%Z
                    else Some false
                end;
          let sz := subtreeSize l + subtreeSize r + 1 in
          let ht := (Z.max (height l) (height r) + 1)%Z in
          deep ← getAlphaDeepHeight a sz;
          let max_height := (Z.of_nat deep + 1)%Z in
          Some (mkVerificationData (ht <=? max_height)%Z ok2 sz ht)
      end
  end.

Definition verify (t : ScapegoatTree) : option bool :=
  treeProperties ← verifyHelper (S (base.size (heap t))) (alpha t) (heap t) (root t);
  Some (size_ge_alpha_maxSize (alpha t) (size t) (maxSize t)
        && balanced treeProperties && isBST treeProperties).

(** ** The destructor *)

(** The loop of [~ScapegoatTree]: a root without left child is deleted and
    replaced by its right child; otherwise its left child is rotated into
    its place. *)
Fixpoint dtor_loop (fuel : nat) (h : gmap nat Node) (root : option nat)
  : option (gmap nat Node * option nat) :=
  match fuel with
  | O => None
  | S fuel' =>
      match root with
      | None => Some (h, root)
      | Some r =>
          rn ← h !! r;
          match left rn with
          | None =>
              let next := right rn in
              dtor_loop fuel' (delete r h) next
          | Some leftChild =>
              ln ← h !! leftChild;
              let h1 := <[r := set_left rn (right ln)]> h in
              ln1 ← h1 !! leftChild;
              let h2 := <[leftChild := set_right ln1 (Some r)]> h1 in
              dtor_loop fuel' h2 (Some leftChild)
          end
      end
  end.

Definition ScapegoatTree_dtor (t : ScapegoatTree) : option ScapegoatTree :=
  '(h, r) ← dtor_loop (S (2 * base.size (heap t))) (heap t) (root t);
  Some (with_root (with_heap t h) r).

(** ** printDebugInfo

    The output stream is the list of the lines written; a line is the width
    given to [std::setw] and what follows the padding. *)




(** ** Sequences of public calls *)

Inductive op := Insert (k : Z) | Remove (k : Z).

Definition step (o : op) (t : ScapegoatTree) : option (bool * ScapegoatTree) :=
  match o with
  | Insert k => insert k t
  | Remove k => remove k t
  end.

(** Runs the calls in order and collects their results, in call order. *)
Fixpoint run (ops : list op) (t : ScapegoatTree) : option (list bool * ScapegoatTree) :=
  match ops with
  | [] => Some (@nil bool, t)
  | o :: ops' =>
      '(b, t1) ← step o t;
      '(bs, t2) ← run ops' t1;
      Some (b :: bs, t2)
  end.

(** * The generic tree of [GenericScapegoatTree.h]

    The same algorithms over keys of any type [T], ordered by the comparison
    function [isLessThan] that the tree object holds.  The node that
    [rebuild] declares without initialiser holds an unspecified key,
    [dummy_key]; its child pointers are taken null, as in the integer tree
    ([left] is written before it is read and [right] is not read). *)

(** The [<] operator that [defaultIsLessThan] requires of the key type. *)
Class Less (T : Type) := less : T → T → bool.

#[global] Instance Z_less : Less Z := Z.ltb.

Module Generic.
Section WithKey.

Context {T : Type}.

Variable dummy_key : T.

Definition defaultIsLessThan `{Less T} (lhs rhs : T) : bool := less lhs rhs.

Record Node := mkNode { key : T; left : option nat; right : option nat }.

Definition set_key (n : Node) (k : T) : Node := mkNode k (left n) (right n).

Definition set_left (n : Node) (p : option nat) : Node := mkNode (key n) p (right n).

Definition set_right (n : Node) (p : option nat) : Node := mkNode (key n) (left n) p.

Record ScapegoatTree := mkTree {
  isLessThan : T → T → bool;
  heap : gmap nat Node;
  root : option nat;
  size : nat;
  maxSize : nat;
  alpha : Q;
  replaceWithSucc : bool
}.

Definition with_heap (t : ScapegoatTree) (h : gmap nat Node) : ScapegoatTree :=
  mkTree (isLessThan t) h (root t) (size t) (maxSize t) (alpha t) (replaceWithSucc t).

Definition with_root (t : ScapegoatTree) (r : option nat) : ScapegoatTree :=
  mkTree (isLessThan t) (heap t) r (size t) (maxSize t) (alpha t) (replaceWithSucc t).

Definition with_size (t : ScapegoatTree) (n : nat) : ScapegoatTree :=
  mkTree (isLessThan t) (heap t) (root t) n (maxSize t) (alpha t) (replaceWithSucc t).

Definition with_maxSize (t : ScapegoatTree) (n : nat) : ScapegoatTree :=
  mkTree (isLessThan t) (heap t) (root t) (size t) n (alpha t) (replaceWithSucc t).

Definition with_replaceWithSucc (t : ScapegoatTree) (b : bool) : ScapegoatTree :=
  mkTree (isLessThan t) (heap t) (root t) (size t) (maxSize t) (alpha t) b.

(** The two constructors. *)
Definition ScapegoatTree_ctor (a : Q) (isLessThan : T → T → bool)
  : exception + ScapegoatTree :=
  match checkInvalidAlpha a with
  | Some e => inl e
  | None => inr (mkTree isLessThan ∅ None 0 0 a true)
  end.

Definition ScapegoatTree_ctor_default `{Less T} (a : Q) : exception + ScapegoatTree :=
  match checkInvalidAlpha a with
  | Some e => inl e
  | None => inr (mkTree defaultIsLessThan ∅ None 0 0 a true)
  end.

Fixpoint dtor_loop (fuel : nat) (h : gmap nat Node) (root : option nat)
  : option (gmap nat Node * option nat) :=
  match fuel with
  | O => None
  | S fuel' =>
      match root with
      | None => Some (h, root)
      | Some r =>
          rn ← h !! r;
          match left rn with
          | None =>
              let next := right rn in
              dtor_loop fuel' (delete r h) next
          | Some leftChild =>
              ln ← h !! leftChild;
              let h1 := <[r := set_left rn (right ln)]> h in
              ln1 ← h1 !! leftChild;
              let h2 := <[leftChild := set_right ln1 (Some r)]> h1 in
              dtor_loop fuel' h2 (Some leftChild)
          end
      end
  end.

Definition ScapegoatTree_dtor (t : ScapegoatTree) : option ScapegoatTree :=
  '(h, r) ← dtor_loop (S (2 * base.size (heap t))) (heap t) (root t);
  Some (with_root (with_heap t h) r).

Fixpoint search_loop (lt : T → T → bool) (fuel : nat) (h : gmap nat Node) (k : T)
    (curr : option nat) : option bool :=
  match fuel with
  | O => None
  | S fuel' =>
      match curr with
      | None => Some false
      | Some c =>
          n ← h !! c;
          if lt k (key n) then search_loop lt fuel' h k (left n)
          else if lt (key n) k then search_loop lt fuel' h k (right n)
          else Some true
      end
  end.

Definition search (k : T) (t : ScapegoatTree) : option bool :=
  search_loop (isLessThan t) (S (base.size (heap t))) (heap t) k (root t).

Fixpoint getSubtreeSize (fuel : nat) (h : gmap nat Node) (node : option nat)
  : option nat :=
  match fuel with
  | O => None
  | S fuel' =>
      match node with
      | None => Some 0
      | Some c =>
          n ← h !! c;
          sl ← getSubtreeSize fuel' h (left n);
          sr ← getSubtreeSize fuel' h (right n);
          Some (1 + sl + sr)
      end
  end.

Fixpoint findScapegoat_loop (fuel : nat) (a : Q) (h : gmap nat Node)
    (insertionPath : list (option nat)) (curr par : option nat)
    (currSize currIndex : nat) {struct insertionPath} : option Scapegoat :=
  match par with
  | None => Some (mkScapegoat curr par currSize)
  | Some p =>
      deep ← getAlphaDeepHeight a currSize;
      if deep <? currIndex then Some (mkScapegoat curr par currSize)
      else
        pn ← h !! p;
        other ← (if decide (left pn = curr)
                 then getSubtreeSize fuel h (right pn)
                 else getSubtreeSize fuel h (left pn));
        match insertionPath with
        | [] => None
        | top :: rest =>
            findScapegoat_loop fuel a h rest par top
              (currSize + (1 + other)) (S currIndex)
        end
  end.

Definition findScapegoat (fuel : nat) (a : Q) (h : gmap nat Node)
    (insertionPath : list (option nat)) : option Scapegoat :=
  match insertionPath with
  | curr :: par :: rest =>
      currSize ← getSubtreeSize fuel h curr;
      findScapegoat_loop fuel a h rest curr par currSize 1
  | _ => None
  end.

Fixpoint flatten (fuel : nat) (h : gmap nat Node) (treeRoot listHead : option nat)
  : option (option nat * gmap nat Node) :=
  match fuel with
  | O => None
  | S fuel' =>
      match treeRoot with
      | None => Some (listHead, h)
      | Some c =>
          n ← h !! c;
          '(tl, h1) ← flatten fuel' h (right n) listHead;
          n1 ← h1 !! c;
          let h2 := <[c := set_right n1 tl]> h1 in
          n2 ← h2 !! c;
          flatten fuel' h2 (left n2) treeRoot
      end
  end.

Fixpoint buildTree (fuel : nat) (h : gmap nat Node) (treeSize : nat)
    (listHead : option nat) : option (option nat * gmap nat Node) :=
  match fuel with
  | O => None
  | S fuel' =>
      match treeSize with
      | O =>
          c ← listHead;
          n ← h !! c;
          Some (listHead, <[c := set_left n None]> h)
      | S _ =>
          '(firstHalf, h1) ←
            buildTree fuel' h (Z.to_nat (Qceiling (halfTreeSize treeSize))) listHead;
          f ← firstHalf;
          fn ← h1 !! f;
          '(secondHalf, h2) ←
            buildTree fuel' h1 (Z.to_nat (Qfloor (halfTreeSize treeSize))) (right fn);
          s ← secondHalf;
          sn ← h2 !! s;
          fn2 ← h2 !! f;
          let h3 := <[f := set_right fn2 (left sn)]> h2 in
          sn3 ← h3 !! s;
          Some (secondHalf, <[s := set_left sn3 firstHalf]> h3)
      end
  end.

Definition rebuild (sg : Scapegoat) (t : ScapegoatTree) : option ScapegoatTree :=
  let dummy := fresh (dom (heap t)) in
  let h0 := <[dummy := mkNode dummy_key None None]> (heap t) in
  '(nodeList, h1) ← flatten (S (base.size h0)) h0 (scapegoat sg) (Some dummy);
  '(_, h2) ← buildTree (S (treeSize sg)) h1 (treeSize sg) nodeList;
  d ← h2 !! dummy;
  t' ← match parent sg with
       | None => Some (with_maxSize (with_root (with_heap t h2) (left d)) (size t))
       | Some p =>
           pn ← h2 !! p;
           if decide (scapegoat sg = left pn)
           then Some (with_heap t (<[p := set_left pn (left d)]> h2))
           else Some (with_heap t (<[p := set_right pn (left d)]> h2))
       end;
  Some (with_heap t' (delete dummy (heap t'))).

(** The descent of [insert]: [Some None] when the key is already present,
    otherwise the final stack and [prev]. *)
Fixpoint insert_find (lt : T → T → bool) (fuel : nat) (h : gmap nat Node) (k : T)
    (insertionPath : list (option nat)) (prev curr : option nat)
  : option (option (list (option nat) * option nat)) :=
  match fuel with
  | O => None
  | S fuel' =>
      match curr with
      | None => Some (Some (insertionPath, prev))
      | Some c =>
          n ← h !! c;
          let insertionPath := curr :: insertionPath in
          let prev := curr in
          if lt k (key n) then insert_find lt fuel' h k insertionPath prev (left n)
          else if lt (key n) k then insert_find lt fuel' h k insertionPath prev (right n)
          else Some None
      end
  end.

Definition insert (k : T) (t : ScapegoatTree) : option (bool * ScapegoatTree) :=
  found ← insert_find (isLessThan t) (S (base.size (heap t))) (heap t) k [None] None
             (root t);
  match found with
  | None => Some (false, t)
  | Some (insertionPath, prev) =>
      let node := fresh (dom (heap t)) in
      let h1 := <[node := mkNode k None None]> (heap t) in
      t1 ← match prev with
           | None => Some (with_root (with_heap t h1) (Some node))
           | Some p =>
               pn ← h1 !! p;
               if isLessThan t k (key pn)
               then Some (with_heap t (<[p := set_left pn (Some node)]> h1))
               else Some (with_heap t (<[p := set_right pn (Some node)]> h1))
           end;
      let t2 := with_size t1 (S (size t1)) in
      let t3 := if maxSize t2 <? size t2 then with_maxSize t2 (size t2) else t2 in
      deepHeight ← getAlphaDeepHeight (alpha t3) (size t3);
      let insertionHeight := length insertionPath - 1 in
      if (1 <=? insertionHeight) && (deepHeight <? insertionHeight)
      then
        sg ← findScapegoat (S (base.size (heap t3))) (alpha t3) (heap t3) insertionPath;
        t4 ← rebuild sg t3;
        Some (true, t4)
      else Some (true, t3)
  end.

(** The descent of [remove]: [Some None] when the key is absent, otherwise
    [prev] and the node holding the key. *)
Fixpoint remove_find (lt : T → T → bool) (fuel : nat) (h : gmap nat Node) (k : T)
    (prev curr : option nat) : option (option (option nat * nat)) :=
  match fuel with
  | O => None
  | S fuel' =>
      match curr with
      | None => Some None
      | Some c =>
          n ← h !! c;
          let keyLess := lt k (key n) in
          let keyGreater := lt (key n) k in
          if negb keyLess && negb keyGreater then Some (Some (prev, c))
          else
            let prev := curr in
            if keyLess then remove_find lt fuel' h k prev (left n)
            else if keyGreater then remove_find lt fuel' h k prev (right n)
            else remove_find lt fuel' h k prev curr
      end
  end.

Fixpoint descend_left (fuel : nat) (h : gmap nat Node) (prev curr : nat)
  : option (nat * nat) :=
  match fuel with
  | O => None
  | S fuel' =>
      cn ← h !! curr;
      match left cn with
      | None => Some (prev, curr)
      | Some l => descend_left fuel' h curr l
      end
  end.

Fixpoint descend_right (fuel : nat) (h : gmap nat Node) (prev curr : nat)
  : option (nat * nat) :=
  match fuel with
  | O => None
  | S fuel' =>
      cn ← h !! curr;
      match right cn with
      | None => Some (prev, curr)
      | Some r => descend_right fuel' h curr r
      end
  end.

Definition removeNodeWithTwoChildren (node : nat) (t : ScapegoatTree)
  : option ScapegoatTree :=
  let h := heap t in
  let fuel := S (base.size h) in
  '(curr, h1) ←
    (if replaceWithSucc t then
       n ← h !! node;
       curr ← right n;
       cn ← h !! curr;
       match left cn with
       | None => Some (curr, <[node := set_right n (right cn)]> h)
       | Some _ =>
           '(prev, curr) ← descend_left fuel h node curr;
           cn ← h !! curr;
           pn ← h !! prev;
           Some (curr, <[prev := set_left pn (right cn)]> h)
       end
     else
       n ← h !! node;
       curr ← left n;
       cn ← h !! curr;
       match right cn with
       | None => Some (curr, <[node := set_left n (left cn)]> h)
       | Some _ =>
           '(prev, curr) ← descend_right fuel h node curr;
           cn ← h !! curr;
           pn ← h !! prev;
           Some (curr, <[prev := set_right pn (left cn)]> h)
       end);
  cn ← h1 !! curr;
  nn ← h1 !! node;
  let h2 := <[node := set_key nn (key cn)]> h1 in
  let h3 := delete curr h2 in
  Some (with_replaceWithSucc (with_heap t h3) (negb (replaceWithSucc t))).

Definition removeNodeWithoutChild (node : nat) (par : option nat) (t : ScapegoatTree)
  : option ScapegoatTree :=
  let h := heap t in
  n ← h !! node;
  let child := match left n with Some _ => left n | None => right n end in
  t1 ← (if decide (root t = Some node) then Some (with_root t child)
        else
          p ← par;
          pn ← h !! p;
          if decide (left pn = Some node)
          then Some (with_heap t (<[p := set_left pn child]> h))
          else Some (with_heap t (<[p := set_right pn child]> h)));
  Some (with_heap t1 (delete node (heap t1))).

Definition remove (k : T) (t : ScapegoatTree) : option (bool * ScapegoatTree) :=
  found ← remove_find (isLessThan t) (S (base.size (heap t))) (heap t) k None (root t);
  match found with
  | None => Some (false, t)
  | Some (prev, curr) =>
      cn ← heap t !! curr;
      t1 ← (match left cn, right cn with
            | Some _, Some _ => removeNodeWithTwoChildren curr t
            | _, _ => removeNodeWithoutChild curr prev t
            end);
      let t2 := with_size t1 (size t1 - 1) in
      if size_le_alpha_maxSize (alpha t2) (size t2) (maxSize t2)
      then
        t3 ← rebuild (mkScapegoat (root t2) None (size t2)) t2;
        Some (true, t3)
      else Some (true, t2)
  end.

Fixpoint verifyHelper (lt : T → T → bool) (fuel : nat) (a : Q) (h : gmap nat Node)
    (node : option nat) : option VerificationData :=
  match fuel with
  | O => None
  | S fuel' =>
      match node with
      | None => Some (mkVerificationData true true 0 (-1))
      | Some c =>
          n ← h !! c;
          l ← verifyHelper lt fuel' a h (left n);
          r ← verifyHelper lt fuel' a h (right n);
          let ok : bool := isBST l && isBST r in
          ok1 ← match left n with
                | None => Some ok
                | Some lc =>
                    if ok then ln ← h !! lc; Some (lt (key ln) (key n)) else Some false
                end;
          ok2 ← match right n with
                | None => Some ok1
                | Some rc =>
                    if ok1 : bool then rn ← h !! rc; Some (lt (key n) (key rn))
                    else Some false
                end;
          let sz := subtreeSize l + subtreeSize r + 1 in
          let ht := (Z.max (height l) (height r) + 1)%Z in
          deep ← getAlphaDeepHeight a sz;
          let max_height := (Z.of_nat deep + 1)%Z in
          Some (mkVerificationData (ht <=? max_height)%Z ok2 sz ht)
      end
  end.

Definition verify (t : ScapegoatTree) : option bool :=
  treeProperties ←
    verifyHelper (isLessThan t) (S (base.size (heap t))) (alpha t) (heap t) (root t);
  Some (size_ge_alpha_maxSize (alpha t) (size t) (maxSize t)
        && balanced treeProperties && isBST treeProperties).

Inductive op := Insert (k : T) | Remove (k : T).

Definition step (o : op) (t : ScapegoatTree) : option (bool * ScapegoatTree) :=
  match o with
  | Insert k => insert k t
  | Remove k => remove k t
  end.

Fixpoint run (ops : list op) (t : ScapegoatTree) : option (list bool * ScapegoatTree) :=
  match ops with
  | [] => Some (@nil bool, t)
  | o :: ops' =>
      '(b, t1) ← step o t;
      '(bs, t2) ← run ops' t1;
      Some (b :: bs, t2)
  end.

End WithKey.
End Generic.

(** * The shape of the heap: trees of addressed nodes *)

(** A tree whose nodes carry the address of the cell that holds them. *)
Inductive tree :=
  | Leaf
  | Br (a : nat) (l : tree) (k : Z) (r : tree).

#[global] Instance tree_eq_dec : EqDecision tree.
Proof. solve_decision. Defined.

Definition ptr_of (T : tree) : option nat :=
  match T with
  | Leaf => None
  | Br a _ _ _ => Some a
  end.

(** In-order list of the cells (address and key). *)
Fixpoint nodes (T : tree) : list (nat * Z) :=
  match T with
  | Leaf => []
  | Br a l k r => nodes l ++ (a, k) :: nodes r
  end.

Fixpoint addrs (T : tree) : list nat :=
  match T with
  | Leaf => []
  | Br a l k r => addrs l ++ a :: addrs r
  end.

Fixpoint keys (T : tree) : list Z :=
  match T with
  | Leaf => []
  | Br a l k r => keys l ++ k :: keys r
  end.

Fixpoint tsize (T : tree) : nat :=
  match T with
  | Leaf => 0
  | Br _ l _ r => 1 + tsize l + tsize r
  end.

(** Number of levels: the height of the source plus one. *)
Fixpoint levels (T : tree) : nat :=
  match T with
  | Leaf => 0
  | Br _ l _ r => S (Nat.max (levels l) (levels r))
  end.

(** The heap holds every node of [T], wired as in [T]. *)
Fixpoint models (h : gmap nat Node) (T : tree) : Prop :=
  match T with
  | Leaf => True
  | Br a l k r =>
      h !! a = Some (mkNode k (ptr_of l) (ptr_of r)) ∧ models h l ∧ models h r
  end.

(** Binary search tree ordering. *)
Fixpoint bst (T : tree) : Prop :=
  match T with
  | Leaf => True
  | Br _ l k r =>
      bst l ∧ bst r ∧ Forall (λ x, (x < k)%Z) (keys l) ∧ Forall (λ x, (k < x)%Z) (keys r)
  end.

(** A right-linked chain of cells ending in [tl]; left fields are free. *)
Definition head_ptr (cs : list (nat * Z)) (tl : option nat) : option nat :=
  match cs with
  | [] => tl
  | c :: _ => Some c.1
  end.

Fixpoint chain (h : gmap nat Node) (cs : list (nat * Z)) (tl : option nat) : Prop :=
  match cs with
  | [] => True
  | c :: cs' =>
      (∃ n, h !! c.1 = Some n ∧ key n = c.2 ∧ right n = head_ptr cs' tl)
      ∧ chain h cs' tl
  end.

(** The tree that [buildTree] makes of the first [n] cells of a chain, and
    the cells that remain. *)
Fixpoint tbuild (fuel n : nat) (cs : list (nat * Z)) : tree * list (nat * Z) :=
  match fuel with
  | O => (Leaf, cs)
  | S fuel' =>
      match n with
      | O => (Leaf, cs)
      | S _ =>
          let '(l, cs1) := tbuild fuel' (Z.to_nat (Qceiling (halfTreeSize n))) cs in
          match cs1 with
          | [] => (l, [])
          | c :: cs2 =>
              let '(r, cs3) := tbuild fuel' (Z.to_nat (Qfloor (halfTreeSize n))) cs2 in
              (Br c.1 l c.2 r, cs3)
          end
      end
  end.

(** The subtree rebuilt by [rebuild]. *)
Definition balance (T : tree) : tree :=
  (tbuild (S (tsize T)) (tsize T) (nodes T)).1.

(** Every split made by [buildTree] gives the left side the ceiling and the
    right side the floor of half the remaining nodes. *)
Fixpoint split_balanced (T : tree) : Prop :=
  match T with
  | Leaf => True
  | Br _ l _ r =>
      tsize l = Z.to_nat (Qceiling (halfTreeSize (tsize T)))
      ∧ tsize r = Z.to_nat (Qfloor (halfTreeSize (tsize T)))
      ∧ split_balanced l ∧ split_balanced r
  end.

(** * Operations on addressed trees *)

(** Descent by key comparison, as in [search]. *)
Fixpoint tmem (k : Z) (T : tree) : bool :=
  match T with
  | Leaf => false
  | Br _ l kb r =>
      if (k =? kb)%Z then true
      else if (k <? kb)%Z then tmem k l else tmem k r
  end.

(** The subtrees met on the descent towards [k], root first, stopping before
    a node that holds [k]. *)
Fixpoint anc (k : Z) (T : tree) : list tree :=
  match T with
  | Leaf => []
  | Br _ l kb r =>
      if (k =? kb)%Z then []
      else T :: (if (k <? kb)%Z then anc k l else anc k r)
  end.

(** The new leaf at address [a] in its place. *)
Fixpoint tinsert (a : nat) (k : Z) (T : tree) : tree :=
  match T with
  | Leaf => Br a Leaf k Leaf
  | Br b l kb r =>
      if (k =? kb)%Z then T
      else if (k <? kb)%Z then Br b (tinsert a k l) kb r
      else Br b l kb (tinsert a k r)
  end.

(** The subtree reached after [dep] steps towards [k]. *)
Fixpoint sub_at (dep : nat) (k : Z) (T : tree) : tree :=
  match dep with
  | O => T
  | S dep' =>
      match T with
      | Leaf => Leaf
      | Br _ l kb r => if (k <? kb)%Z then sub_at dep' k l else sub_at dep' k r
      end
  end.

(** Rebuild of the subtree reached after [dep] steps towards [k]. *)
Fixpoint rebuild_at (dep : nat) (k : Z) (T : tree) : tree :=
  match dep with
  | O => balance T
  | S dep' =>
      match T with
      | Leaf => Leaf
      | Br b l kb r =>
          if (k <? kb)%Z then Br b (rebuild_at dep' k l) kb r
          else Br b l kb (rebuild_at dep' k r)
      end
  end.

(** How many steps [findScapegoat] climbs from the ancestor [s] at index
    [idx], with the ancestors above it in [rest], nearest first. *)
Fixpoint sg_steps (a : Q) (s : tree) (rest : list tree) (idx : nat) : nat :=
  match rest with
  | [] => 0
  | p :: rest' =>
      match getAlphaDeepHeight a (tsize s) with
      | Some deep => if deep <? idx then 0 else S (sg_steps a p rest' (S idx))
      | None => 0
      end
  end.

(** Parent of the leftmost node and the leftmost node, below parent [p]. *)
Fixpoint minp (p : nat) (T : tree) : nat * nat :=
  match T with
  | Leaf => (p, p)
  | Br y yl _ _ =>
      match yl with
      | Leaf => (p, y)
      | Br _ _ _ _ => minp y yl
      end
  end.

Fixpoint maxp (p : nat) (T : tree) : nat * nat :=
  match T with
  | Leaf => (p, p)
  | Br y _ _ yr =>
      match yr with
      | Leaf => (p, y)
      | Br _ _ _ _ => maxp y yr
      end
  end.

(** The leftmost cell of [Br a l k r] and the tree without it. *)
Fixpoint delete_min (a : nat) (l : tree) (k : Z) (r : tree) : (nat * Z) * tree :=
  match l with
  | Leaf => ((a, k), r)
  | Br la ll lk lr =>
      let '(m, l') := delete_min la ll lk lr in (m, Br a l' k r)
  end.

Fixpoint delete_max (a : nat) (l : tree) (k : Z) (r : tree) : (nat * Z) * tree :=
  match r with
  | Leaf => ((a, k), l)
  | Br ra rl rk rr =>
      let '(m, r') := delete_max ra rl rk rr in (m, Br a l k r')
  end.

Definition two_children (T : tree) : bool :=
  match T with
  | Br _ (Br _ _ _ _) _ (Br _ _ _ _) => true
  | _ => false
  end.

(** Removal of the root node of [T]; [succ] is the [replaceWithSucc] flag. *)
Definition remove_root (succ : bool) (T : tree) : tree :=
  match T with
  | Leaf => Leaf
  | Br a Leaf k r => r
  | Br a l k Leaf => l
  | Br a (Br la ll lk lr as l) k (Br ra rl rk rr as r) =>
      if succ
      then let '(m, r') := delete_min ra rl rk rr in Br a l m.2 r'
      else let '(m, l') := delete_max la ll lk lr in Br a l' m.2 r
  end.

(** The address released by the removal of the root node of [T]. *)
Definition removed_addr (succ : bool) (T : tree) : option nat :=
  match T with
  | Leaf => None
  | Br a Leaf _ _ => Some a
  | Br a _ _ Leaf => Some a
  | Br a (Br la ll lk lr) k (Br ra rl rk rr) =>
      if succ then Some (delete_min ra rl rk rr).1.1
      else Some (delete_max la ll lk lr).1.1
  end.

(** The subtree whose root holds [k] ([Leaf] when [k] is absent). *)
Fixpoint find_sub (k : Z) (T : tree) : tree :=
  match T with
  | Leaf => Leaf
  | Br _ l kb r =>
      if (k =? kb)%Z then T
      else if (k <? kb)%Z then find_sub k l else find_sub k r
  end.

Fixpoint tremove (succ : bool) (k : Z) (T : tree) : tree :=
  match T with
  | Leaf => Leaf
  | Br a l kb r =>
      if (k =? kb)%Z then remove_root succ T
      else if (k <? kb)%Z then Br a (tremove succ k l) kb r
      else Br a l kb (tremove succ k r)
  end.

(** [verifyHelper] on a tree. *)
Fixpoint tverify (a : Q) (T : tree) : option VerificationData :=
  match T with
  | Leaf => Some (mkVerificationData true true 0 (-1))
  | Br _ l k r =>
      vl ← tverify a l;
      vr ← tverify a r;
      let ok : bool := isBST vl && isBST vr in
      let ok1 := match l with
                 | Leaf => ok
                 | Br _ _ lk _ => if ok then (lk <? k)%Z else false
                 end in
      let ok2 := match r with
                 | Leaf => ok1
                 | Br _ _ rk _ => if ok1 then (rk >? k)%Z else false
                 end in
      let sz := subtreeSize vl + subtreeSize vr + 1 in
      let ht := (Z.max (height vl) (height vr) + 1)%Z in
      deep ← getAlphaDeepHeight a sz;
      Some (mkVerificationData (ht <=? Z.of_nat deep + 1)%Z ok2 sz ht)
  end.

(** ** The tree object stands for an addressed tree *)

Record Rep (t : ScapegoatTree) (T : tree) : Prop := mkRep {
  rep_models : models (heap t) T;
  rep_root : root t = ptr_of T;
  rep_nodup : NoDup (addrs T);
  rep_exact : ∀ a, is_Some (heap t !! a) → a ∈ addrs T;
  rep_size : size t = tsize T
}.

(** ** findScapegoat *)

(** The ancestors [s :: rest], nearest first, are wired child to parent. *)
Fixpoint up_chain (h : gmap nat Node) (s : tree) (rest : list tree) : Prop :=
  s ≠ Leaf ∧ models h s ∧
  match rest with
  | [] => True
  | p :: rest' =>
      NoDup (addrs p)
      ∧ (∃ b l kb r, p = Br b l kb r ∧ (s = l ∨ s = r))
      ∧ up_chain h p rest'
  end.

Definition sg_result (a : Q) (s : tree) (rest : list tree) (idx : nat) : Scapegoat :=
  let j := sg_steps a s rest idx in
  mkScapegoat (ptr_of (nth j (s :: rest) Leaf)) (ptr_of (nth (S j) (s :: rest) Leaf))
    (tsize (nth j (s :: rest) Leaf)).

(** The depth at which [insert] rebuilds, if it does. *)
Definition insert_rebuild_depth (al : Q) (a : nat) (k : Z) (T : tree) : option nat :=
  let d := length (anc k T) in
  match getAlphaDeepHeight al (S (tsize T)) with
  | Some deep =>
      if (1 <=? d) && (deep <? d)
      then match rev (anc k (tinsert a k T)) with
           | s :: rest => Some (d - 1 - sg_steps al s rest 1)
           | [] => None
           end
      else None
  | None => None
  end.

(** The tree after a successful [insert] that puts the key at address [a]. *)
Definition insert_tree (al : Q) (a : nat) (k : Z) (T : tree) : tree :=
  match insert_rebuild_depth al a k T with
  | Some dep => rebuild_at dep k (tinsert a k T)
  | None => tinsert a k T
  end.

Definition insert_maxSize (al : Q) (a : nat) (k : Z) (T : tree) (msz : nat) : nat :=
  match insert_rebuild_depth al a k T with
  | Some O => S (tsize T)
  | _ => if msz <? S (tsize T) then S (tsize T) else msz
  end.

(** The node removal step of [remove], once the node is found. *)
Definition splice (curr : nat) (prev : option nat) (t : ScapegoatTree)
  : option ScapegoatTree :=
  cn ← heap t !! curr;
  match left cn, right cn with
  | Some _, Some _ => removeNodeWithTwoChildren curr t
  | _, _ => removeNodeWithoutChild curr prev t
  end.

(** Writing [q] into the slot of [pn] that points to [T]. *)
Definition slot_set (pn : Node) (T : tree) (q : option nat) : Node :=
  if decide (left pn = ptr_of T) then set_left pn q else set_right pn q.

(** The tree after a successful [remove]. *)
Definition remove_tree (al : Q) (succ : bool) (k : Z) (T : tree) (msz : nat) : tree :=
  if size_le_alpha_maxSize al (tsize T - 1) msz
  then balance (tremove succ k T)
  else tremove succ k T.

Definition remove_maxSize (al : Q) (T : tree) (msz : nat) : nat :=
  if size_le_alpha_maxSize al (tsize T - 1) msz then tsize T - 1 else msz.

(** ** The alpha-deep height *)

(** [b ^ h] *)
Fixpoint qpow (b : Q) (h : nat) : Q :=
  match h with
  | O => 1%Q
  | S h' => (qpow b h' * b)%Q
  end.

(** The balance factors the constructor accepts. *)
Definition valid_alpha (a : Q) : Prop := (1 # 2 < a)%Q ∧ (a < 1)%Q.

(** [getAlphaDeepHeight] as a total function ([0] where it is undefined). *)
Definition deepH (a : Q) (n : nat) : nat := default 0 (getAlphaDeepHeight a n).

(** ** The invariant of the tree object *)

Record Inv (t : ScapegoatTree) (T : tree) : Prop := mkInv {
  inv_rep : Rep t T;
  inv_bst : bst T;
  inv_alpha : valid_alpha (alpha t);
  inv_max : size t ≤ maxSize t;
  inv_ratio : size_ge_alpha_maxSize (alpha t) (size t) (maxSize t) = true;
  inv_height : T ≠ Leaf → levels T ≤ S (deepH (alpha t) (maxSize t))
}.

(** ** Sequences of calls *)

(** The key [k] is live after the calls [ops] with results [bs]: some
    successful insert of [k] is not followed by a successful remove of [k]. *)
Definition live (ops : list op) (bs : list bool) (k : Z) : Prop :=
  ∃ i, ops !! i = Some (Insert k) ∧ bs !! i = Some true
       ∧ ∀ j, i < j → ¬ (ops !! j = Some (Remove k) ∧ bs !! j = Some true).

(** ** Notions used to state the properties *)

(** Height as [verifyHelper] counts it: [-1] for the empty tree. *)
Definition tree_height (T : tree) : Z := (Z.of_nat (levels T) - 1)%Z.

(** The results and the final state of a sequence of calls. *)
Definition results_of (ops : list op) (t : ScapegoatTree) : list bool :=
  match run ops t with Some (bs, _) => bs | None => [] end.

Definition state_of (ops : list op) (t : ScapegoatTree) : ScapegoatTree :=
  match run ops t with Some (_, t') => t' | None => t end.



(** Sibling subtrees differ in size by at most one, the left being the
    larger. *)
Fixpoint sizes_close (T : tree) : Prop :=
  match T with
  | Leaf => True
  | Br _ l _ r => tsize r ≤ tsize l ≤ S (tsize r) ∧ sizes_close l ∧ sizes_close r
  end.

Definition rebuild_example_tree : tree :=
  Br 1 (Br 0 Leaf 10 Leaf) 20 (Br 2 Leaf 30 (Br 3 Leaf 40 (Br 4 Leaf 50 Leaf))).

Definition rebuild_example_heap : gmap nat Node :=
  <[0 := mkNode 10 None None]> (<[1 := mkNode 20 (Some 0) (Some 2)]>
  (<[2 := mkNode 30 None (Some 3)]> (<[3 := mkNode 40 None (Some 4)]>
  (<[4 := mkNode 50 None None]> (<[9 := mkNode (-1) None None]> ∅))))).


(** ** Notions used to state further properties *)

(** The number of iterations of the destructor's loop that find a node at
    the root: one for every node on the right spine, two for every other
    node. *)
Fixpoint dtor_steps (T : tree) : nat :=
  match T with
  | Leaf => 0
  | Br _ l _ r => 1 + 2 * tsize l + dtor_steps r
  end.

(** What the [isBST] field of [verifyHelper] checks: the key of every node
    lies between the keys of its two children. *)
Fixpoint child_ordered (T : tree) : bool :=
  match T with
  | Leaf => true
  | Br _ l k r =>
      child_ordered l && child_ordered r
      && match l with Leaf => true | Br _ _ lk _ => (lk <? k)%Z end
      && match r with Leaf => true | Br _ _ rk _ => (rk >? k)%Z end
  end.

(** What the [balanced] field of [verifyHelper] checks, at the root only. *)
Definition root_balanced (a : Q) (T : tree) : bool :=
  match T with
  | Leaf => true
  | Br _ _ _ _ => (tree_height T <=? Z.of_nat (deepH a (tsize T)) + 1)%Z
  end.

(** The key that a call is about. *)
Definition op_key (o : op) : Z :=
  match o with Insert k | Remove k => k end.






(** The calls used to instantiate the properties of reached trees. *)
Definition sample_ops : list op :=
  [Insert 5; Insert 3; Insert 8; Insert 1; Insert 4; Remove 3; Insert 9]%Z.

Definition fresh_tree : ScapegoatTree := mkTree ∅ None 0 0 (3 # 5) true.

Definition sample_tree : ScapegoatTree := state_of sample_ops fresh_tree.

Definition rising_tree : ScapegoatTree :=
  state_of [Insert 1; Insert 2; Insert 3]%Z fresh_tree.

(** ** The generic tree seen through a rank of its keys *)

(** A generic node with its key replaced by an integer. *)
Definition to_int {T : Type} (g : T → Z) (n : @Generic.Node T) : Node :=
  mkNode (g (Generic.key n)) (Generic.left n) (Generic.right n).

(** A generic heap with the key of the node at address [a] replaced by its
    image under [F a]. *)
Definition heap_at {T : Type} (F : nat → T → Z) (gh : gmap nat (@Generic.Node T))
  : gmap nat Node :=
  map_imap (λ a n, Some (to_int (F a) n)) gh.

(** A generic tree with every key replaced by its rank. *)
Definition tree_ranks {T : Type} (f : T → Z) (gt : @Generic.ScapegoatTree T)
  : ScapegoatTree :=
  mkTree (heap_at (λ _, f) (Generic.heap gt)) (Generic.root gt) (Generic.size gt)
    (Generic.maxSize gt) (Generic.alpha gt) (Generic.replaceWithSucc gt).

Definition op_rank {T : Type} (f : T → Z) (o : @Generic.op T) : op :=
  match o with
  | Generic.Insert k => Insert (f k)
  | Generic.Remove k => Remove (f k)
  end.

(** The comparison function orders keys by their rank. *)
Definition ranked_by {T : Type} (f : T → Z) (lt : T → T → bool) : Prop :=
  ∀ x y, lt x y = (f x <? f y)%Z.

(** A result that carries a heap, seen through [F]. *)
Definition with_heap_at {T A : Type} (F : nat → T → Z)
    (r : option (A * gmap nat (@Generic.Node T))) : option (A * gmap nat Node) :=
  '(x, h) ← r; Some (x, heap_at F h).

(** A result of a call, seen through the rank. *)
Definition result_ranks {T : Type} (f : T → Z)
    (r : option (bool * @Generic.ScapegoatTree T)) : option (bool * ScapegoatTree) :=
  '(b, gt) ← r; Some (b, tree_ranks f gt).

(** A key of the rank of [k] is live after the calls [ops] with results
    [bs]: some successful insert of such a key is not followed by a
    successful remove of such a key. *)
Definition live_upto {T : Type} (f : T → Z) (ops : list (@Generic.op T))
    (bs : list bool) (k : T) : Prop :=
  ∃ i k', f k' = f k ∧ ops !! i = Some (Generic.Insert k') ∧ bs !! i = Some true
    ∧ ∀ j k'', i < j → f k'' = f k →
        ¬ (ops !! j = Some (Generic.Remove k'') ∧ bs !! j = Some true).

(** Strings ordered by their length. *)
Definition shorter (s1 s2 : string) : bool :=
  (Z.of_nat (String.length s1) <? Z.of_nat (String.length s2))%Z.

Definition string_ops : list (@Generic.op string) :=
  [Generic.Insert "bb"; Generic.Insert "a"; Generic.Insert "cc"; Generic.Insert "dddd";
   Generic.Remove "xx"; Generic.Insert "eee"]%string.

(** * The code against the addressed trees *)

(** Proof steps that recur: one unit of fuel is there because the tree has
    a level left; a bind of the option monad whose argument is known. *)
Ltac spend_fuel fuel Hf := destruct fuel as [|fuel]; [simpl in Hf; lia|].

Ltac bind_step := cbn [mbind option_bind].

(** ** Basic facts *)

Lemma addrs_nodes T : addrs T = (nodes T).*1.
Proof. induction T; simpl; [done|]. rewrite fmap_app, fmap_cons. simpl. congruence. Qed.

Lemma keys_nodes T : keys T = (nodes T).*2.
Proof. induction T; simpl; [done|]. rewrite fmap_app, fmap_cons. simpl. congruence. Qed.

Lemma tsize_nodes T : tsize T = length (nodes T).
Proof. induction T; simpl; [done|]. rewrite length_app. simpl. lia. Qed.

Lemma tsize_addrs T : tsize T = length (addrs T).
Proof. rewrite addrs_nodes, length_fmap. apply tsize_nodes. Qed.

Lemma levels_le_tsize T : levels T ≤ tsize T.
Proof. induction T; simpl; lia. Qed.

Lemma ptr_of_addrs T a : ptr_of T = Some a → a ∈ addrs T.
Proof. destruct T; simpl; [done|]. intros [= ->]. set_solver. Qed.

Lemma models_frame h h' T :
  (∀ a, a ∈ addrs T → h' !! a = h !! a) → models h T → models h' T.
Proof.
  induction T as [|a l IHl k r IHr]; simpl; [done|].
  intros Hf (Ha & Hl & Hr). split_and!.
  - rewrite Hf; [done|set_solver].
  - apply IHl; [|done]. intros; apply Hf; set_solver.
  - apply IHr; [|done]. intros; apply Hf; set_solver.
Qed.

Lemma models_insert_ne h T a n :
  a ∉ addrs T → models h T → models (<[a:=n]> h) T.
Proof.
  intros Ha. apply models_frame. intros b Hb.
  apply lookup_insert_ne. intros ->. done.
Qed.

Lemma models_delete_ne h T a :
  a ∉ addrs T → models h T → models (delete a h) T.
Proof.
  intros Ha. apply models_frame. intros b Hb.
  apply lookup_delete_ne. intros ->. done.
Qed.

Lemma models_lookup h T a : models h T → a ∈ addrs T → is_Some (h !! a).
Proof.
  induction T as [|b l IHl k r IHr]; simpl; [set_solver|].
  intros (Hb & Hl & Hr) Ha.
  apply elem_of_app in Ha as [Ha|Ha]; [by apply IHl|].
  apply elem_of_cons in Ha as [->|Ha]; [by eexists|by apply IHr].
Qed.

Lemma models_size h T : models h T → NoDup (addrs T) → tsize T ≤ base.size h.
Proof.
  intros Hm Hnd. rewrite tsize_addrs, <- size_dom.
  rewrite <- (size_list_to_set (C:=gset nat)) by done.
  apply subseteq_size. intros a Ha.
  apply elem_of_list_to_set in Ha. apply elem_of_dom. eauto using models_lookup.
Qed.

Lemma models_fresh h T : models h T → fresh (dom h) ∉ addrs T.
Proof.
  intros Hm Ha. apply (is_fresh (dom h)). apply elem_of_dom.
  eauto using models_lookup.
Qed.

(** ** Halves *)

Lemma Qceiling_half n : Qceiling (halfTreeSize n) = (Z.of_nat n / 2)%Z.
Proof.
  unfold halfTreeSize, Qceiling, Qfloor, Qdiv, Qminus, Qplus, Qmult, Qopp, Qinv, inject_Z.
  cbn -[Z.div Z.of_nat Z.mul Z.add Z.opp].
  change (Z.pos (1 * 1 * 2)) with 2%Z.
  Z.div_mod_to_equations. lia.
Qed.

Lemma Qfloor_half n : Qfloor (halfTreeSize n) = ((Z.of_nat n - 1) / 2)%Z.
Proof.
  unfold halfTreeSize, Qceiling, Qfloor, Qdiv, Qminus, Qplus, Qmult, Qopp, Qinv, inject_Z.
  cbn -[Z.div Z.of_nat Z.mul Z.add Z.opp].
  change (Z.pos (1 * 1 * 2)) with 2%Z.
  Z.div_mod_to_equations. lia.
Qed.

Lemma half_ceil m : Z.to_nat (Qceiling (halfTreeSize (S m))) = (S m / 2)%nat.
Proof.
  rewrite Qceiling_half. apply Nat2Z.inj. rewrite Nat2Z.inj_div, Z2Nat.id; [done|].
  apply Z.div_pos; lia.
Qed.

Lemma half_floor m : Z.to_nat (Qfloor (halfTreeSize (S m))) = (m / 2)%nat.
Proof.
  rewrite Qfloor_half. apply Nat2Z.inj. rewrite Nat2Z.inj_div, Z2Nat.id.
  - f_equal. lia.
  - apply Z.div_pos; lia.
Qed.

Lemma half_sum m : (S m / 2 + m / 2 = m)%nat.
Proof.
  pose proof (Nat.div_mod_eq (S m) 2). pose proof (Nat.div_mod_eq m 2).
  pose proof (Nat.mod_upper_bound (S m) 2). pose proof (Nat.mod_upper_bound m 2).
  assert ((S m) mod 2 = 0 /\ m mod 2 = 1 \/ (S m) mod 2 = 1 /\ m mod 2 = 0)%nat.
  { rewrite <- Nat.add_1_r. rewrite Nat.Div0.add_mod by lia. 
    destruct (m mod 2)%nat as [|[|?]] eqn:E; simpl; lia. }
  lia.
Qed.

(** ** Chains and flatten *)

Lemma NoDup_addrs_Br a l k r :
  NoDup (addrs (Br a l k r)) ↔
  NoDup (addrs l) ∧ NoDup (addrs r) ∧ (a ∉ addrs l) ∧ (a ∉ addrs r)
  ∧ (∀ x, x ∈ addrs l → x ∉ addrs r).
Proof.
  simpl. rewrite NoDup_app, NoDup_cons. split.
  - intros (Hl & Hd & Har & Hr). split_and!; try done.
    + intros Ha. apply (Hd a Ha). set_solver.
    + intros x Hx Hx'. apply (Hd x Hx). set_solver.
  - intros (Hl & Hr & Hal & Har & Hd). split_and!; try done.
    intros x Hx [->|Hx']%elem_of_cons; [done|]. by apply (Hd x).
Qed.

Lemma head_ptr_app cs1 cs2 tl :
  head_ptr (cs1 ++ cs2) tl = head_ptr cs1 (head_ptr cs2 tl).
Proof. by destruct cs1. Qed.

Lemma chain_frame h h' cs tl :
  (∀ a, a ∈ cs.*1 → h' !! a = h !! a) → chain h cs tl → chain h' cs tl.
Proof.
  induction cs as [|c cs IH]; simpl; [done|].
  intros Hf ((n & Hn & Hk & Hr) & Hc). split.
  - exists n. rewrite Hf; [done|set_solver].
  - apply IH; [|done]. intros; apply Hf; set_solver.
Qed.

Lemma chain_app h cs1 cs2 tl :
  chain h cs1 (head_ptr cs2 tl) → chain h cs2 tl → chain h (cs1 ++ cs2) tl.
Proof.
  induction cs1 as [|c cs1 IH]; simpl; [done|].
  intros ((n & Hn & Hk & Hr) & Hc) H2. split; [|by apply IH].
  exists n. by rewrite head_ptr_app.
Qed.

Lemma chain_app_inv h cs1 cs2 tl :
  chain h (cs1 ++ cs2) tl → chain h cs1 (head_ptr cs2 tl) ∧ chain h cs2 tl.
Proof.
  induction cs1 as [|c cs1 IH]; simpl; [done|].
  intros ((n & Hn & Hk & Hr) & Hc). destruct (IH Hc) as [H1 H2].
  split; [|done]. split; [|done]. exists n. by rewrite <- head_ptr_app.
Qed.

Lemma head_ptr_nodes T tl : head_ptr (nodes T) tl = match T with Leaf => tl | _ => head_ptr (nodes T) None end.
Proof. destruct T; simpl; [done|]. rewrite !head_ptr_app. by destruct (nodes T1). Qed.

Lemma flatten_spec T : ∀ fuel h lh,
  levels T < fuel → models h T → NoDup (addrs T) →
  ∃ h', flatten fuel h (ptr_of T) lh = Some (head_ptr (nodes T) lh, h')
        ∧ chain h' (nodes T) lh
        ∧ (∀ a, a ∉ addrs T → h' !! a = h !! a).
Proof.
  induction T as [|a l IHl k r IHr]; intros fuel h lh Hfuel Hm Hnd.
  - destruct fuel; [lia|]. simpl. eauto.
  - destruct fuel as [|fuel]; [lia|]. simpl in Hfuel.
    apply NoDup_addrs_Br in Hnd as (Hndl & Hndr & Hal & Har & Hd).
    destruct Hm as (Ha & Hl & Hr).
    destruct (IHr fuel h lh) as (h1 & E1 & C1 & F1); [lia|done|done|].
    simpl. rewrite Ha. simpl. rewrite E1. simpl.
    rewrite (F1 a Har), Ha. simpl. rewrite lookup_insert_eq. simpl.
    set (h2 := <[a:=set_right (mkNode k (ptr_of l) (ptr_of r)) (head_ptr (nodes r) lh)]> h1).
    assert (models h2 l) as Hl2.
    { apply models_insert_ne; [done|]. eapply models_frame; [|exact Hl].
      intros b Hb. apply F1. by apply Hd. }
    destruct (IHl fuel h2 (Some a)) as (h3 & E3 & C3 & F3); [lia|done|done|].
    exists h3. split_and!.
    + rewrite E3. f_equal. f_equal. rewrite head_ptr_app. done.
    + apply chain_app; [done|]. simpl. split.
      * eexists. rewrite (F3 a Hal). unfold h2. rewrite lookup_insert_eq. done.
      * eapply chain_frame; [|exact C1]. intros b Hb. rewrite <- addrs_nodes in Hb.
        rewrite F3 by (intros Hb'; by apply (Hd b)). unfold h2.
        rewrite lookup_insert_ne; [done|]. intros ->. done.
    + intros b Hb. rewrite F3 by set_solver. unfold h2.
      rewrite lookup_insert_ne by set_solver. apply F1. set_solver.
Qed.

(** ** buildTree *)

Lemma half_ceil_lt m : S m / 2 ≤ m.
Proof. pose proof (half_sum m). lia. Qed.

Lemma half_floor_le_ceil m : m / 2 ≤ S m / 2 ≤ S (m / 2).
Proof.
  pose proof (Nat.div_mod_eq (S m) 2). pose proof (Nat.div_mod_eq m 2).
  pose proof (Nat.mod_upper_bound (S m) 2). pose proof (Nat.mod_upper_bound m 2).
  lia.
Qed.

Lemma tbuild_unfold fuel m cs :
  tbuild (S fuel) (S m) cs =
    let '(l, cs1) := tbuild fuel (S m / 2) cs in
    match cs1 with
    | [] => (l, [])
    | c :: cs2 =>
        let '(r, cs3) := tbuild fuel (m / 2) cs2 in (Br c.1 l c.2 r, cs3)
    end.
Proof. rewrite <- half_ceil, <- half_floor. reflexivity. Qed.

Lemma tbuild_app fuel : ∀ n cs rest,
  n < fuel → length cs = n →
  tbuild fuel n (cs ++ rest) = ((tbuild fuel n cs).1, rest)
  ∧ nodes (tbuild fuel n cs).1 = cs
  ∧ split_balanced (tbuild fuel n cs).1.
Proof.
  induction fuel as [|fuel IH]; intros n cs rest Hn Hlen; [lia|].
  destruct n as [|m].
  { destruct cs; [|done]. simpl. done. }
  rewrite !tbuild_unfold.
  pose proof (half_sum m) as Hsum.
  set (n1 := S m / 2) in *. set (n2 := m / 2) in *.
  assert (cs = take n1 cs ++ drop n1 cs) as Hcs by (by rewrite take_drop).
  destruct (drop n1 cs) as [|c cs2] eqn:Hdrop.
  { apply (f_equal length) in Hdrop. rewrite length_drop in Hdrop. simpl in Hdrop. lia. }
  set (cs1 := take n1 cs) in *.
  assert (length cs1 = n1) as Hl1 by (unfold cs1; rewrite length_take; lia).
  assert (length cs2 = n2) as Hl2.
  { apply (f_equal length) in Hcs. rewrite length_app in Hcs. simpl in Hcs. lia. }
  rewrite Hcs. rewrite <- (app_assoc cs1 (c :: cs2) rest).
  destruct (IH n1 cs1 ((c :: cs2) ++ rest)) as (E1 & N1 & B1); [lia|done|].
  destruct (IH n1 cs1 (c :: cs2)) as (E1' & _ & _); [lia|done|].
  rewrite E1, E1'. cbn [fst snd app].
  destruct (IH n2 cs2 rest) as (E2 & N2 & B2); [lia|done|].
  destruct (IH n2 cs2 []) as (E2' & _ & _); [lia|done|].
  rewrite app_nil_r in E2'. rewrite E2, E2'. cbn [fst snd nodes split_balanced]. simpl tsize.
  rewrite N1, N2. split_and!; try done.
  - by destruct c.
  - rewrite ?half_ceil, ?half_floor.
    rewrite !tsize_nodes, N1, N2, Hl1, Hl2, Hsum. done.
  - rewrite ?half_ceil, ?half_floor.
    rewrite !tsize_nodes, N1, N2, Hl1, Hl2, Hsum. done.
Qed.

Lemma tbuild_fuel f1 : ∀ f2 n cs, n < f1 → n < f2 → tbuild f1 n cs = tbuild f2 n cs.
Proof.
  induction f1 as [|f1 IH]; intros f2 n cs H1 H2; [lia|].
  destruct f2 as [|f2]; [lia|]. destruct n as [|m]; [done|].
  rewrite !tbuild_unfold. pose proof (half_sum m).
  rewrite (IH f2 (S m / 2)) by lia.
  destruct (tbuild f2 (S m / 2) cs) as [l [|c cs2]]; [done|].
  rewrite (IH f2 (m / 2)) by lia. done.
Qed.

Lemma nodes_balance T : nodes (balance T) = nodes T.
Proof.
  unfold balance. destruct (tbuild_app (S (tsize T)) (tsize T) (nodes T) []) as (_ & N & _);
    [lia|by rewrite tsize_nodes|]. done.
Qed.

Lemma split_balanced_balance T : split_balanced (balance T).
Proof.
  unfold balance. destruct (tbuild_app (S (tsize T)) (tsize T) (nodes T) []) as (_ & _ & B);
    [lia|by rewrite tsize_nodes|]. done.
Qed.

Lemma buildTree_unfold fuel h m listHead :
  buildTree (S fuel) h (S m) listHead =
    '(firstHalf, h1) ← buildTree fuel h (S m / 2) listHead;
    f ← firstHalf;
    fn ← h1 !! f;
    '(secondHalf, h2) ← buildTree fuel h1 (m / 2) (right fn);
    s ← secondHalf;
    sn ← h2 !! s;
    fn2 ← h2 !! f;
    let h3 := <[f := set_right fn2 (left sn)]> h2 in
    sn3 ← h3 !! s;
    Some (secondHalf, <[s := set_left sn3 firstHalf]> h3).
Proof. rewrite <- half_ceil, <- half_floor. reflexivity. Qed.

Lemma buildTree_spec fuel : ∀ n h cs c tl,
  n < fuel → length cs = n → NoDup ((cs ++ [c]).*1) → chain h (cs ++ [c]) tl →
  ∃ h' nd,
    buildTree fuel h n (head_ptr (cs ++ [c]) tl) = Some (Some c.1, h')
    ∧ models h' (tbuild fuel n cs).1
    ∧ h' !! c.1 = Some nd
    ∧ left nd = ptr_of (tbuild fuel n cs).1 ∧ key nd = c.2 ∧ right nd = tl
    ∧ (∀ a, a ∉ (cs ++ [c]).*1 → h' !! a = h !! a).
Proof.
  induction fuel as [|fuel IH]; intros n h cs c tl Hn Hlen Hnd Hch; [lia|].
  destruct n as [|m].
  { destruct cs; [|done]. simpl in *. destruct Hch as ((nd & Hc & Hk & Hr) & _).
    rewrite Hc. simpl. exists (<[c.1:=set_left nd None]> h), (set_left nd None).
    split_and!; try done.
    - apply lookup_insert_eq.
    - intros a Ha. apply lookup_insert_ne. set_solver. }
  pose proof (half_sum m) as Hsum.
  rewrite buildTree_unfold, tbuild_unfold.
  set (n1 := S m / 2) in *. set (n2 := m / 2) in *.
  assert (cs = take n1 cs ++ drop n1 cs) as Hcs by (by rewrite take_drop).
  destruct (drop n1 cs) as [|c1 cs2] eqn:Hdrop.
  { apply (f_equal length) in Hdrop. rewrite length_drop in Hdrop. simpl in Hdrop. lia. }
  set (cs1 := take n1 cs) in *.
  assert (length cs1 = n1) as Hl1 by (unfold cs1; rewrite length_take; lia).
  assert (length cs2 = n2) as Hl2.
  { apply (f_equal length) in Hcs. rewrite length_app in Hcs. simpl in Hcs. lia. }
  clearbody cs1. subst cs. clear Hdrop.
  destruct (tbuild_app fuel n1 cs1 (c1 :: cs2)) as (E1 & N1 & _); [lia|done|].
  destruct (tbuild_app fuel n2 cs2 []) as (E2 & N2 & _); [lia|done|].
  rewrite app_nil_r in E2. rewrite E1, E2.
  set (T1 := (tbuild fuel n1 cs1).1) in *. set (T2 := (tbuild fuel n2 cs2).1) in *.
  cbn [fst snd].
  (* split the chain *)
  assert ((cs1 ++ c1 :: cs2) ++ [c] = (cs1 ++ [c1]) ++ (cs2 ++ [c])) as Hre
    by (by rewrite <- !app_assoc).
  rewrite Hre in Hch, Hnd |- *.
  apply chain_app_inv in Hch as [Hch1 Hch2].
  rewrite fmap_app in Hnd. apply NoDup_app in Hnd as (Hnd1 & Hdis & Hnd2).
  rewrite head_ptr_app.
  destruct (IH n1 h cs1 c1 (head_ptr (cs2 ++ [c]) tl)) as
    (h1 & nd1 & B1 & M1 & L1 & Ll1 & Lk1 & Lr1 & F1); [lia|done|done|done|].
  assert (head_ptr (cs1 ++ [c1]) (head_ptr (cs2 ++ [c]) tl)
          = head_ptr (cs1 ++ [c1]) (head_ptr (cs2 ++ [c]) tl)) as _ by done.
  rewrite B1. bind_step. rewrite L1. bind_step. rewrite Lr1.
  assert (chain h1 (cs2 ++ [c]) tl) as Hch2'.
  { eapply chain_frame; [|exact Hch2]. intros a Ha. apply F1. intros Ha'. by apply (Hdis a). }
  destruct (IH n2 h1 cs2 c tl) as
    (h2 & nd2 & B2 & M2 & L2 & Ll2 & Lk2 & Lr2 & F2); [lia|done|done|done|].
  rewrite B2. bind_step. rewrite L2. bind_step.
  assert (c1.1 ∈ (cs1 ++ [c1]).*1) as Hc1in by (rewrite fmap_app; set_solver).
  assert (c.1 ∈ (cs2 ++ [c]).*1) as Hcin by (rewrite fmap_app; set_solver).
  assert (c1.1 ≠ c.1) as Hne by (intros E; apply (Hdis _ Hc1in); by rewrite E).
  rewrite (F2 c1.1) by (by apply Hdis). rewrite L1. bind_step.
  rewrite lookup_insert_ne by done. rewrite L2. bind_step.
  eexists _, _. split_and!; [done| |apply lookup_insert_eq|done|done|done|].
  - simpl. split_and!.
    + rewrite lookup_insert_ne by done. rewrite lookup_insert_eq.
      unfold set_right. simpl. rewrite Lk1, Ll1, Ll2. done.
    + apply models_insert_ne.
      { rewrite addrs_nodes. fold T1. rewrite N1. intros Hx.
        apply (Hdis c.1); [rewrite fmap_app; set_solver|done]. }
      apply models_insert_ne.
      { rewrite addrs_nodes. fold T1. rewrite N1. intros Hx.
        rewrite fmap_app in Hnd1. apply NoDup_app in Hnd1 as (_ & Hd' & _).
        apply (Hd' _ Hx). set_solver. }
      eapply models_frame; [|exact M1]. intros a Ha. apply F2.
      rewrite addrs_nodes in Ha. fold T1 in Ha. rewrite N1 in Ha.
      apply Hdis. rewrite fmap_app. set_solver.
    + apply models_insert_ne.
      { rewrite addrs_nodes. fold T2. rewrite N2. intros Hx.
        rewrite fmap_app in Hnd2. apply NoDup_app in Hnd2 as (_ & Hd' & _).
        apply (Hd' _ Hx). set_solver. }
      apply models_insert_ne; [|done].
      rewrite addrs_nodes. fold T2. rewrite N2. intros Hx.
      apply (Hdis _ Hc1in). rewrite fmap_app. set_solver.
  - intros a Ha. rewrite fmap_app in Ha.
    rewrite !lookup_insert_ne by set_solver.
    rewrite F2 by set_solver. apply F1. set_solver.
Qed.

(** ** Read-only traversals *)

Lemma search_loop_spec T : ∀ fuel h k,
  levels T < fuel → models h T →
  search_loop fuel h k (ptr_of T) = Some (tmem k T).
Proof.
  induction T as [|a l IHl kb r IHr]; intros fuel h k Hf Hm;
    spend_fuel fuel Hf; [done|].
  simpl in *. destruct Hm as (Ha & Hl & Hr). rewrite Ha. simpl.
  destruct (k =? kb)%Z; [done|].
  destruct (k <? kb)%Z; [apply IHl|apply IHr]; (done || lia).
Qed.

Lemma getSubtreeSize_spec T : ∀ fuel h,
  levels T < fuel → models h T →
  getSubtreeSize fuel h (ptr_of T) = Some (tsize T).
Proof.
  induction T as [|a l IHl kb r IHr]; intros fuel h Hf Hm;
    spend_fuel fuel Hf; [done|].
  simpl in *. destruct Hm as (Ha & Hl & Hr). rewrite Ha. simpl.
  rewrite IHl, IHr by (done || lia). done.
Qed.

Lemma hd_app_cons {A} (d x : A) (l1 l2 : list A) :
  hd d (l1 ++ x :: l2) = hd x l1.
Proof. by destruct l1. Qed.

Lemma insert_find_spec T : ∀ fuel h k st prev,
  levels T < fuel → models h T →
  insert_find fuel h k st prev (ptr_of T) =
    if tmem k T then Some None
    else Some (Some (rev (ptr_of <$> anc k T) ++ st,
                     hd prev (rev (ptr_of <$> anc k T)))).
Proof.
  induction T as [|a l IHl kb r IHr]; intros fuel h k st prev Hf Hm;
    spend_fuel fuel Hf; [done|].
  simpl in *. destruct Hm as (Ha & Hl & Hr). rewrite Ha. simpl.
  destruct (k =? kb)%Z; [done|].
  destruct (k <? kb)%Z.
  - rewrite IHl by (done || lia). destruct (tmem k l); [done|].
    simpl. rewrite <- app_assoc. simpl. rewrite hd_app_cons. done.
  - rewrite IHr by (done || lia). destruct (tmem k r); [done|].
    simpl. rewrite <- app_assoc. simpl. rewrite hd_app_cons. done.
Qed.

Lemma remove_find_spec T : ∀ fuel h k prev,
  levels T < fuel → models h T →
  remove_find fuel h k prev (ptr_of T) =
    match ptr_of (find_sub k T) with
    | None => Some None
    | Some c => Some (Some (hd prev (rev (ptr_of <$> anc k T)), c))
    end.
Proof.
  induction T as [|a l IHl kb r IHr]; intros fuel h k prev Hf Hm;
    spend_fuel fuel Hf; [done|].
  simpl in *. destruct Hm as (Ha & Hl & Hr). rewrite Ha. simpl.
  destruct (k =? kb)%Z eqn:E; [done|].
  destruct (k <? kb)%Z eqn:E'.
  - rewrite IHl by (done || lia). destruct (ptr_of (find_sub k l)); [|done].
    simpl. rewrite hd_app_cons. done.
  - assert ((k >? kb)%Z = true) as -> by lia.
    rewrite IHr by (done || lia). destruct (ptr_of (find_sub k r)); [|done].
    simpl. rewrite hd_app_cons. done.
Qed.

Lemma models_root h T a : models h T → ptr_of T = Some a →
  ∃ l k r, T = Br a l k r ∧ h !! a = Some (mkNode k (ptr_of l) (ptr_of r)).
Proof. destruct T; simpl; [done|]. intros (H & _ & _) [= ->]. eauto. Qed.

Lemma verifyHelper_spec T : ∀ fuel al h,
  levels T < fuel → models h T →
  verifyHelper fuel al h (ptr_of T) = tverify al T.
Proof.
  induction T as [|a l IHl kb r IHr]; intros fuel al h Hf Hm;
    spend_fuel fuel Hf; [done|].
  simpl in *. destruct Hm as (Ha & Hl & Hr). rewrite Ha. simpl.
  rewrite IHl, IHr by (done || lia).
  destruct (tverify al l) as [vl|]; [|done]. simpl.
  destruct (tverify al r) as [vr|]; [|done]. simpl.
  assert (match ptr_of l with
          | Some lc => if isBST vl && isBST vr
                       then h !! lc ≫= λ ln : Node, Some (key ln <? kb)%Z
                       else Some false
          | None => Some (isBST vl && isBST vr)
          end = Some (match l with
                 | Leaf => isBST vl && isBST vr
                 | Br _ _ lk _ => if isBST vl && isBST vr then (lk <? kb)%Z else false
                 end)) as ->.
  { destruct l; simpl; [done|]. destruct Hl as (-> & _). by destruct (_ && _). }
  simpl.
  set (ok1 := match l with Leaf => _ | _ => _ end).
  assert (match ptr_of r with
          | Some rc => if ok1
                       then h !! rc ≫= λ rn : Node, Some (key rn >? kb)%Z
                       else Some false
          | None => Some ok1
          end = Some (match r with
                 | Leaf => ok1
                 | Br _ _ rk _ => if ok1 then (rk >? kb)%Z else false
                 end)) as ->.
  { destruct r; simpl; [done|]. destruct Hr as (-> & _). by destruct ok1. }
  done.
Qed.

(** ** rebuild *)

Lemma addrs_balance T : addrs (balance T) = addrs T.
Proof. by rewrite !addrs_nodes, nodes_balance. Qed.

Lemma keys_balance T : keys (balance T) = keys T.
Proof. by rewrite !keys_nodes, nodes_balance. Qed.

Lemma tsize_balance T : tsize (balance T) = tsize T.
Proof. by rewrite !tsize_nodes, nodes_balance. Qed.

Lemma rebuild_core h S d :
  models h S → NoDup (addrs S) → h !! d = None →
  let h0 := <[d := mkNode (-1) None None]> h in
  ∃ nl h1 p h2 nd,
    flatten (Datatypes.S (base.size h0)) h0 (ptr_of S) (Some d) = Some (nl, h1)
    ∧ buildTree (Datatypes.S (tsize S)) h1 (tsize S) nl = Some (p, h2)
    ∧ h2 !! d = Some nd ∧ left nd = ptr_of (balance S)
    ∧ models h2 (balance S)
    ∧ (∀ a, a ∉ addrs S → a ≠ d → h2 !! a = h !! a).
Proof.
  intros Hm Hnd Hd h0.
  assert (d ∉ addrs S) as HdS.
  { intros Hin. destruct (models_lookup _ _ _ Hm Hin) as [? ?]. congruence. }
  assert (models h0 S) as Hm0 by (by apply models_insert_ne).
  assert (levels S < Datatypes.S (base.size h0)) as Hfuel.
  { unfold h0. rewrite map_size_insert_None by done.
    pose proof (levels_le_tsize S). pose proof (models_size _ _ Hm Hnd). lia. }
  destruct (flatten_spec S _ h0 (Some d) Hfuel Hm0 Hnd) as (h1 & E1 & C1 & F1).
  assert (h1 !! d = Some (mkNode (-1) None None)) as Hd1.
  { rewrite F1 by done. apply lookup_insert_eq. }
  assert (chain h1 (nodes S ++ [(d, (-1)%Z)]) None) as C1'.
  { apply chain_app; [done|]. simpl. split; [|done]. eexists. split; [exact Hd1|done]. }
  destruct (buildTree_spec (Datatypes.S (tsize S)) (tsize S) h1 (nodes S) (d, (-1)%Z) None)
    as (h2 & nd & B & M & L & Ll & Lk & Lr & F2).
  { lia. }
  { by rewrite tsize_nodes. }
  { rewrite fmap_app, <- addrs_nodes. simpl. apply NoDup_app. split_and!; [done| |].
    - intros x Hx Hx'. apply list_elem_of_singleton in Hx'. by subst.
    - apply NoDup_singleton. }
  { done. }
  rewrite head_ptr_app in B. simpl in B.
  exists (head_ptr (nodes S) (Some d)), h1, (Some d), h2, nd.
  split_and!; try done.
  intros a Ha Had. rewrite F2, F1; [|done|].
  - unfold h0. by rewrite lookup_insert_ne.
  - rewrite fmap_app, <- addrs_nodes. simpl. set_solver.
Qed.

Lemma rebuild_root_spec t T :
  models (heap t) T → NoDup (addrs T) →
  ∃ h',
    rebuild (mkScapegoat (ptr_of T) None (tsize T)) t
      = Some (mkTree h' (ptr_of (balance T)) (size t) (size t) (alpha t)
                (replaceWithSucc t))
    ∧ models h' (balance T)
    ∧ (∀ a, a ∉ addrs T → h' !! a = heap t !! a).
Proof.
  intros Hm Hnd.
  set (d := fresh (dom (heap t))).
  assert (heap t !! d = None) as Hd.
  { apply not_elem_of_dom. apply is_fresh. }
  destruct (rebuild_core (heap t) T d Hm Hnd Hd) as
    (nl & h1 & p & h2 & nd & E1 & E2 & L & Ll & M & F).
  exists (delete d h2). unfold rebuild. fold d. cbn [scapegoat treeSize parent].
  rewrite E1. bind_step. rewrite E2. bind_step.
  rewrite L. bind_step. rewrite Ll.
  assert (d ∉ addrs T) as HdT.
  { intros Hin. destruct (models_lookup _ _ _ Hm Hin) as [? ?]. congruence. }
  split_and!.
  - done.
  - apply models_delete_ne; [|done]. by rewrite addrs_balance.
  - intros a Ha. destruct (decide (a = d)) as [->|Hne].
    + by rewrite lookup_delete_eq.
    + rewrite lookup_delete_ne by done. by apply F.
Qed.

Lemma ptr_of_rebuild_at dep k T : ptr_of (rebuild_at (S dep) k T) = ptr_of T.
Proof. destruct T; simpl; [done|]. by destruct (k <? k0)%Z. Qed.

Lemma nodes_rebuild_at dep : ∀ k T, nodes (rebuild_at dep k T) = nodes T.
Proof.
  induction dep as [|dep IH]; intros k T; simpl; [apply nodes_balance|].
  destruct T; simpl; [done|]. destruct (k <? k0)%Z; simpl; by rewrite IH.
Qed.

Lemma addrs_rebuild_at dep k T : addrs (rebuild_at dep k T) = addrs T.
Proof. by rewrite !addrs_nodes, nodes_rebuild_at. Qed.

Lemma ptr_ne_of_NoDup a l k r :
  NoDup (addrs (Br a l k r)) → r ≠ Leaf → ptr_of r ≠ ptr_of l.
Proof.
  intros (_ & _ & _ & _ & Hd)%NoDup_addrs_Br Hr.
  destruct r as [|b ? ? ?]; [done|]. simpl. intros E.
  apply (Hd b); [|set_solver]. apply ptr_of_addrs. by rewrite <- E.
Qed.

Lemma sub_at_Leaf dep k : sub_at dep k Leaf = Leaf.
Proof. by destruct dep. Qed.

Lemma rebuild_parent_spec k dep : ∀ T t,
  models (heap t) T → NoDup (addrs T) → sub_at (S dep) k T ≠ Leaf →
  ∃ h',
    rebuild (mkScapegoat (ptr_of (sub_at (S dep) k T)) (ptr_of (sub_at dep k T))
               (tsize (sub_at (S dep) k T))) t
      = Some (with_heap t h')
    ∧ models h' (rebuild_at (S dep) k T)
    ∧ (∀ a, a ∉ addrs T → h' !! a = heap t !! a).
Proof.
  induction dep as [|dep IH]; intros T t Hm Hnd Hsub.
  - destruct T as [|b l kb r]; [done|].
    set (c := sub_at 1 k (Br b l kb r)) in *.
    assert (c = if (k <? kb)%Z then l else r) as Hc by done.
    clearbody c.
    pose proof Hnd as Hnd'.
    apply NoDup_addrs_Br in Hnd as (Hndl & Hndr & Hbl & Hbr & Hdis).
    destruct Hm as (Hb & Hl & Hr).
    set (d := fresh (dom (heap t))).
    assert (heap t !! d = None) as Hd by (apply not_elem_of_dom, is_fresh).
    assert (models (heap t) c ∧ NoDup (addrs c) ∧ (b ∉ addrs c)
            ∧ (∀ a, a ∈ addrs c → a ∈ addrs (Br b l kb r))) as (Hmc & Hndc & Hbc & Hsubc).
    { rewrite Hc. destruct (k <? kb)%Z; split_and!; try done; set_solver. }
    destruct (rebuild_core (heap t) c d Hmc Hndc Hd) as
      (nl & h1 & p & h2 & nd & E1 & E2 & L & Ll & M & F).
    assert (d ≠ b) as Hdb by (intros ->; congruence).
    assert (d ∉ addrs c) as Hdc.
    { intros Hin. destruct (models_lookup _ _ _ Hmc Hin) as [? ?]. congruence. }
    unfold rebuild. fold d. cbn [scapegoat treeSize parent sub_at ptr_of].
    rewrite E1. bind_step. rewrite E2. bind_step.
    rewrite L. bind_step.
    rewrite (F b) by done. rewrite Hb. cbn [mbind option_bind left].
    assert (∀ x new, x ∉ addrs (Br b l kb r) →
       delete d (<[b:=new]> h2) !! x = heap t !! x) as Hframe.
    { intros x new Hx. destruct (decide (x = d)) as [->|Hxd].
      - by rewrite lookup_delete_eq.
      - rewrite lookup_delete_ne by done. rewrite lookup_insert_ne by set_solver.
        apply F; [|done]. intros Hxc. by apply Hx, Hsubc. }
    destruct (k <? kb)%Z eqn:Hk; subst c.
    + rewrite decide_True by done. eexists. split; [reflexivity|]. split; [|by intros a Ha; apply Hframe].
      simpl. rewrite Hk. simpl. split_and!.
      * rewrite lookup_delete_ne by done. rewrite lookup_insert_eq.
        unfold set_left. simpl. by rewrite Ll.
      * apply models_delete_ne; [by rewrite addrs_balance|].
        apply models_insert_ne; [by rewrite addrs_balance|done].
      * apply models_delete_ne.
        { intros Hin. destruct (models_lookup _ _ _ Hr Hin) as [? ?]. congruence. }
        apply models_insert_ne; [done|].
        eapply models_frame; [|exact Hr]. intros a Ha. apply F.
        -- intros Ha'. by apply (Hdis a).
        -- intros ->. destruct (models_lookup _ _ _ Hr Ha) as [? ?]. congruence.
    + rewrite decide_False by (by apply ptr_ne_of_NoDup with b kb).
      eexists. split; [reflexivity|]. split; [|by intros a Ha; apply Hframe].
      simpl. rewrite Hk. simpl. split_and!.
      * rewrite lookup_delete_ne by done. rewrite lookup_insert_eq.
        unfold set_right. simpl. by rewrite Ll.
      * apply models_delete_ne.
        { intros Hin. destruct (models_lookup _ _ _ Hl Hin) as [? ?]. congruence. }
        apply models_insert_ne; [done|].
        eapply models_frame; [|exact Hl]. intros a Ha. apply F.
        -- by apply Hdis.
        -- intros ->. destruct (models_lookup _ _ _ Hl Ha) as [? ?]. congruence.
      * apply models_delete_ne; [by rewrite addrs_balance|].
        apply models_insert_ne; [by rewrite addrs_balance|done].
  - destruct T as [|b l kb r]; [done|].
    apply NoDup_addrs_Br in Hnd as (Hndl & Hndr & Hbl & Hbr & Hdis).
    destruct Hm as (Hb & Hl & Hr).
    change (sub_at (S (S dep)) k (Br b l kb r))
      with (if (k <? kb)%Z then sub_at (S dep) k l else sub_at (S dep) k r) in *.
    change (sub_at (S dep) k (Br b l kb r))
      with (if (k <? kb)%Z then sub_at dep k l else sub_at dep k r).
    change (rebuild_at (S (S dep)) k (Br b l kb r))
      with (if (k <? kb)%Z then Br b (rebuild_at (S dep) k l) kb r
            else Br b l kb (rebuild_at (S dep) k r)).
    destruct (k <? kb)%Z eqn:Hk.
    + destruct (IH l t Hl Hndl Hsub) as (h' & E & M & F).
      exists h'. split; [done|]. split.
      * cbn [models]. rewrite ptr_of_rebuild_at. split_and!; [|done|].
        -- by rewrite F.
        -- eapply models_frame; [|exact Hr]. intros a Ha. apply F.
           intros Ha'. by apply (Hdis a).
      * intros a Ha. apply F. set_solver.
    + destruct (IH r t Hr Hndr Hsub) as (h' & E & M & F).
      exists h'. split; [done|]. split.
      * cbn [models]. rewrite ptr_of_rebuild_at. split_and!; [| |done].
        -- by rewrite F.
        -- eapply models_frame; [|exact Hl]. intros a Ha. apply F. by apply Hdis.
      * intros a Ha. apply F. set_solver.
Qed.

(** ** findScapegoat *)

Lemma up_chain_head h s rest : up_chain h s rest → s ≠ Leaf ∧ models h s.
Proof. destruct rest; simpl; tauto. Qed.

Lemma up_chain_snoc h T : ∀ rest s c,
  up_chain h s rest → last (s :: rest) = Some c →
  NoDup (addrs T) → models h T →
  (∃ b l kb r, T = Br b l kb r ∧ (c = l ∨ c = r)) →
  up_chain h s (rest ++ [T]).
Proof.
  induction rest as [|p rest IH]; intros s c Hup Hlast Hnd Hm Hc.
  - simpl in Hlast. injection Hlast as ->. destruct Hup as (Hs & Hms & _).
    simpl. split_and!; try done. destruct Hc as (b & l & kb & r & -> & _). done.
  - destruct Hup as (Hs & Hms & Hndp & Hp & Hup). simpl.
    split_and!; try done. apply (IH p c); try done.
Qed.

Lemma anc_head k T x xs : anc k T = x :: xs → x = T.
Proof. destruct T; simpl; [done|]. destruct (k =? k0)%Z; [done|]. by intros [= <- _]. Qed.

Lemma up_chain_anc h k T : ∀ s rest,
  models h T → NoDup (addrs T) → rev (anc k T) = s :: rest → up_chain h s rest.
Proof.
  induction T as [|b l IHl kb r IHr]; intros s rest Hm Hnd Hrev; [done|].
  simpl in Hrev. destruct (k =? kb)%Z; [done|].
  pose proof Hnd as Hnd'.
  apply NoDup_addrs_Br in Hnd as (Hndl & Hndr & Hbl & Hbr & Hdis).
  pose proof Hm as (Hb & Hl & Hr).
  simpl in Hrev.
  assert (∀ c, (c = l ∨ c = r) → models h c → NoDup (addrs c) →
            (∀ s rest, models h c → NoDup (addrs c) → rev (anc k c) = s :: rest →
                       up_chain h s rest) →
            rev (anc k c) ++ [Br b l kb r] = s :: rest → up_chain h s rest) as Hgen.
  { intros c Hc Hmc Hndc IH Hrev'.
    destruct (rev (anc k c)) as [|s0 rest0] eqn:Hrc.
    - simpl in Hrev'. injection Hrev' as <- <-. simpl. done.
    - simpl in Hrev'. injection Hrev' as -> <-.
      apply (up_chain_snoc h _ rest0 s c); try done.
      + by apply IH.
      + destruct (anc k c) as [|x xs] eqn:Hanc; [done|].
        apply anc_head in Hanc as Hx. subst x.
        rewrite <- Hrc. simpl. rewrite last_snoc. done.
      + by exists b, l, kb, r. }
  destruct (k <? kb)%Z.
  - apply (Hgen l); auto.
  - apply (Hgen r); auto.
Qed.

Lemma getAlphaDeepHeight_is_Some a n : n ≠ 0 → is_Some (getAlphaDeepHeight a n).
Proof. destruct n; [done|]. by eexists. Qed.

Lemma tsize_pos T : T ≠ Leaf → tsize T ≠ 0.
Proof. destruct T; simpl; [done|lia]. Qed.

Lemma findScapegoat_loop_spec fuel a h : ∀ rest s idx,
  up_chain h s rest → Forall (λ x, levels x < fuel) (s :: rest) →
  findScapegoat_loop fuel a h (tl ((ptr_of <$> rest) ++ [None])) (ptr_of s)
    (hd None ((ptr_of <$> rest) ++ [None])) (tsize s) idx
  = Some (sg_result a s rest idx).
Proof.
  induction rest as [|p rest IH]; intros s idx Hup Hlev.
  - simpl. done.
  - destruct Hup as (Hs & Hms & Hndp & (b & l & kb & r & -> & Hc) & Hup).
    unfold sg_result. cbn [sg_steps fmap list_fmap app hd tl ptr_of].
    change (list_fmap tree (option nat) ptr_of rest) with (ptr_of <$> rest).
    specialize (IH (Br b l kb r)).
    destruct ((ptr_of <$> rest) ++ [None]) as [|top stack] eqn:Hfull.
    { by destruct rest. }
    cbn [findScapegoat_loop].
    destruct (getAlphaDeepHeight_is_Some a (tsize s)) as [deep Hdeep];
      [by apply tsize_pos|].
    rewrite Hdeep. bind_step.
    destruct (deep <? idx) eqn:Hlt; [done|].
    pose proof (up_chain_head _ _ _ Hup) as (_ & (Hb & Hl & Hr)).
    rewrite Hb. cbn [mbind option_bind left right].
    apply Forall_cons in Hlev as (Hls & Hlev).
    pose proof Hlev as (Hlp & _)%Forall_cons. simpl in Hlp.
    assert ((if decide (ptr_of l = ptr_of s)
             then getSubtreeSize fuel h (ptr_of r)
             else getSubtreeSize fuel h (ptr_of l))
            = Some (tsize (Br b l kb r) - 1 - tsize s)) as ->.
    { destruct (decide (ptr_of l = ptr_of s)) as [E|NE].
      - assert (s = l) as ->.
        { destruct Hc as [->| ->]; [done|]. exfalso.
          by apply (ptr_ne_of_NoDup b l kb r). }
        rewrite getSubtreeSize_spec by (done || lia). f_equal. simpl. lia.
      - assert (s = r) as -> by (destruct Hc as [->| ->]; done).
        rewrite getSubtreeSize_spec by (done || lia). f_equal. simpl. lia. }
    bind_step.
    assert (tsize s + (1 + (tsize (Br b l kb r) - 1 - tsize s)) = tsize (Br b l kb r)) as ->.
    { destruct Hc as [->| ->]; simpl; lia. }
    specialize (IH (S idx) Hup Hlev).
    cbn [hd tl ptr_of] in IH. rewrite IH. done.
Qed.

Lemma findScapegoat_spec fuel a h s rest :
  up_chain h s rest → Forall (λ x, levels x < fuel) (s :: rest) →
  findScapegoat fuel a h ((ptr_of <$> (s :: rest)) ++ [None])
  = Some (sg_result a s rest 1).
Proof.
  intros Hup Hlev. pose proof (findScapegoat_loop_spec fuel a h rest s 1 Hup Hlev) as H.
  unfold findScapegoat. rewrite fmap_cons. cbn [app].
  destruct ((ptr_of <$> rest) ++ [None]) as [|par stack] eqn:Hfull.
  { by destruct rest. }
  apply up_chain_head in Hup as (Hs & Hms). apply Forall_cons in Hlev as (Hls & _).
  rewrite getSubtreeSize_spec by done. simpl in *. done.
Qed.

(** ** insert *)

Lemma ptr_of_tinsert a k T : T ≠ Leaf → ptr_of (tinsert a k T) = ptr_of T.
Proof.
  destruct T; simpl; [done|]. intros _.
  destruct (k =? k0)%Z; [done|]. by destruct (k <? k0)%Z.
Qed.

Lemma anc_tinsert a k T :
  tmem k T = false → ptr_of <$> anc k (tinsert a k T) = ptr_of <$> anc k T.
Proof.
  induction T as [|b l IHl kb r IHr]; simpl.
  - intros _. by rewrite Z.eqb_refl.
  - destruct (k =? kb)%Z eqn:E; [done|].
    destruct (k <? kb)%Z eqn:E'; intros H; simpl; rewrite E, E'; simpl.
    + f_equal. by apply IHl.
    + f_equal. by apply IHr.
Qed.

Lemma insert_wire T : ∀ h a k dflt,
  models h T → NoDup (addrs T) → tmem k T = false → a ∉ addrs T → T ≠ Leaf →
  let h1 := <[a := mkNode k None None]> h in
  ∃ p pn,
    hd dflt (rev (ptr_of <$> anc k T)) = Some p ∧ h1 !! p = Some pn ∧
    let h2 := if (k <? key pn)%Z then <[p := set_left pn (Some a)]> h1
              else <[p := set_right pn (Some a)]> h1 in
    models h2 (tinsert a k T) ∧ (∀ x, x ∉ addrs T → x ≠ a → h2 !! x = h !! x).
Proof.
  induction T as [|b l IHl kb r IHr]; intros h a k dflt Hm Hnd Hk Ha HneT h1; [done|].
  apply NoDup_addrs_Br in Hnd as (Hndl & Hndr & Hbl & Hbr & Hdis).
  destruct Hm as (Hb & Hl & Hr).
  simpl in Hk |- *. destruct (k =? kb)%Z eqn:E; [done|].
  assert (a ≠ b) as Hab by set_solver.
  assert (h1 !! b = Some (mkNode kb (ptr_of l) (ptr_of r))) as Hb1.
  { unfold h1. by rewrite lookup_insert_ne. }
  assert (models h1 l ∧ models h1 r) as (Hl1 & Hr1).
  { split; apply models_insert_ne; (done || set_solver). }
  destruct (k <? kb)%Z eqn:E'.
  - destruct (decide (l = Leaf)) as [->|Hne].
    + exists b, (mkNode kb None (ptr_of r)). simpl. split; [done|split; [done|]].
      rewrite E'. split.
      * simpl. rewrite lookup_insert_eq. split; [done|]. split.
        -- rewrite lookup_insert_ne by done. unfold h1. by rewrite lookup_insert_eq.
        -- by apply models_insert_ne.
      * intros x Hx Hxa. rewrite lookup_insert_ne by set_solver.
        unfold h1. by rewrite lookup_insert_ne.
    + destruct (IHl h a k (Some b) Hl Hndl Hk ltac:(set_solver) Hne)
        as (p & pn & Hp & Hpn & M & F).
      exists p, pn. simpl.
      split; [|split; [done|]].
      { rewrite hd_app_cons. exact Hp. }
      fold h1 in M, F. split.
      * cbn [models]. rewrite ptr_of_tinsert by done. split; [|split; [done|]].
        -- by rewrite F.
        -- eapply models_frame; [|exact Hr]. intros x Hx. apply F; [|set_solver].
           intros Hx'. by apply (Hdis x).
      * intros x Hx Hxa. apply F; set_solver.
  - destruct (decide (r = Leaf)) as [->|Hne].
    + exists b, (mkNode kb (ptr_of l) None). simpl. split; [done|split; [done|]].
      rewrite E'. split.
      * simpl. rewrite lookup_insert_eq. split; [done|]. split.
        -- by apply models_insert_ne.
        -- rewrite lookup_insert_ne by done. unfold h1. by rewrite lookup_insert_eq.
      * intros x Hx Hxa. rewrite lookup_insert_ne by set_solver.
        unfold h1. by rewrite lookup_insert_ne.
    + destruct (IHr h a k (Some b) Hr Hndr Hk ltac:(set_solver) Hne)
        as (p & pn & Hp & Hpn & M & F).
      exists p, pn. simpl.
      split; [|split; [done|]].
      { rewrite hd_app_cons. exact Hp. }
      fold h1 in M, F. split.
      * cbn [models]. rewrite ptr_of_tinsert by done. split; [|split; [|done]].
        -- by rewrite F.
        -- eapply models_frame; [|exact Hl]. intros x Hx. apply F; [|set_solver].
           by apply Hdis.
      * intros x Hx Hxa. apply F; set_solver.
Qed.

Lemma anc_lookup k T : ∀ i, i < length (anc k T) → anc k T !! i = Some (sub_at i k T).
Proof.
  induction T as [|b l IHl kb r IHr]; intros i Hi; simpl in *; [lia|].
  destruct (k =? kb)%Z; [simpl in Hi; lia|].
  destruct i as [|i]; [done|]. simpl in *.
  destruct (k <? kb)%Z; [apply IHl|apply IHr]; lia.
Qed.

Lemma anc_not_Leaf k T x : x ∈ anc k T → x ≠ Leaf.
Proof.
  induction T as [|b l IHl kb r IHr]; simpl; [set_solver|].
  destruct (k =? kb)%Z; [set_solver|].
  intros [->|Hx]%elem_of_cons; [done|].
  destruct (k <? kb)%Z; auto.
Qed.

Lemma anc_levels k T x : x ∈ anc k T → levels x ≤ levels T.
Proof.
  induction T as [|b l IHl kb r IHr]; simpl; [set_solver|].
  destruct (k =? kb)%Z; [set_solver|].
  intros [->|Hx]%elem_of_cons; [simpl; lia|].
  destruct (k <? kb)%Z; [apply IHl in Hx|apply IHr in Hx]; lia.
Qed.

Lemma sg_steps_le a : ∀ rest s idx, sg_steps a s rest idx ≤ length rest.
Proof.
  induction rest as [|p rest IH]; intros s idx; simpl; [lia|].
  destruct (getAlphaDeepHeight a (tsize s)); [|lia].
  destruct (_ <? _); [lia|]. specialize (IH p (S idx)). lia.
Qed.

Lemma rev_anc_nth k T s rest i :
  rev (anc k T) = s :: rest → i ≤ length rest →
  nth i (s :: rest) Leaf = sub_at (length rest - i) k T.
Proof.
  intros Hrev Hi.
  assert (length (anc k T) = S (length rest)) as Hlen.
  { rewrite <- length_rev, Hrev. done. }
  rewrite <- Hrev. rewrite rev_nth by lia. rewrite Hlen.
  replace (S (length rest) - S i) with (length rest - i) by lia.
  pose proof (anc_lookup k T (length rest - i) ltac:(lia)) as H.
  by apply nth_lookup_Some with (d := Leaf) in H.
Qed.

Lemma nodes_tinsert a k T :
  tmem k T = false → nodes (tinsert a k T) ≡ₚ (a, k) :: nodes T.
Proof.
  induction T as [|b l IHl kb r IHr]; simpl; [done|].
  destruct (k =? kb)%Z; [done|].
  destruct (k <? kb)%Z; intros H; simpl.
  - rewrite IHl by done. done.
  - rewrite IHr by done. by rewrite <- !Permutation_middle, Permutation_swap.
Qed.

Lemma addrs_tinsert a k T :
  tmem k T = false → addrs (tinsert a k T) ≡ₚ a :: addrs T.
Proof. intros H. rewrite !addrs_nodes, nodes_tinsert by done. done. Qed.

Lemma tsize_tinsert a k T : tmem k T = false → tsize (tinsert a k T) = S (tsize T).
Proof. intros H. rewrite !tsize_nodes, nodes_tinsert by done. done. Qed.

Lemma fmap_rev {A B} (f : A → B) (l : list A) : f <$> rev l = rev (f <$> l).
Proof. induction l as [|x l IH]; simpl; [done|]. by rewrite fmap_app, IH. Qed.

Lemma elem_of_rev {A} (x : A) (l : list A) : x ∈ rev l ↔ x ∈ l.
Proof. rewrite !list_elem_of_In. symmetry. apply in_rev. Qed.

Lemma Rep_fuel t T : Rep t T → levels T < S (base.size (heap t)).
Proof.
  intros [Hm _ Hnd _ _]. pose proof (levels_le_tsize T).
  pose proof (models_size _ _ Hm Hnd). lia.
Qed.

Lemma Rep_fresh t T : Rep t T → fresh (dom (heap t)) ∉ addrs T.
Proof. intros [Hm _ _ _ _]. by apply models_fresh. Qed.

Lemma insert_spec_present t T k :
  Rep t T → tmem k T = true → insert k t = Some (false, t).
Proof.
  intros HR Hk. unfold insert. rewrite (rep_root _ _ HR).
  rewrite (insert_find_spec T) by (first [by apply Rep_fuel|by destruct HR]).
  by rewrite Hk.
Qed.

Lemma Rep_frame t T h' T' :
  Rep t T →
  models h' T' → addrs T' ≡ₚ addrs T →
  (∀ x, x ∉ addrs T → h' !! x = heap t !! x) →
  ∀ x, is_Some (h' !! x) → x ∈ addrs T'.
Proof.
  intros HR Hm Hp Hf x Hx. rewrite Hp.
  destruct (decide (x ∈ addrs T)) as [|Hn]; [done|].
  rewrite Hf in Hx by done. by apply (rep_exact _ _ HR).
Qed.

(** The state of [insert] once the new leaf is linked and counted, and what
    remains to be done. *)
Lemma insert_link_spec t T k :
  Rep t T → tmem k T = false →
  let a := fresh (dom (heap t)) in
  let T1 := tinsert a k T in
  let stack := rev (ptr_of <$> anc k T) ++ [None] in
  ∃ h2,
    let t3 := mkTree h2 (ptr_of T1) (S (size t))
                (if maxSize t <? S (size t) then S (size t) else maxSize t)
                (alpha t) (replaceWithSucc t) in
    Rep t3 T1
    ∧ insert_find (S (base.size (heap t))) (heap t) k [None] None (root t)
      = Some (Some (stack, hd None (rev (ptr_of <$> anc k T))))
    ∧ insert k t =
        (deepHeight ← getAlphaDeepHeight (alpha t) (S (size t));
         let insertionHeight := length stack - 1 in
         if (1 <=? insertionHeight) && (deepHeight <? insertionHeight)
         then sg ← findScapegoat (S (base.size h2)) (alpha t) h2 stack;
              t4 ← rebuild sg t3; Some (true, t4)
         else Some (true, t3)).
Proof.
  intros HR Hk a T1 stack.
  pose proof (Rep_fresh _ _ HR) as Ha. fold a in Ha.
  pose proof HR as [Hm Hroot Hnd Hex Hsz].
  assert (insert_find (S (base.size (heap t))) (heap t) k [None] None (root t)
          = Some (Some (stack, hd None (rev (ptr_of <$> anc k T))))) as Hfind.
  { rewrite Hroot. rewrite (insert_find_spec T) by (first [by apply Rep_fuel|done]).
    by rewrite Hk. }
  unfold insert. rewrite Hfind. bind_step. fold a.
  set (h1 := <[a:=mkNode k None None]> (heap t)).
  assert (NoDup (addrs T1)) as Hnd1.
  { unfold T1. rewrite addrs_tinsert by done. by apply NoDup_cons. }
  assert (tsize T1 = S (tsize T)) as Hsz1 by (by apply tsize_tinsert).
  (* the wiring *)
  assert (∃ h2,
    match hd None (rev (ptr_of <$> anc k T)) with
    | Some p =>
        h1 !! p ≫= λ pn : Node,
          if (k <? key pn)%Z
          then Some (with_heap t (<[p:=set_left pn (Some a)]> h1))
          else Some (with_heap t (<[p:=set_right pn (Some a)]> h1))
    | None => Some (with_root (with_heap t h1) (Some a))
    end = Some (mkTree h2 (ptr_of T1) (size t) (maxSize t) (alpha t) (replaceWithSucc t))
    ∧ models h2 T1
    ∧ (∀ x, x ∉ addrs T → x ≠ a → h2 !! x = heap t !! x)) as (h2 & -> & Hm2 & F2).
  { destruct (decide (T = Leaf)) as [->|HneT].
    - exists h1. simpl. split; [done|]. split.
      + unfold h1. rewrite lookup_insert_eq. done.
      + intros x _ Hx. unfold h1. by rewrite lookup_insert_ne.
    - destruct (insert_wire T (heap t) a k None Hm Hnd Hk Ha HneT) as
        (p & pn & -> & Hpn & M & F). fold h1 in Hpn, M, F.
      rewrite Hpn. bind_step.
      unfold T1. rewrite ptr_of_tinsert, <- Hroot by done.
      destruct (k <? key pn)%Z; eexists; (split; [reflexivity|]); done. }
  cbn [mbind option_bind with_size with_maxSize size maxSize heap root alpha replaceWithSucc].
  set (t3 := if maxSize t <? S (size t) then with_maxSize _ _ else _).
  assert (t3 = mkTree h2 (ptr_of T1) (S (size t))
                 (if maxSize t <? S (size t) then S (size t) else maxSize t)
                 (alpha t) (replaceWithSucc t)) as ->.
  { unfold t3. by destruct (_ <? _). }
  cbn [size alpha heap].
  exists h2. split; [|split; [done|done]].
  split; cbn [heap root size]; try done.
  - intros x Hx. destruct (decide (x ∈ addrs T1)) as [|Hn]; [done|].
    assert ((x ∉ addrs T) ∧ x ≠ a) as [Hx1 Hx2].
    { unfold T1 in Hn. rewrite addrs_tinsert in Hn by done. set_solver. }
    rewrite F2 in Hx by done. by apply Hex in Hx.
  - lia.
Qed.

(** [findScapegoat] on the stack of the ancestors of the new leaf. *)
Lemma findScapegoat_anc t T k al s rest :
  Rep t T → rev (anc k T) = s :: rest →
  findScapegoat (S (base.size (heap t))) al (heap t) ((ptr_of <$> (s :: rest)) ++ [None])
  = Some (sg_result al s rest 1).
Proof.
  intros HR Hrev. pose proof HR as [Hm Hroot Hnd Hex Hsz].
  pose proof (Rep_fuel _ _ HR) as Hfuel.
  apply findScapegoat_spec.
  - by apply (up_chain_anc _ k T).
  - rewrite <- Hrev. apply Forall_forall. intros x Hx.
    apply (proj1 (elem_of_rev _ _)) in Hx. apply anc_levels in Hx. lia.
Qed.

(** [rebuild] of the scapegoat that [findScapegoat] selects. *)
Lemma rebuild_anc t T k s rest :
  Rep t T → rev (anc k T) = s :: rest →
  let dep := length rest - sg_steps (alpha t) s rest 1 in
  ∃ h',
    rebuild (sg_result (alpha t) s rest 1) t
      = Some (mkTree h' (ptr_of (rebuild_at dep k T)) (size t)
                (match dep with O => size t | S _ => maxSize t end) (alpha t)
                (replaceWithSucc t))
    ∧ Rep (mkTree h' (ptr_of (rebuild_at dep k T)) (size t)
                (match dep with O => size t | S _ => maxSize t end) (alpha t)
                (replaceWithSucc t))
          (rebuild_at dep k T).
Proof.
  intros HR Hrev dep. pose proof HR as [Hm Hroot Hnd Hex Hsz].
  unfold sg_result.
  pose proof (sg_steps_le (alpha t) rest s 1) as Hj.
  set (j := sg_steps (alpha t) s rest 1) in *.
  rewrite (rev_anc_nth k T s rest j Hrev Hj). fold dep.
  destruct dep as [|dep'] eqn:Hdep.
  - (* the root is the scapegoat *)
    assert (nth (S j) (s :: rest) Leaf = Leaf) as ->.
    { apply nth_overflow. simpl. lia. }
    cbn [sub_at ptr_of].
    destruct (rebuild_root_spec t T Hm Hnd) as (h' & E & M & F).
    rewrite E. exists h'. split; [done|].
    split; cbn [heap root size rebuild_at]; try done.
    + by rewrite addrs_balance.
    + intros x Hx. rewrite addrs_balance.
      destruct (decide (x ∈ addrs T)) as [|Hn]; [done|].
      rewrite F in Hx by done. by apply Hex.
    + by rewrite tsize_balance.
  - (* a proper subtree is rebuilt *)
    assert (nth (S j) (s :: rest) Leaf = sub_at dep' k T) as ->.
    { rewrite (rev_anc_nth k T s rest (S j) Hrev) by lia. f_equal. lia. }
    destruct (rebuild_parent_spec k dep' T t Hm Hnd) as (h' & E & M & F).
    { rewrite <- Hdep. unfold dep. rewrite <- (rev_anc_nth k T s rest j Hrev Hj).
      apply (anc_not_Leaf k T). rewrite <- elem_of_rev, Hrev.
      apply list_elem_of_In. apply nth_In. simpl. lia. }
    rewrite E. exists h'.
    rewrite ptr_of_rebuild_at. split; [by rewrite <- Hroot; destruct t|].
    split; cbn [heap root size]; try done.
    + by rewrite ptr_of_rebuild_at.
    + by rewrite addrs_rebuild_at.
    + intros x Hx. rewrite addrs_rebuild_at.
      destruct (decide (x ∈ addrs T)) as [|Hn]; [done|].
      rewrite F in Hx by done. by apply Hex.
    + by rewrite (tsize_nodes (rebuild_at _ _ _)), nodes_rebuild_at, <- tsize_nodes.
Qed.

Lemma insert_spec_absent t T k :
  Rep t T → tmem k T = false →
  let a := fresh (dom (heap t)) in
  ∃ h',
    insert k t =
      Some (true, mkTree h' (ptr_of (insert_tree (alpha t) a k T)) (S (size t))
                    (insert_maxSize (alpha t) a k T (maxSize t)) (alpha t)
                    (replaceWithSucc t))
    ∧ Rep (mkTree h' (ptr_of (insert_tree (alpha t) a k T)) (S (size t))
                    (insert_maxSize (alpha t) a k T (maxSize t)) (alpha t)
                    (replaceWithSucc t))
          (insert_tree (alpha t) a k T).
Proof.
  intros HR Hk a.
  destruct (insert_link_spec t T k HR Hk) as (h2 & HR3 & _ & ->). fold a in HR3 |- *.
  pose proof (rep_size _ _ HR) as Hsz.
  set (T1 := tinsert a k T) in *.
  set (d := length (anc k T)).
  assert (length (rev (ptr_of <$> anc k T) ++ [None]) - 1 = d) as ->.
  { rewrite length_app, length_rev, length_fmap. simpl. lia. }
  unfold insert_tree, insert_maxSize, insert_rebuild_depth. fold T1 d.
  rewrite <- Hsz.
  destruct (getAlphaDeepHeight (alpha t) (S (size t))) as [deep|] eqn:Hdeep; [|done].
  bind_step.
  destruct ((1 <=? d) && (deep <? d)) eqn:Htrig; cycle 1.
  { exists h2. split; [done|]. done. }
  apply andb_prop in Htrig as [Hd1%Nat.leb_le Hdd%Nat.ltb_lt].
  assert (length (anc k T1) = d) as Hlen1.
  { unfold d, T1. rewrite <- (length_fmap ptr_of), anc_tinsert, length_fmap by done. done. }
  destruct (rev (anc k T1)) as [|s rest] eqn:Hrev.
  { apply (f_equal length) in Hrev. rewrite length_rev in Hrev. simpl in Hrev. lia. }
  assert (length rest = d - 1) as Hlrest.
  { apply (f_equal length) in Hrev. rewrite length_rev in Hrev. simpl in Hrev. lia. }
  assert (rev (ptr_of <$> anc k T) ++ [None] = (ptr_of <$> (s :: rest)) ++ [None]) as ->.
  { rewrite <- Hrev. f_equal. rewrite <- (anc_tinsert a) by done.
    fold T1. by rewrite fmap_rev. }
  set (t3 := mkTree h2 _ _ _ _ _) in *.
  pose proof (findScapegoat_anc t3 T1 k (alpha t) s rest HR3 Hrev) as Hfs.
  unfold t3 in Hfs. cbn [heap] in Hfs. rewrite Hfs. clear Hfs.
  bind_step.
  destruct (rebuild_anc t3 T1 k s rest HR3 Hrev) as (h' & E & HR').
  cbn [alpha size maxSize replaceWithSucc t3] in E, HR'. rewrite E.
  bind_step. rewrite Hlrest in E, HR' |- *.
  exists h'. destruct (d - 1 - sg_steps (alpha t) s rest 1); done.
Qed.

(** ** remove *)

Lemma nodes_delete_min : ∀ l a k r,
  nodes (Br a l k r) = (delete_min a l k r).1 :: nodes (delete_min a l k r).2.
Proof.
  induction l as [|la ll IHl lk lr _]; intros a k r; simpl; [done|].
  specialize (IHl la lk lr). destruct (delete_min la ll lk lr) as [m l'].
  simpl in *. by rewrite IHl.
Qed.

Lemma nodes_delete_max : ∀ r a l k,
  nodes (Br a l k r) = nodes (delete_max a l k r).2 ++ [(delete_max a l k r).1].
Proof.
  induction r as [|ra rl _ rk rr IHr]; intros a l k; simpl; [done|].
  specialize (IHr ra rl rk). destruct (delete_max ra rl rk rr) as [m r'].
  simpl in *. rewrite IHr. by rewrite <- app_assoc.
Qed.

Lemma ptr_of_delete_min a l k r : l ≠ Leaf → ptr_of (delete_min a l k r).2 = Some a.
Proof. destruct l; [done|]. intros _. simpl. by destruct (delete_min _ _ _ _). Qed.

Lemma ptr_of_delete_max a l k r : r ≠ Leaf → ptr_of (delete_max a l k r).2 = Some a.
Proof. destruct r; [done|]. intros _. simpl. by destruct (delete_max _ _ _ _). Qed.

Lemma descend_left_spec : ∀ yl y yk yr fuel h p,
  models h (Br y yl yk yr) → levels (Br y yl yk yr) ≤ fuel →
  descend_left fuel h p y = Some (minp p (Br y yl yk yr)).
Proof.
  induction yl as [|z zl IHl zk zr _]; intros y yk yr fuel h p Hm Hf;
    spend_fuel fuel Hf;
    destruct Hm as (Hy & Hl & Hr); simpl; rewrite Hy; simpl; [done|].
  rewrite (IHl z zk zr) by (done || simpl in *; lia). done.
Qed.

Lemma descend_right_spec : ∀ yr y yl yk fuel h p,
  models h (Br y yl yk yr) → levels (Br y yl yk yr) ≤ fuel →
  descend_right fuel h p y = Some (maxp p (Br y yl yk yr)).
Proof.
  induction yr as [|z zl _ zk zr IHr]; intros y yl yk fuel h p Hm Hf;
    spend_fuel fuel Hf;
    destruct Hm as (Hy & Hl & Hr); simpl; rewrite Hy; simpl; [done|].
  rewrite (IHr z zl zk) by (done || simpl in *; lia). done.
Qed.

(** Unlinking the leftmost node below [y]. *)
Lemma splice_min : ∀ yl y yk yr h,
  models h (Br y yl yk yr) → NoDup (addrs (Br y yl yk yr)) → yl ≠ Leaf →
  ∃ pm m cn pn,
    minp y yl = (pm, m) ∧ h !! m = Some cn ∧ h !! pm = Some pn
    ∧ (delete_min y yl yk yr).1 = (m, key cn)
    ∧ m ∈ addrs yl ∧ pm ≠ m ∧ (pm = y ∨ pm ∈ addrs yl)
    ∧ models (<[pm := set_left pn (right cn)]> h) (delete_min y yl yk yr).2.
Proof.
  induction yl as [|z zl IHl zk zr _]; intros y yk yr h Hm Hnd Hne; [done|].
  pose proof Hnd as (Hndl & Hndr & Hyl & Hyr & Hdis)%NoDup_addrs_Br.
  destruct Hm as (Hy & Hl & Hr).
  pose proof Hndl as (Hndzl & Hndzr & Hzl & Hzr & Hdisz)%NoDup_addrs_Br.
  pose proof Hl as (Hz & Hzlm & Hzrm).
  destruct (decide (zl = Leaf)) as [->|Hzne].
  - exists y, z, (mkNode zk None (ptr_of zr)), (mkNode yk (Some z) (ptr_of yr)).
    simpl. split_and!; try done.
    + set_solver.
    + set_solver.
    + by left.
    + by rewrite lookup_insert_eq.
    + apply models_insert_ne; [set_solver|done].
    + apply models_insert_ne; [done|done].
  - destruct (IHl z zk zr h Hl Hndl Hzne) as
      (pm & m & cn & pn & Hmin & Hcm & Hpm & Hdm & Hmin_in & Hpmm & Hpm_in & M).
    exists pm, m, cn, pn.
    assert (pm ∈ addrs (Br z zl zk zr)) as Hpmz.
    { destruct Hpm_in as [->|?]; simpl; set_solver. }
    assert (minp y (Br z zl zk zr) = minp z zl) as -> by (by destruct zl).
    change (delete_min y (Br z zl zk zr) yk yr) with
      (let '(m, l') := delete_min z zl zk zr in (m, Br y l' yk yr)).
    destruct (delete_min z zl zk zr) as [m' l'] eqn:Hdel. simpl in Hdm, M |- *.
    split_and!; try done.
    + set_solver.
    + by right.
    + rewrite lookup_insert_ne by (intros ->; done). rewrite Hy. f_equal. f_equal.
      pose proof (ptr_of_delete_min z zl zk zr Hzne) as Hp. by rewrite Hdel in Hp.
    + apply models_insert_ne; [|done]. intros Hx. by apply (Hdis pm).
Qed.

(** Unlinking the rightmost node below [y]. *)
Lemma splice_max : ∀ yr y yl yk h,
  models h (Br y yl yk yr) → NoDup (addrs (Br y yl yk yr)) → yr ≠ Leaf →
  ∃ pm m cn pn,
    maxp y yr = (pm, m) ∧ h !! m = Some cn ∧ h !! pm = Some pn
    ∧ (delete_max y yl yk yr).1 = (m, key cn)
    ∧ m ∈ addrs yr ∧ pm ≠ m ∧ (pm = y ∨ pm ∈ addrs yr)
    ∧ models (<[pm := set_right pn (left cn)]> h) (delete_max y yl yk yr).2.
Proof.
  induction yr as [|z zl _ zk zr IHr]; intros y yl yk h Hm Hnd Hne; [done|].
  pose proof Hnd as (Hndl & Hndr & Hyl & Hyr & Hdis)%NoDup_addrs_Br.
  destruct Hm as (Hy & Hl & Hr).
  pose proof Hndr as (Hndzl & Hndzr & Hzl & Hzr & Hdisz)%NoDup_addrs_Br.
  pose proof Hr as (Hz & Hzlm & Hzrm).
  destruct (decide (zr = Leaf)) as [->|Hzne].
  - exists y, z, (mkNode zk (ptr_of zl) None), (mkNode yk (ptr_of yl) (Some z)).
    simpl. split_and!; try done.
    + set_solver.
    + set_solver.
    + by left.
    + by rewrite lookup_insert_eq.
    + apply models_insert_ne; [done|done].
    + apply models_insert_ne; [set_solver|done].
  - destruct (IHr z zl zk h Hr Hndr Hzne) as
      (pm & m & cn & pn & Hmin & Hcm & Hpm & Hdm & Hmin_in & Hpmm & Hpm_in & M).
    exists pm, m, cn, pn.
    assert (pm ∈ addrs (Br z zl zk zr)) as Hpmz.
    { destruct Hpm_in as [->|?]; simpl; set_solver. }
    assert (maxp y (Br z zl zk zr) = maxp z zr) as -> by (by destruct zr).
    change (delete_max y yl yk (Br z zl zk zr)) with
      (let '(m, r') := delete_max z zl zk zr in (m, Br y yl yk r')).
    destruct (delete_max z zl zk zr) as [m' r'] eqn:Hdel. simpl in Hdm, M |- *.
    split_and!; try done.
    + set_solver.
    + by right.
    + rewrite lookup_insert_ne by (intros ->; done). rewrite Hy. f_equal. f_equal.
      pose proof (ptr_of_delete_max z zl zk zr Hzne) as Hp. by rewrite Hdel in Hp.
    + apply models_insert_ne; [|done]. intros Hx. by apply (Hdis pm).
Qed.

Lemma addrs_delete_min a l k r :
  addrs (Br a l k r) = (delete_min a l k r).1.1 :: addrs (delete_min a l k r).2.
Proof. by rewrite !addrs_nodes, nodes_delete_min. Qed.

Lemma keys_delete_min a l k r :
  keys (Br a l k r) = (delete_min a l k r).1.2 :: keys (delete_min a l k r).2.
Proof. by rewrite !keys_nodes, nodes_delete_min. Qed.

Lemma addrs_delete_max a l k r :
  addrs (Br a l k r) = addrs (delete_max a l k r).2 ++ [(delete_max a l k r).1.1].
Proof. by rewrite !addrs_nodes, nodes_delete_max, fmap_app. Qed.

Lemma keys_delete_max a l k r :
  keys (Br a l k r) = keys (delete_max a l k r).2 ++ [(delete_max a l k r).1.2].
Proof. by rewrite !keys_nodes, nodes_delete_max, fmap_app. Qed.

Lemma addrs_remove_root succ T m :
  removed_addr succ T = Some m → addrs T ≡ₚ m :: addrs (remove_root succ T).
Proof.
  destruct T as [|a l k r]; [done|].
  destruct l as [|la ll lk lr]; [|destruct r as [|ra rl rk rr]].
  - simpl. by intros [= <-].
  - simpl. intros [= <-]. by rewrite <- Permutation_middle, app_nil_r.
  - unfold removed_addr, remove_root. destruct succ.
    + pose proof (addrs_delete_min ra rl rk rr) as Hn.
      destruct (delete_min ra rl rk rr) as [[ma mk] r']. simpl in Hn.
      intros [= <-]. cbn [addrs snd] in *. rewrite Hn.
      by rewrite <- !Permutation_middle, Permutation_swap.
    + pose proof (addrs_delete_max la ll lk lr) as Hn.
      destruct (delete_max la ll lk lr) as [[ma mk] l']. simpl in Hn.
      intros [= <-]. cbn [addrs snd] in *. rewrite Hn.
      rewrite <- !app_assoc. simpl. by rewrite <- !Permutation_middle.
Qed.

Lemma keys_remove_root succ a l k r :
  keys (Br a l k r) ≡ₚ k :: keys (remove_root succ (Br a l k r)).
Proof.
  destruct l as [|la ll lk lr]; [|destruct r as [|ra rl rk rr]].
  - done.
  - simpl. by rewrite <- Permutation_middle, app_nil_r.
  - unfold remove_root. destruct succ.
    + pose proof (keys_delete_min ra rl rk rr) as Hn.
      destruct (delete_min ra rl rk rr) as [[ma mk] r']. simpl in Hn.
      cbn [keys snd] in *. rewrite Hn.
      by rewrite <- !Permutation_middle, Permutation_swap.
    + pose proof (keys_delete_max la ll lk lr) as Hn.
      destruct (delete_max la ll lk lr) as [[ma mk] l']. simpl in Hn.
      cbn [keys snd] in *. rewrite Hn.
      rewrite <- !app_assoc. simpl. rewrite <- !Permutation_middle.
      by rewrite Permutation_swap.
Qed.

Lemma models_Br h a l k r :
  h !! a = Some (mkNode k (ptr_of l) (ptr_of r)) → models h l → models h r →
  models h (Br a l k r).
Proof. by split. Qed.

Lemma removeNodeWithTwoChildren_spec t a l k r :
  let X := Br a l k r in
  models (heap t) X → NoDup (addrs X) → l ≠ Leaf → r ≠ Leaf →
  levels X ≤ base.size (heap t) →
  ∃ h' m,
    removeNodeWithTwoChildren a t
      = Some (with_replaceWithSucc (with_heap t h') (negb (replaceWithSucc t)))
    ∧ removed_addr (replaceWithSucc t) X = Some m
    ∧ models h' (remove_root (replaceWithSucc t) X)
    ∧ ptr_of (remove_root (replaceWithSucc t) X) = Some a
    ∧ h' !! m = None
    ∧ (∀ x, x ∉ addrs X → h' !! x = heap t !! x).
Proof.
  intros X Hm Hnd Hl Hr Hfuel.
  pose proof Hnd as (Hndl & Hndr & Hal & Har & Hdis)%NoDup_addrs_Br.
  pose proof Hm as (Ha & Hml & Hmr).
  destruct l as [|la ll lk lr]; [done|]. destruct r as [|ra rl rk rr]; [done|].
  assert (a ≠ ra) as Hara by (intros ->; apply Har; simpl; set_solver).
  assert (a ≠ la) as Hala by (intros ->; apply Hal; simpl; set_solver).
  assert (la ≠ ra) as Hlara by (intros ->; apply (Hdis ra); simpl; set_solver).
  unfold removeNodeWithTwoChildren, removed_addr, remove_root.
  subst X.
  destruct (replaceWithSucc t).
  - (* successor *)
    rewrite Ha. cbn [mbind option_bind right ptr_of].
    pose proof Hmr as (Hra & Hmrl & Hmrr). rewrite Hra. cbn [mbind option_bind left].
    pose proof (nodes_delete_min rl ra rk rr) as Hnodes.
    destruct (decide (rl = Leaf)) as [->|Hrl].
    + cbn [ptr_of delete_min right mbind option_bind]. cbn [delete_min fst snd] in Hnodes.
      eexists _, ra. split.
      { rewrite (lookup_insert_ne _ a ra) by done. rewrite Hra. bind_step.
        rewrite lookup_insert_eq. bind_step. reflexivity. }
      split; [done|].
      pose proof Hndr as (_ & Hndrr & _ & Hrarr & _)%NoDup_addrs_Br.
      split_and!.
      * cbn [snd fst]. apply models_Br.
        -- rewrite lookup_delete_ne by set_solver. by rewrite lookup_insert_eq.
        -- apply models_delete_ne; [intros Hx; apply (Hdis ra Hx); set_solver|].
           do 2 (apply models_insert_ne; [done|]). done.
        -- apply models_delete_ne; [done|].
           do 2 (apply models_insert_ne; [set_solver|]). done.
      * done.
      * by rewrite lookup_delete_eq.
      * intros x Hx. rewrite lookup_delete_ne by set_solver.
        rewrite !lookup_insert_ne by set_solver. done.
    + destruct (ptr_of rl) as [rla|] eqn:Hprl; [|by destruct rl].
      rewrite (descend_left_spec rl ra rk rr) by (done || simpl in *; lia).
      assert (minp a (Br ra rl rk rr) = minp ra rl) as -> by (by destruct rl).
      destruct (splice_min rl ra rk rr (heap t) Hmr Hndr Hrl) as
        (pm & m & cn & pn & -> & Hcm & Hpm & Hdm & Hm_in & Hpmm & Hpm_in & M).
      bind_step. rewrite Hcm. bind_step.
      rewrite Hpm. bind_step.
      assert (pm ∈ addrs (Br ra rl rk rr)) as Hpmr.
      { destruct Hpm_in as [->|?]; simpl; set_solver. }
      assert (m ∈ addrs (Br ra rl rk rr)) as Hmr_in by (simpl; set_solver).
      pose proof (ptr_of_delete_min ra rl rk rr Hrl) as Hpr'.
      destruct (delete_min ra rl rk rr) as [[ma mk] r'] eqn:Hdel.
      cbn [fst snd] in *. injection Hdm as -> ->.
      assert (pm ≠ a) as Hpma by (intros ->; done).
      eexists _, m. split.
      { rewrite (lookup_insert_ne _ pm m) by done. rewrite Hcm. bind_step.
        rewrite (lookup_insert_ne _ pm a) by done. rewrite Ha. bind_step.
        reflexivity. }
      split; [done|].
      assert (m ∉ addrs r') as Hmr'.
      { assert (NoDup (addrs (Br ra rl rk rr))) as Hnd' by done.
        rewrite addrs_nodes, Hnodes in Hnd'. rewrite fmap_cons in Hnd'.
        apply NoDup_cons in Hnd' as [Hn _]. by rewrite addrs_nodes. }
      assert (∀ x, x ∈ addrs r' → x ∈ addrs (Br ra rl rk rr)) as Hsub.
      { intros x Hx. rewrite (addrs_nodes (Br _ _ _ _)), Hnodes, fmap_cons.
        rewrite <- addrs_nodes. set_solver. }
      split_and!.
      * apply models_Br.
        -- rewrite lookup_delete_ne by (intros ->; done). rewrite lookup_insert_eq.
           unfold set_key. simpl. by rewrite Hpr'.
        -- apply models_delete_ne; [intros Hx; by apply (Hdis m Hx)|].
           apply models_insert_ne; [done|].
           apply models_insert_ne; [intros Hx; by apply (Hdis pm Hx)|]. done.
        -- apply models_delete_ne; [done|].
           apply models_insert_ne; [|done]. intros Hx. by apply Har, Hsub.
      * done.
      * by rewrite lookup_delete_eq.
      * intros x Hx. rewrite lookup_delete_ne by (intros ->; set_solver).
        rewrite lookup_insert_ne by set_solver.
        rewrite lookup_insert_ne by (intros ->; set_solver). done.
  - (* predecessor *)
    rewrite Ha. cbn [mbind option_bind left ptr_of].
    pose proof Hml as (Hla & Hmll & Hmlr). rewrite Hla. cbn [mbind option_bind right].
    pose proof (nodes_delete_max lr la ll lk) as Hnodes.
    destruct (decide (lr = Leaf)) as [->|Hlr].
    + cbn [ptr_of delete_max left mbind option_bind]. cbn [delete_max fst snd] in Hnodes.
      eexists _, la. split.
      { rewrite (lookup_insert_ne _ a la) by done. rewrite Hla. bind_step.
        rewrite lookup_insert_eq. bind_step. reflexivity. }
      split; [done|].
      pose proof Hndl as (Hndll & _ & Hlall & _ & _)%NoDup_addrs_Br.
      split_and!.
      * cbn [snd fst]. apply models_Br.
        -- rewrite lookup_delete_ne by set_solver. by rewrite lookup_insert_eq.
        -- apply models_delete_ne; [done|].
           do 2 (apply models_insert_ne; [set_solver|]). done.
        -- apply models_delete_ne; [apply Hdis; set_solver|].
           do 2 (apply models_insert_ne; [done|]). done.
      * done.
      * by rewrite lookup_delete_eq.
      * intros x Hx. rewrite lookup_delete_ne by set_solver.
        rewrite !lookup_insert_ne by set_solver. done.
    + destruct (ptr_of lr) as [lra|] eqn:Hplr; [|by destruct lr].
      rewrite (descend_right_spec lr la ll lk) by (done || simpl in *; lia).
      assert (maxp a (Br la ll lk lr) = maxp la lr) as -> by (by destruct lr).
      destruct (splice_max lr la ll lk (heap t) Hml Hndl Hlr) as
        (pm & m & cn & pn & -> & Hcm & Hpm & Hdm & Hm_in & Hpmm & Hpm_in & M).
      bind_step. rewrite Hcm. bind_step.
      rewrite Hpm. bind_step.
      assert (pm ∈ addrs (Br la ll lk lr)) as Hpml.
      { destruct Hpm_in as [->|?]; simpl; set_solver. }
      assert (m ∈ addrs (Br la ll lk lr)) as Hml_in by (simpl; set_solver).
      pose proof (ptr_of_delete_max la ll lk lr Hlr) as Hpl'.
      destruct (delete_max la ll lk lr) as [[ma mk] l'] eqn:Hdel.
      cbn [fst snd] in *. injection Hdm as -> ->.
      assert (pm ≠ a) as Hpma by (intros ->; done).
      eexists _, m. split.
      { rewrite (lookup_insert_ne _ pm m) by done. rewrite Hcm. bind_step.
        rewrite (lookup_insert_ne _ pm a) by done. rewrite Ha. bind_step.
        reflexivity. }
      split; [done|].
      assert (m ∉ addrs l') as Hml'.
      { assert (NoDup (addrs (Br la ll lk lr))) as Hnd' by done.
        rewrite addrs_nodes, Hnodes in Hnd'. rewrite fmap_app in Hnd'.
        apply NoDup_app in Hnd' as (_ & Hn & _). rewrite addrs_nodes.
        intros Hx. apply (Hn m Hx). simpl. set_solver. }
      assert (∀ x, x ∈ addrs l' → x ∈ addrs (Br la ll lk lr)) as Hsub.
      { intros x Hx. rewrite (addrs_nodes (Br _ _ _ _)), Hnodes, fmap_app.
        rewrite <- addrs_nodes. set_solver. }
      split_and!.
      * apply models_Br.
        -- rewrite lookup_delete_ne by (intros ->; done). rewrite lookup_insert_eq.
           unfold set_key. simpl. by rewrite Hpl'.
        -- apply models_delete_ne; [done|].
           apply models_insert_ne; [|done]. intros Hx. by apply Hal, Hsub.
        -- apply models_delete_ne; [by apply Hdis|].
           apply models_insert_ne; [done|].
           apply models_insert_ne; [by apply Hdis|]. done.
      * done.
      * by rewrite lookup_delete_eq.
      * intros x Hx. rewrite lookup_delete_ne by (intros ->; set_solver).
        rewrite lookup_insert_ne by set_solver.
        rewrite lookup_insert_ne by (intros ->; set_solver). done.
Qed.

Lemma slot_set_id pn T :
  left pn = ptr_of T ∨ right pn = ptr_of T ∧ left pn ≠ ptr_of T →
  slot_set pn T (ptr_of T) = pn.
Proof.
  unfold slot_set. destruct pn as [k l r]. simpl.
  intros [H|[H H']]; destruct (decide _); try done; unfold set_left, set_right; simpl; congruence.
Qed.

Lemma find_sub_tmem k T : tmem k T = true → find_sub k T ≠ Leaf.
Proof.
  induction T as [|a l IHl kb r IHr]; simpl; [done|].
  destruct (k =? kb)%Z; [done|]. destruct (k <? kb)%Z; auto.
Qed.

Lemma find_sub_not_tmem k T : tmem k T = false → find_sub k T = Leaf.
Proof.
  induction T as [|a l IHl kb r IHr]; simpl; [done|].
  destruct (k =? kb)%Z; [done|]. destruct (k <? kb)%Z; auto.
Qed.

Lemma tmem_not_Leaf k T : tmem k T = true → T ≠ Leaf.
Proof. by destruct T. Qed.

(** Removal at the root of a subtree that hangs below the cell [p]. *)
Lemma splice_here_spec t a l k r p pn :
  let X := Br a l k r in
  models (heap t) X → NoDup (addrs X) → levels X ≤ base.size (heap t) →
  root t ≠ Some a →
  heap t !! p = Some pn → p ∉ addrs X →
  left pn = ptr_of X ∨ right pn = ptr_of X ∧ left pn ≠ ptr_of X →
  ∃ h' m,
    splice a (Some p) t
      = Some (mkTree h' (root t) (size t) (maxSize t) (alpha t)
                (xorb (replaceWithSucc t) (two_children X)))
    ∧ removed_addr (replaceWithSucc t) X = Some m
    ∧ models h' (remove_root (replaceWithSucc t) X)
    ∧ h' !! p = Some (slot_set pn X (ptr_of (remove_root (replaceWithSucc t) X)))
    ∧ h' !! m = None
    ∧ (∀ x, x ∉ addrs X → x ≠ p → h' !! x = heap t !! x).
Proof.
  intros X Hm Hnd Hfuel Hroot Hp HpX Hslot.
  pose proof Hm as (Ha & Hml & Hmr).
  pose proof Hnd as (Hndl & Hndr & Hal & Har & Hdis)%NoDup_addrs_Br.
  unfold splice. rewrite Ha. cbn [mbind option_bind left right].
  destruct (two_children X) eqn:Htwo.
  - assert (l ≠ Leaf ∧ r ≠ Leaf) as [Hl Hr] by (by destruct l, r).
    destruct (removeNodeWithTwoChildren_spec t a l k r Hm Hnd Hl Hr Hfuel) as
      (h' & m & E & Hrem & M & Hptr & Hm' & F).
    exists h', m.
    assert (match ptr_of l with
            | Some _ => match ptr_of r with
                        | Some _ => removeNodeWithTwoChildren a t
                        | None => removeNodeWithoutChild a (Some p) t
                        end
            | None => removeNodeWithoutChild a (Some p) t
            end = removeNodeWithTwoChildren a t) as -> by (by destruct l, r).
    rewrite E. split; [by destruct (replaceWithSucc t), t|].
    split_and!; try done.
    + rewrite F by done. rewrite Hp. f_equal. unfold X in *. rewrite Hptr.
      symmetry. by apply slot_set_id.
    + intros x Hx _. by apply F.
  - assert (match ptr_of l with
            | Some _ => match ptr_of r with
                        | Some _ => removeNodeWithTwoChildren a t
                        | None => removeNodeWithoutChild a (Some p) t
                        end
            | None => removeNodeWithoutChild a (Some p) t
            end = removeNodeWithoutChild a (Some p) t) as -> by (by destruct l, r).
    unfold removeNodeWithoutChild. rewrite Ha. cbn [mbind option_bind left right].
    rewrite decide_False by done. bind_step. rewrite Hp.
    bind_step.
    set (child := match ptr_of l with Some _ => ptr_of l | None => ptr_of r end).
    assert (child = ptr_of (remove_root (replaceWithSucc t) X)) as Hchild.
    { unfold child, X. by destruct l, r. }
    assert (removed_addr (replaceWithSucc t) X = Some a) as Hrem.
    { unfold X. by destruct l, r. }
    assert (models (heap t) (remove_root (replaceWithSucc t) X)
            ∧ ∀ x, x ∈ addrs (remove_root (replaceWithSucc t) X) → x ∈ addrs X ∧ x ≠ a)
      as [Hmc Hsub].
    { unfold X. destruct l, r; try done; simpl; split; try done; set_solver. }
    assert (p ≠ a) as Hpa by (intros ->; apply HpX; simpl; set_solver).
    exists (delete a (<[p := slot_set pn X child]> (heap t))), a.
    split.
    { unfold slot_set. simpl. destruct (decide (left pn = Some a)); rewrite xorb_false_r; by destruct t. }
    split; [done|]. split_and!.
    + apply models_delete_ne; [intros Hx; by apply Hsub in Hx as [_ ?]|].
      apply models_insert_ne; [|done]. intros Hx. by apply Hsub in Hx as [? _].
    + rewrite lookup_delete_ne by done. rewrite lookup_insert_eq. by rewrite Hchild.
    + by rewrite lookup_delete_eq.
    + intros x Hx Hxp. rewrite lookup_delete_ne by (intros ->; apply Hx; simpl; set_solver).
      by rewrite lookup_insert_ne.
Qed.

Lemma addrs_tremove succ k T m :
  removed_addr succ (find_sub k T) = Some m →
  addrs T ≡ₚ m :: addrs (tremove succ k T).
Proof.
  induction T as [|a l IHl kb r IHr]; [done|].
  cbn [find_sub tremove]. destruct (k =? kb)%Z; [apply addrs_remove_root|].
  destruct (k <? kb)%Z; intros H; cbn [addrs].
  - rewrite (IHl H). done.
  - rewrite (IHr H). by rewrite <- !Permutation_middle, Permutation_swap.
Qed.

Lemma ptr_of_tremove succ k a l kb r :
  (k =? kb)%Z = false → ptr_of (tremove succ k (Br a l kb r)) = Some a.
Proof. intros E. simpl. rewrite E. by destruct (k <? kb)%Z. Qed.

(** Removal of [k] from a subtree that hangs below the cell [p]. *)
Lemma splice_sub_spec k t : ∀ T p pn,
  models (heap t) T → NoDup (addrs T) → levels T ≤ base.size (heap t) →
  tmem k T = true →
  (∀ x, x ∈ addrs T → root t ≠ Some x) →
  heap t !! p = Some pn → p ∉ addrs T →
  left pn = ptr_of T ∨ right pn = ptr_of T ∧ left pn ≠ ptr_of T →
  ∃ c h' m,
    ptr_of (find_sub k T) = Some c
    ∧ splice c (hd (Some p) (rev (ptr_of <$> anc k T))) t
      = Some (mkTree h' (root t) (size t) (maxSize t) (alpha t)
                (xorb (replaceWithSucc t) (two_children (find_sub k T))))
    ∧ removed_addr (replaceWithSucc t) (find_sub k T) = Some m
    ∧ models h' (tremove (replaceWithSucc t) k T)
    ∧ h' !! p = Some (slot_set pn T (ptr_of (tremove (replaceWithSucc t) k T)))
    ∧ h' !! m = None
    ∧ (∀ x, x ∉ addrs T → x ≠ p → h' !! x = heap t !! x).
Proof.
  induction T as [|a l IHl kb r IHr]; intros p pn Hm Hnd Hfuel Hk Hroot Hp HpT Hslot;
    [done|].
  pose proof Hm as (Ha & Hml & Hmr).
  pose proof Hnd as (Hndl & Hndr & Hal & Har & Hdis)%NoDup_addrs_Br.
  cbn [tmem find_sub anc tremove] in *.
  destruct (k =? kb)%Z eqn:E.
  - destruct (splice_here_spec t a l kb r p pn Hm Hnd Hfuel) as
      (h' & m & Es & Hrem & M & Hp' & Hm' & F); try done.
    { apply Hroot. simpl. set_solver. }
    exists a, h', m. simpl. by split_and!.
  - assert (p ≠ a) as Hpa by (intros ->; apply HpT; simpl; set_solver).
    simpl in Hfuel.
    destruct (k <? kb)%Z eqn:E'.
    + destruct (IHl a (mkNode kb (ptr_of l) (ptr_of r))) as
        (c & h' & m & Hc & Es & Hrem & M & Ha' & Hm' & F); try done.
      { lia. }
      { intros x Hx. apply Hroot. simpl. set_solver. }
      { by left. }
      exists c, h', m. split; [done|]. split.
      { rewrite fmap_cons. simpl. rewrite hd_app_cons. exact Es. }
      split; [done|]. split_and!.
      * apply models_Br; [|done|].
        -- rewrite Ha'. unfold slot_set. simpl. by rewrite decide_True.
        -- eapply models_frame; [|exact Hmr]. intros x Hx. apply F.
           ++ intros Hx'. by apply (Hdis x).
           ++ by intros ->.
      * rewrite F; [|set_solver|done]. rewrite Hp. f_equal.
        symmetry. exact (slot_set_id pn (Br a l kb r) Hslot).
      * done.
      * intros x Hx Hxp. apply F; set_solver.
    + destruct (IHr a (mkNode kb (ptr_of l) (ptr_of r))) as
        (c & h' & m & Hc & Es & Hrem & M & Ha' & Hm' & F); try done.
      { lia. }
      { intros x Hx. apply Hroot. simpl. set_solver. }
      { right. split; [done|]. simpl. apply not_eq_sym.
        apply (ptr_ne_of_NoDup a l kb r Hnd). by apply tmem_not_Leaf in Hk. }
      exists c, h', m. split; [done|]. split.
      { rewrite fmap_cons. simpl. rewrite hd_app_cons. exact Es. }
      split; [done|]. split_and!.
      * apply models_Br; [|  |done].
        -- rewrite Ha'. unfold slot_set. simpl. rewrite decide_False; [done|].
           apply not_eq_sym.
           apply (ptr_ne_of_NoDup a l kb r Hnd). by apply tmem_not_Leaf in Hk.
        -- eapply models_frame; [|exact Hml]. intros x Hx. apply F.
           ++ by apply Hdis.
           ++ by intros ->.
      * rewrite F; [|set_solver|done]. rewrite Hp. f_equal.
        symmetry. exact (slot_set_id pn (Br a l kb r) Hslot).
      * done.
      * intros x Hx Hxp. apply F; set_solver.
Qed.

Lemma splice_top_spec k t T :
  Rep t T → tmem k T = true →
  ∃ c h' m,
    ptr_of (find_sub k T) = Some c
    ∧ splice c (hd None (rev (ptr_of <$> anc k T))) t
      = Some (mkTree h' (ptr_of (tremove (replaceWithSucc t) k T)) (size t)
                (maxSize t) (alpha t)
                (xorb (replaceWithSucc t) (two_children (find_sub k T))))
    ∧ removed_addr (replaceWithSucc t) (find_sub k T) = Some m
    ∧ models h' (tremove (replaceWithSucc t) k T)
    ∧ h' !! m = None
    ∧ (∀ x, x ∉ addrs T → h' !! x = heap t !! x).
Proof.
  intros HR Hk. pose proof HR as [Hm Hroot Hnd Hex Hsz].
  pose proof (Rep_fuel _ _ HR) as Hfuel.
  destruct T as [|a l kb r]; [done|].
  pose proof Hm as (Ha & Hml & Hmr).
  pose proof Hnd as (Hndl & Hndr & Hal & Har & Hdis)%NoDup_addrs_Br.
  cbn [tmem find_sub anc tremove] in *.
  destruct (k =? kb)%Z eqn:E.
  - exists a. cbn [ptr_of rev fmap list_fmap hd].
    unfold splice. rewrite Ha. cbn [mbind option_bind left right].
    destruct (two_children (Br a l kb r)) eqn:Htwo.
    + assert (l ≠ Leaf ∧ r ≠ Leaf) as [Hl Hr] by (by destruct l, r).
      destruct (removeNodeWithTwoChildren_spec t a l kb r Hm Hnd Hl Hr ltac:(lia)) as
        (h' & m & Es & Hrem & M & Hptr & Hm' & F).
      exists h', m.
      assert (match ptr_of l with
              | Some _ => match ptr_of r with
                          | Some _ => removeNodeWithTwoChildren a t
                          | None => removeNodeWithoutChild a None t
                          end
              | None => removeNodeWithoutChild a None t
              end = removeNodeWithTwoChildren a t) as -> by (by destruct l, r).
      rewrite Es, Hptr. split; [done|]. split; [|done].
      simpl in Hroot. destruct t as [h0 rt sz0 msz0 al0 fl0]; simpl in *.
      subst rt. by destruct fl0.
    + assert (match ptr_of l with
              | Some _ => match ptr_of r with
                          | Some _ => removeNodeWithTwoChildren a t
                          | None => removeNodeWithoutChild a None t
                          end
              | None => removeNodeWithoutChild a None t
              end = removeNodeWithoutChild a None t) as -> by (by destruct l, r).
      unfold removeNodeWithoutChild. rewrite Ha. cbn [mbind option_bind left right].
      rewrite decide_True by done. bind_step.
      set (child := match ptr_of l with Some _ => ptr_of l | None => ptr_of r end).
      assert (child = ptr_of (remove_root (replaceWithSucc t) (Br a l kb r))) as Hchild.
      { unfold child. by destruct l, r. }
      assert (removed_addr (replaceWithSucc t) (Br a l kb r) = Some a) as Hrem.
      { by destruct l, r. }
      assert (models (heap t) (remove_root (replaceWithSucc t) (Br a l kb r))
              ∧ a ∉ addrs (remove_root (replaceWithSucc t) (Br a l kb r)))
        as [Hmc Hsub].
      { destruct l, r; try done. }
      exists (delete a (heap t)), a. split; [done|]. split.
      { rewrite xorb_false_r, Hchild. by destruct t. }
      split; [done|]. split_and!.
      * by apply models_delete_ne.
      * by rewrite lookup_delete_eq.
      * intros x Hx. rewrite lookup_delete_ne; [done|]. intros ->. apply Hx. simpl. set_solver.
  - simpl in Hfuel.
    assert (∀ c : tree, (c = l ∨ c = r) → ∀ x, x ∈ addrs c → root t ≠ Some x) as Hrt.
    { intros c Hc x Hx. rewrite Hroot. simpl. intros [= ->]. destruct Hc as [->| ->]; done. }
    destruct (k <? kb)%Z eqn:E'.
    + destruct (splice_sub_spec k t l a (mkNode kb (ptr_of l) (ptr_of r))) as
        (c & h' & m & Hc & Es & Hrem & M & Ha' & Hm' & F); try done.
      { lia. }
      { apply Hrt. by left. }
      { by left. }
      exists c, h', m. split; [done|]. split.
      { rewrite fmap_cons. simpl. rewrite hd_app_cons. rewrite Es. by rewrite Hroot. }
      split; [done|]. split_and!.
      * apply models_Br; [|done|].
        -- rewrite Ha'. unfold slot_set. simpl. by rewrite decide_True.
        -- eapply models_frame; [|exact Hmr]. intros x Hx. apply F.
           ++ intros Hx'. by apply (Hdis x).
           ++ by intros ->.
      * done.
      * intros x Hx. apply F; simpl in Hx; set_solver.
    + destruct (splice_sub_spec k t r a (mkNode kb (ptr_of l) (ptr_of r))) as
        (c & h' & m & Hc & Es & Hrem & M & Ha' & Hm' & F); try done.
      { lia. }
      { apply Hrt. by right. }
      { right. split; [done|]. simpl. apply not_eq_sym.
        apply (ptr_ne_of_NoDup a l kb r Hnd). by apply tmem_not_Leaf in Hk. }
      exists c, h', m. split; [done|]. split.
      { rewrite fmap_cons. simpl. rewrite hd_app_cons. rewrite Es. by rewrite Hroot. }
      split; [done|]. split_and!.
      * apply models_Br; [| |done].
        -- rewrite Ha'. unfold slot_set. simpl. rewrite decide_False; [done|].
           apply not_eq_sym.
           apply (ptr_ne_of_NoDup a l kb r Hnd). by apply tmem_not_Leaf in Hk.
        -- eapply models_frame; [|exact Hml]. intros x Hx. apply F.
           ++ by apply Hdis.
           ++ by intros ->.
      * done.
      * intros x Hx. apply F; simpl in Hx; set_solver.
Qed.

Lemma remove_unfold k t :
  remove k t =
    found ← remove_find (S (base.size (heap t))) (heap t) k None (root t);
    match found with
    | None => Some (false, t)
    | Some (prev, curr) =>
        t1 ← splice curr prev t;
        let t2 := with_size t1 (size t1 - 1) in
        if size_le_alpha_maxSize (alpha t2) (size t2) (maxSize t2)
        then t3 ← rebuild (mkScapegoat (root t2) None (size t2)) t2; Some (true, t3)
        else Some (true, t2)
    end.
Proof.
  unfold remove, splice.
  destruct (remove_find _ _ _ _ _) as [[[prev curr]|]|]; simpl; try done.
  by destruct (heap t !! curr).
Qed.

Lemma remove_spec_absent t T k :
  Rep t T → tmem k T = false → remove k t = Some (false, t).
Proof.
  intros HR Hk. unfold remove. rewrite (rep_root _ _ HR).
  rewrite (remove_find_spec T) by (first [by apply Rep_fuel|by destruct HR]).
  by rewrite (find_sub_not_tmem k T Hk).
Qed.

(** The state of [remove] once the node is spliced out and counted, and
    what remains to be done. *)
Lemma remove_link_spec t T k :
  Rep t T → tmem k T = true →
  let T1 := tremove (replaceWithSucc t) k T in
  ∃ c h1 m,
    let t2 := mkTree h1 (ptr_of T1) (size t - 1) (maxSize t) (alpha t)
                (xorb (replaceWithSucc t) (two_children (find_sub k T))) in
    ptr_of (find_sub k T) = Some c
    ∧ remove_find (S (base.size (heap t))) (heap t) k None (root t)
      = Some (Some (hd None (rev (ptr_of <$> anc k T)), c))
    ∧ Rep t2 T1
    ∧ removed_addr (replaceWithSucc t) (find_sub k T) = Some m
    ∧ heap t2 !! m = None
    ∧ remove k t =
        (if size_le_alpha_maxSize (alpha t) (size t - 1) (maxSize t)
         then t3 ← rebuild (mkScapegoat (root t2) None (size t2)) t2; Some (true, t3)
         else Some (true, t2)).
Proof.
  intros HR Hk T1. pose proof HR as [Hm Hroot Hnd Hex Hsz].
  destruct (splice_top_spec k t T HR Hk) as (c & h1 & m & Hc & Es & Hrem & M & Hm1 & F).
  exists c, h1, m.
  assert (remove_find (S (base.size (heap t))) (heap t) k None (root t)
          = Some (Some (hd None (rev (ptr_of <$> anc k T)), c))) as Hfind.
  { rewrite Hroot. rewrite (remove_find_spec T) by (first [by apply Rep_fuel|done]).
    by rewrite Hc. }
  pose proof (addrs_tremove _ k T m Hrem) as Hperm. fold T1 in Hperm, M, Es.
  assert (NoDup (addrs T1) ∧ m ∉ addrs T1) as [Hnd1 Hm1'].
  { rewrite Hperm in Hnd. by apply NoDup_cons in Hnd as [? ?]. }
  assert (tsize T = S (tsize T1)) as Hsz1.
  { rewrite !tsize_addrs, Hperm. done. }
  split; [done|]. split; [done|]. split; [|split; [done|split; [done|]]].
  - split; cbn [heap root size]; try done; [|lia].
    intros x Hx. destruct (decide (x ∈ addrs T)) as [Hin|Hn].
    + rewrite Hperm in Hin. apply elem_of_cons in Hin as [->|?]; [|done].
      rewrite Hm1 in Hx. by destruct Hx.
    + rewrite F in Hx by done. by apply Hex in Hx.
  - rewrite remove_unfold, Hfind. bind_step. rewrite Es.
    cbn [mbind option_bind with_size size maxSize alpha root heap replaceWithSucc].
    done.
Qed.

Lemma remove_spec_present t T k :
  Rep t T → tmem k T = true →
  let T' := remove_tree (alpha t) (replaceWithSucc t) k T (maxSize t) in
  ∃ h' m,
    remove k t =
      Some (true, mkTree h' (ptr_of T') (size t - 1)
                    (remove_maxSize (alpha t) T (maxSize t)) (alpha t)
                    (xorb (replaceWithSucc t) (two_children (find_sub k T))))
    ∧ Rep (mkTree h' (ptr_of T') (size t - 1)
                    (remove_maxSize (alpha t) T (maxSize t)) (alpha t)
                    (xorb (replaceWithSucc t) (two_children (find_sub k T)))) T'
    ∧ removed_addr (replaceWithSucc t) (find_sub k T) = Some m
    ∧ h' !! m = None.
Proof.
  intros HR Hk T'.
  destruct (remove_link_spec t T k HR Hk) as (c & h1 & m & _ & _ & HR2 & Hrem & Hm1 & ->).
  pose proof (rep_size _ _ HR) as Hsz.
  set (T1 := tremove (replaceWithSucc t) k T) in *.
  unfold T', remove_tree, remove_maxSize. fold T1. rewrite <- Hsz.
  set (t2 := mkTree h1 _ _ _ _ _) in *.
  destruct (size_le_alpha_maxSize (alpha t) (size t - 1) (maxSize t)) eqn:Hrb.
  - pose proof HR2 as [M2 Hroot2 Hnd2 Hex2 Hsz2].
    destruct (rebuild_root_spec t2 T1 M2 Hnd2) as (h' & E & M' & F').
    cbn [root size t2] in Hsz2 |- *. rewrite Hsz2, E. cbn [mbind option_bind size alpha replaceWithSucc t2].
    exists h', m. rewrite Hsz2. split; [done|]. split; [|split; [done|]].
    + split; cbn [heap root size]; try done.
      * by rewrite addrs_balance.
      * intros x Hx. rewrite addrs_balance.
        destruct (decide (x ∈ addrs T1)) as [|Hn]; [done|].
        rewrite F' in Hx by done. by apply Hex2.
      * by rewrite tsize_balance.
    + rewrite F'; [exact Hm1|]. intros Hin. apply (models_lookup _ _ _ M2) in Hin.
      rewrite Hm1 in Hin. by destruct Hin.
  - exists h1, m. split; [done|]. split; [done|]. done.
Qed.

(** ** The alpha-deep height *)

Lemma qpow_pos b h : (0 < b)%Q → (0 < qpow b h)%Q.
Proof. intros Hb. induction h as [|h IH]; simpl; [lra|]. nra. Qed.

Lemma qpow_ge_1 b h : (1 <= b)%Q → (1 <= qpow b h)%Q.
Proof. intros Hb. induction h as [|h IH]; simpl; [lra|]. nra. Qed.

Lemma qpow_mono_exp b h h' : (1 <= b)%Q → h ≤ h' → (qpow b h <= qpow b h')%Q.
Proof.
  intros Hb Hle. induction Hle as [|h' Hle IH]; [lra|]. simpl.
  pose proof (qpow_ge_1 b h' Hb). nra.
Qed.

Lemma qpow_mono_base b c h : (0 <= b)%Q → (b <= c)%Q → (qpow b h <= qpow c h)%Q.
Proof.
  intros Hb Hbc. induction h as [|h IH]; simpl; [lra|].
  assert (0 <= qpow b h)%Q.
  { clear IH. induction h as [|h IH]; simpl; [lra|]. by apply Qmult_le_0_compat. }
  apply Qle_trans with (qpow b h * c)%Q.
  - rewrite !(Qmult_comm (qpow b h)). apply Qmult_le_compat_r; done.
  - apply Qmult_le_compat_r; [done|lra].
Qed.

Lemma qpow_bernoulli b h : (1 <= b)%Q → (1 + inject_Z (Z.of_nat h) * (b - 1) <= qpow b h)%Q.
Proof.
  intros Hb. induction h as [|h IH].
  - change (1 + 0 * (b - 1) <= 1)%Q. lra.
  - rewrite Nat2Z.inj_succ. unfold Z.succ. rewrite inject_Z_plus. simpl qpow.
    assert (0 <= inject_Z (Z.of_nat h))%Q.
    { change 0%Q with (inject_Z 0). rewrite <- Zle_Qle. lia. }
    change (inject_Z 1) with 1%Q.
    set (n := inject_Z (Z.of_nat h)) in *. set (P := qpow b h) in *.
    apply Qle_trans with ((1 + n * (b - 1)) * b)%Q.
    + assert (0 <= n * (b - 1) * (b - 1))%Q.
      { apply Qmult_le_0_compat; [apply Qmult_le_0_compat|]; lra. }
      lra.
    + apply Qmult_le_compat_r; [done|lra].
Qed.

Lemma floor_log_from_spec fuel : ∀ b x pow h,
  (pow == qpow b h)%Q → (pow <= x)%Q →
  let r := floor_log_from fuel b x pow h in
  h ≤ r ∧ (qpow b r <= x)%Q ∧ (r < h + fuel → (x < qpow b (S r))%Q).
Proof.
  induction fuel as [|fuel IH]; intros b x pow h Hpow Hle; simpl.
  - split; [lia|]. split; [by rewrite <- Hpow|]. lia.
  - destruct (Qle_bool (pow * b) x) eqn:E.
    + apply Qle_bool_iff in E.
      destruct (IH b x (pow * b)%Q (S h)) as (H1 & H2 & H3).
      { simpl. by rewrite Hpow. }
      { done. }
      split; [lia|]. split; [done|]. intros Hlt. apply H3. lia.
    + split; [lia|]. split; [by rewrite <- Hpow|]. intros _.
      apply Qnot_le_lt. intros Hc. apply Qle_bool_iff in Hc.
      simpl in Hc. rewrite <- Hpow in Hc. congruence.
Qed.

Lemma inv_alpha_bounds a : valid_alpha a → (1 < / a)%Q ∧ (/ a < 2)%Q.
Proof.
  intros [H1 H2]. destruct a as [p q]. unfold Qlt in *. simpl in *.
  destruct p as [|p|p]; try lia. unfold Qinv, Qlt. simpl. lia.
Qed.

Lemma inv_alpha_step a :
  valid_alpha a → (1 <= inject_Z (Qnum a) * (/ a - 1))%Q.
Proof.
  intros [H1 H2]. destruct a as [p q]. unfold Qlt in *. simpl in *.
  destruct p as [|p|p]; try lia.
  unfold Qinv, Qle, Qminus, Qplus, Qmult, Qopp, inject_Z. simpl. nia.
Qed.


Lemma inject_nat_nonneg n : (0 <= inject_Z (Z.of_nat n))%Q.
Proof. change 0%Q with (inject_Z 0). rewrite <- Zle_Qle. lia. Qed.

Lemma getAlphaDeepHeight_spec a n h :
  valid_alpha a → getAlphaDeepHeight a n = Some h →
  (qpow (/ a) h <= inject_Z (Z.of_nat n))%Q
  ∧ (inject_Z (Z.of_nat n) < qpow (/ a) (S h))%Q.
Proof.
  intros Ha E. destruct n as [|n']; [done|]. set (n := S n') in *.
  simpl in E. injection E as <-.
  set (fuel := n * Z.to_nat (Qnum a)).
  pose proof (inv_alpha_bounds a Ha) as [Hb1 Hb2].
  assert (1 <= inject_Z (Z.of_nat n))%Q as Hn1.
  { change 1%Q with (inject_Z 1). rewrite <- Zle_Qle. lia. }
  destruct (floor_log_from_spec fuel (/ a) (inject_Z (Z.of_nat n)) 1 0) as (_ & Hlow & Hup).
  { done. }
  { done. }
  split; [done|]. apply Hup.
  destruct (decide (floor_log_from fuel (/ a) (inject_Z (Z.of_nat n)) 1 0 < 0 + fuel))
    as [|Hge]; [done|]. exfalso.
  set (r := floor_log_from _ _ _ _ _) in *.
  assert (qpow (/ a) fuel <= inject_Z (Z.of_nat n))%Q as Hc.
  { eapply Qle_trans; [|exact Hlow]. apply qpow_mono_exp; [lra|lia]. }
  pose proof (qpow_bernoulli (/ a) fuel ltac:(lra)) as Hbern.
  pose proof (inv_alpha_step a Ha) as Hstep.
  assert (inject_Z (Z.of_nat fuel) == inject_Z (Z.of_nat n) * inject_Z (Qnum a))%Q as Hfu.
  { unfold fuel. rewrite Nat2Z.inj_mul, inject_Z_mult. rewrite Z2Nat.id; [done|].
    destruct Ha as [H1 _]. destruct a as [p q]. unfold Qlt in H1. simpl in *. lia. }
  rewrite Hfu in Hbern.
  assert (inject_Z (Z.of_nat n) <=
          inject_Z (Z.of_nat n) * inject_Z (Qnum a) * (/ a - 1))%Q.
  { rewrite <- Qmult_assoc.
    rewrite <- (Qmult_1_r (inject_Z (Z.of_nat n))) at 1.
    rewrite !(Qmult_comm (inject_Z (Z.of_nat n))).
    apply Qmult_le_compat_r; [done|lra]. }
  lra.
Qed.

Lemma deepH_Some a n : n ≠ 0 → getAlphaDeepHeight a n = Some (deepH a n).
Proof. destruct n; [done|]. done. Qed.

Lemma deepH_lower a n :
  valid_alpha a → n ≠ 0 → (qpow (/ a) (deepH a n) <= inject_Z (Z.of_nat n))%Q.
Proof. intros Ha Hn. by apply (getAlphaDeepHeight_spec a n _ Ha (deepH_Some a n Hn)). Qed.

Lemma deepH_max a n h :
  valid_alpha a → n ≠ 0 → (qpow (/ a) h <= inject_Z (Z.of_nat n))%Q → h ≤ deepH a n.
Proof.
  intros Ha Hn Hh.
  destruct (getAlphaDeepHeight_spec a n _ Ha (deepH_Some a n Hn)) as [_ Hup].
  destruct (decide (h ≤ deepH a n)) as [|Hgt]; [done|]. exfalso.
  pose proof (inv_alpha_bounds a Ha) as [Hb1 Hb2].
  pose proof (qpow_mono_exp (/ a) (S (deepH a n)) h ltac:(lra) ltac:(lia)). lra.
Qed.

Lemma deepH_mono a n n' : valid_alpha a → n ≠ 0 → n ≤ n' → deepH a n ≤ deepH a n'.
Proof.
  intros Ha Hn Hle. apply deepH_max; [done|lia|].
  eapply Qle_trans; [by apply deepH_lower|]. rewrite <- Zle_Qle. lia.
Qed.

Lemma qpow_2 j : (qpow 2 j == inject_Z (Z.of_nat (2 ^ j)))%Q.
Proof.
  induction j as [|j IH]; [done|]. simpl qpow. rewrite IH.
  rewrite Nat.pow_succ_r', Nat2Z.inj_mul, inject_Z_mult. simpl (Z.of_nat 2).
  change (inject_Z 2) with 2%Q. ring.
Qed.

Lemma deepH_log2 a n j : valid_alpha a → 2 ^ j ≤ n → j ≤ deepH a n.
Proof.
  intros Ha Hj. pose proof (inv_alpha_bounds a Ha) as [Hb1 Hb2].
  assert (n ≠ 0) as Hn. { pose proof (Nat.pow_nonzero 2 j). lia. }
  apply deepH_max; [done|done|].
  eapply Qle_trans; [apply (qpow_mono_base _ 2); lra|].
  rewrite qpow_2. rewrite <- Zle_Qle. lia.
Qed.


Lemma size_le_alpha_maxSize_iff a sz msz :
  size_le_alpha_maxSize a sz msz = true ↔
  (inject_Z (Z.of_nat sz) <= a * inject_Z (Z.of_nat msz))%Q.
Proof. apply Qle_bool_iff. Qed.

Lemma size_ge_alpha_maxSize_iff a sz msz :
  size_ge_alpha_maxSize a sz msz = true ↔
  (a * inject_Z (Z.of_nat msz) <= inject_Z (Z.of_nat sz))%Q.
Proof. apply Qle_bool_iff. Qed.

(** ** Ordering, heights and the invariant *)

(** *** Ordering *)

Lemma bst_sorted T : bst T ↔ StronglySorted Z.lt (keys T).
Proof.
  induction T as [|a l IHl k r IHr]; simpl.
  - split; [constructor|done].
  - rewrite StronglySorted_app, StronglySorted_cons, IHl, IHr.
    rewrite !Forall_forall. split.
    + intros (Hl & Hr & Hlk & Hkr). split_and!; try done.
      intros x y Hx [->|Hy]%elem_of_cons; [by apply Hlk|].
      transitivity k; [by apply Hlk|by apply Hkr].
    + intros (Hlr & Hl & Hkr & Hr). split_and!; try done.
      intros x Hx. apply (Hlr x k Hx). set_solver.
Qed.

Lemma bst_keys_eq T T' : keys T' = keys T → bst T → bst T'.
Proof. rewrite !bst_sorted. by intros ->. Qed.

Lemma tmem_keys k T : bst T → tmem k T = true ↔ k ∈ keys T.
Proof.
  induction T as [|a l IHl kb r IHr]; simpl.
  - intros _. split; [done|]. by intros ?%elem_of_nil.
  - intros (Hl & Hr & Hlk & Hkr). rewrite Forall_forall in Hlk, Hkr.
    rewrite elem_of_app, elem_of_cons.
    destruct (k =? kb)%Z eqn:E; [apply Z.eqb_eq in E; tauto|].
    apply Z.eqb_neq in E.
    destruct (k <? kb)%Z eqn:E'.
    + apply Z.ltb_lt in E'. rewrite (IHl Hl). split; [tauto|].
      intros [?|[?|Hk]]; [done|done|]. apply Hkr in Hk. lia.
    + apply Z.ltb_ge in E'. rewrite (IHr Hr). split; [tauto|].
      intros [Hk|[?|?]]; [|done|done]. apply Hlk in Hk. lia.
Qed.

Lemma keys_tinsert a k T : tmem k T = false → keys (tinsert a k T) ≡ₚ k :: keys T.
Proof. intros H. rewrite !keys_nodes, nodes_tinsert by done. done. Qed.

Lemma bst_tinsert a k T : bst T → tmem k T = false → bst (tinsert a k T).
Proof.
  induction T as [|b l IHl kb r IHr]; simpl.
  - intros _ _. split_and!; done.
  - intros (Hl & Hr & Hlk & Hkr). destruct (k =? kb)%Z eqn:E; [done|].
    apply Z.eqb_neq in E. destruct (k <? kb)%Z eqn:E'; intros Hk; simpl.
    + apply Z.ltb_lt in E'. split_and!; auto.
      rewrite keys_tinsert by done. by constructor.
    + apply Z.ltb_ge in E'. split_and!; auto.
      rewrite keys_tinsert by done. constructor; [lia|done].
Qed.

Lemma keys_rebuild_at dep k T : keys (rebuild_at dep k T) = keys T.
Proof. by rewrite !keys_nodes, nodes_rebuild_at. Qed.

Lemma keys_remove_root_sublist succ T : keys (remove_root succ T) `sublist_of` keys T.
Proof.
  destruct T as [|a l k r]; [done|].
  destruct l as [|la ll lk lr]; [|destruct r as [|ra rl rk rr]].
  - simpl. by apply sublist_cons.
  - simpl. apply sublist_inserts_r. done.
  - unfold remove_root. destruct succ.
    + pose proof (keys_delete_min ra rl rk rr) as Hn.
      destruct (delete_min ra rl rk rr) as [[ma mk] r']. simpl in Hn.
      cbn [keys snd] in *. rewrite Hn. apply sublist_app; [done|].
      apply sublist_cons. done.
    + pose proof (keys_delete_max la ll lk lr) as Hn.
      destruct (delete_max la ll lk lr) as [[ma mk] l']. simpl in Hn.
      cbn [keys snd] in *. rewrite Hn. rewrite <- app_assoc. simpl.
      apply sublist_app; [done|]. apply sublist_skip. apply sublist_cons. done.
Qed.

Lemma keys_tremove_sublist succ k T : keys (tremove succ k T) `sublist_of` keys T.
Proof.
  induction T as [|a l IHl kb r IHr]; [done|].
  cbn [tremove]. destruct (k =? kb)%Z; [apply keys_remove_root_sublist|].
  destruct (k <? kb)%Z; cbn [keys].
  - by apply sublist_app.
  - apply sublist_app; [done|]. by apply sublist_skip.
Qed.

Lemma StronglySorted_sublist {A} (R : relation A) l1 l2 :
  l1 `sublist_of` l2 → StronglySorted R l2 → StronglySorted R l1.
Proof.
  induction 1 as [|x l1 l2 Hs IH|x l1 l2 Hs IH]; [done| |].
  - rewrite !StronglySorted_cons. intros [Hf Hss]. split; [|auto].
    eapply Forall_forall. intros y Hy. rewrite Forall_forall in Hf. apply Hf.
    by eapply elem_of_sublist.
  - rewrite StronglySorted_cons. intros [_ Hss]. auto.
Qed.

Lemma bst_tremove succ k T : bst T → bst (tremove succ k T).
Proof.
  rewrite !bst_sorted. apply StronglySorted_sublist, keys_tremove_sublist.
Qed.

Lemma keys_tremove succ k T :
  bst T → tmem k T = true → keys T ≡ₚ k :: keys (tremove succ k T).
Proof.
  induction T as [|a l IHl kb r IHr]; [done|].
  cbn [tmem tremove]. intros (Hl & Hr & _ & _).
  destruct (k =? kb)%Z eqn:E.
  - apply Z.eqb_eq in E as ->. intros _. apply keys_remove_root.
  - destruct (k <? kb)%Z; intros Hk; cbn [keys].
    + by rewrite (IHl Hl Hk).
    + rewrite (IHr Hr Hk). by rewrite <- !Permutation_middle, Permutation_swap.
Qed.

(** *** Heights *)

Lemma split_balanced_sizes l r :
  tsize l = Z.to_nat (Qceiling (halfTreeSize (S (tsize l + tsize r)))) →
  tsize r = Z.to_nat (Qfloor (halfTreeSize (S (tsize l + tsize r)))) →
  tsize r ≤ tsize l ≤ S (tsize r).
Proof.
  rewrite half_ceil, half_floor. intros H1 H2.
  pose proof (half_floor_le_ceil (tsize l + tsize r)). lia.
Qed.

Lemma levels_split_balanced T :
  split_balanced T → T ≠ Leaf → 2 ^ levels T ≤ 2 * tsize T.
Proof.
  induction T as [|a l IHl k r IHr]; [done|].
  intros (Hsl & Hsr & Hbl & Hbr) _. simpl tsize in *. simpl levels.
  pose proof (split_balanced_sizes l r Hsl Hsr) as Hs.
  rewrite Nat.pow_succ_r'.
  assert (2 ^ levels l ≤ S (tsize l + tsize r)) as Hl.
  { destruct (decide (l = Leaf)) as [->|Hne]; [simpl; lia|].
    specialize (IHl Hbl Hne). lia. }
  assert (2 ^ levels r ≤ S (tsize l + tsize r)) as Hr.
  { destruct (decide (r = Leaf)) as [->|Hne]; [simpl; lia|].
    specialize (IHr Hbr Hne). lia. }
  destruct (Nat.max_spec (levels l) (levels r)) as [[_ ->]|[_ ->]]; lia.
Qed.

Lemma balance_Leaf T : balance T = Leaf → T = Leaf.
Proof.
  intros E. pose proof (tsize_balance T) as H. rewrite E in H.
  destruct T; [done|]. simpl in H. lia.
Qed.

Lemma levels_balance_deepH a T :
  valid_alpha a → T ≠ Leaf → levels (balance T) ≤ S (deepH a (tsize T)).
Proof.
  intros Ha Hne.
  assert (balance T ≠ Leaf) as Hb by (intros E; by apply balance_Leaf in E).
  pose proof (levels_split_balanced _ (split_balanced_balance T) Hb) as H.
  rewrite tsize_balance in H.
  destruct (levels (balance T)) as [|n] eqn:E; [lia|].
  apply le_n_S. apply deepH_log2; [done|].
  rewrite Nat.pow_succ_r' in H. lia.
Qed.

Lemma length_anc_le_levels k T : length (anc k T) ≤ levels T.
Proof.
  induction T as [|a l IHl kb r IHr]; simpl; [lia|].
  destruct (k =? kb)%Z; simpl; [lia|]. destruct (k <? kb)%Z; lia.
Qed.

Lemma levels_tinsert a k T :
  tmem k T = false →
  levels (tinsert a k T) = Nat.max (levels T) (S (length (anc k T))).
Proof.
  induction T as [|b l IHl kb r IHr]; simpl; [done|].
  destruct (k =? kb)%Z; [done|].
  destruct (k <? kb)%Z; intros H; simpl; [rewrite (IHl H)|rewrite (IHr H)]; lia.
Qed.

Lemma levels_rebuild_at_insert a k : ∀ dep T,
  tmem k T = false → dep < length (anc k T) →
  levels (balance (sub_at dep k (tinsert a k T))) ≤ length (anc k T) - dep →
  levels (rebuild_at dep k (tinsert a k T)) ≤ levels T.
Proof.
  induction dep as [|dep IH]; intros T Hk Hdep Hbal.
  - simpl in *. pose proof (length_anc_le_levels k T). lia.
  - destruct T as [|b l kb r]; [simpl in Hdep; lia|].
    simpl in Hk, Hdep, Hbal |- *.
    destruct (k =? kb)%Z; [done|].
    destruct (k <? kb)%Z eqn:E; simpl in Hdep, Hbal |- *; rewrite E in *.
    + specialize (IH l Hk ltac:(lia) Hbal). simpl. lia.
    + specialize (IH r Hk ltac:(lia) Hbal). simpl. lia.
Qed.

Lemma sg_steps_stop a : ∀ rest s idx,
  Forall (λ x, x ≠ Leaf) (s :: rest) →
  sg_steps a s rest idx < length rest →
  deepH a (tsize (nth (sg_steps a s rest idx) (s :: rest) Leaf))
    < idx + sg_steps a s rest idx.
Proof.
  induction rest as [|p rest IH]; intros s idx Hne; simpl; [lia|].
  apply Forall_cons in Hne as [Hs Hne].
  rewrite (deepH_Some a (tsize s)) by (by apply tsize_pos).
  destruct (deepH a (tsize s) <? idx) eqn:E'.
  - intros _. apply Nat.ltb_lt in E'. simpl. lia.
  - intros H. specialize (IH p (S idx) Hne ltac:(lia)). simpl in *. lia.
Qed.


Lemma levels_delete_min : ∀ l a k r,
  levels (delete_min a l k r).2 ≤ levels (Br a l k r).
Proof.
  induction l as [|la ll IHl lk lr _]; intros a k r; simpl; [lia|].
  specialize (IHl la lk lr). destruct (delete_min la ll lk lr) as [m l'].
  simpl in *. lia.
Qed.

Lemma levels_delete_max : ∀ r a l k,
  levels (delete_max a l k r).2 ≤ levels (Br a l k r).
Proof.
  induction r as [|ra rl _ rk rr IHr]; intros a l k; simpl; [lia|].
  specialize (IHr ra rl rk). destruct (delete_max ra rl rk rr) as [m r'].
  simpl in *. lia.
Qed.

Lemma levels_remove_root succ T : levels (remove_root succ T) ≤ levels T.
Proof.
  destruct T as [|a l k r]; [done|].
  destruct l as [|la ll lk lr]; [|destruct r as [|ra rl rk rr]].
  - simpl. lia.
  - simpl. lia.
  - unfold remove_root. destruct succ.
    + pose proof (levels_delete_min rl ra rk rr) as H.
      destruct (delete_min ra rl rk rr) as [m r']. simpl in *. lia.
    + pose proof (levels_delete_max lr la ll lk) as H.
      destruct (delete_max la ll lk lr) as [m l']. simpl in *. lia.
Qed.

Lemma levels_tremove succ k T : levels (tremove succ k T) ≤ levels T.
Proof.
  induction T as [|a l IHl kb r IHr]; [done|].
  cbn [tremove]. destruct (k =? kb)%Z; [apply levels_remove_root|].
  destruct (k <? kb)%Z; simpl; lia.
Qed.

(** ** The invariant of the tree object *)

Lemma alpha_self_le a n : valid_alpha a → size_ge_alpha_maxSize a n n = true.
Proof.
  intros [H1 H2]. apply size_ge_alpha_maxSize_iff.
  pose proof (inject_nat_nonneg n).
  rewrite <- (Qmult_1_l (inject_Z (Z.of_nat n))) at 2.
  apply Qmult_le_compat_r; [lra|done].
Qed.

Lemma ctor_valid_alpha a t : ScapegoatTree_ctor a = inr t → valid_alpha a.
Proof.
  unfold ScapegoatTree_ctor. destruct (_ || _) eqn:E; [done|]. intros _.
  apply orb_false_elim in E as [E1 E2]. unfold kMinAlpha, kMaxAlpha in *.
  split; apply Qnot_le_lt; intros H%Qle_bool_iff; congruence.
Qed.

Lemma Inv_ctor a t : ScapegoatTree_ctor a = inr t → Inv t Leaf.
Proof.
  intros E. pose proof (ctor_valid_alpha a t E) as Ha.
  unfold ScapegoatTree_ctor in E. destruct (_ || _); [done|]. injection E as <-.
  split; try done.
  - split; try done; simpl.
    + constructor.
    + intros a' [x Hx]. by rewrite lookup_empty in Hx.
  - simpl. by apply alpha_self_le.
Qed.

Lemma insert_rebuild_depth_lt al a k T dep :
  insert_rebuild_depth al a k T = Some dep → dep < length (anc k T).
Proof.
  unfold insert_rebuild_depth.
  destruct (getAlphaDeepHeight _ _); [|done].
  destruct (_ && _) eqn:E; [|done]. apply andb_prop in E as [E1%Nat.leb_le _].
  destruct (rev _); [done|]. intros [= <-]. lia.
Qed.

Lemma Inv_insert t T k :
  Inv t T → tmem k T = false →
  let a := fresh (dom (heap t)) in
  ∃ t',
    insert k t = Some (true, t')
    ∧ Inv t' (insert_tree (alpha t) a k T)
    ∧ alpha t' = alpha t ∧ replaceWithSucc t' = replaceWithSucc t
    ∧ size t' = S (size t)
    ∧ keys (insert_tree (alpha t) a k T) ≡ₚ k :: keys T.
Proof.
  intros [HR Hbst Hal Hmax Hratio Hh] Hk a.
  destruct (insert_spec_absent t T k HR Hk) as (h' & E & HR'). fold a in E, HR'.
  eexists. split; [exact E|].
  set (T1 := tinsert a k T).
  assert (tsize T1 = S (tsize T)) as Hsz1 by (by apply tsize_tinsert).
  pose proof (rep_size _ _ HR) as Hsz.
  assert (keys (insert_tree (alpha t) a k T) ≡ₚ k :: keys T) as Hkeys.
  { unfold insert_tree. destruct (insert_rebuild_depth _ _ _ _).
    - rewrite keys_rebuild_at. by apply keys_tinsert.
    - by apply keys_tinsert. }
  assert (bst T1) as Hbst1 by (by apply bst_tinsert).
  split; [|done]. split; cbn [alpha size maxSize]; try done.
  - unfold insert_tree. destruct (insert_rebuild_depth _ _ _ _); [|done].
    eapply bst_keys_eq; [apply keys_rebuild_at|done].
  - unfold insert_maxSize. rewrite Hsz.
    destruct (insert_rebuild_depth _ _ _ _) as [[|?]|]; [lia| |];
      destruct (maxSize t <? S (tsize T)) eqn:E'; try lia;
      apply Nat.ltb_ge in E'; lia.
  - unfold insert_maxSize. rewrite Hsz.
    assert (size_ge_alpha_maxSize (alpha t) (S (tsize T))
              (if maxSize t <? S (tsize T) then S (tsize T) else maxSize t) = true).
    { destruct (maxSize t <? S (tsize T)); [by apply alpha_self_le|].
      apply size_ge_alpha_maxSize_iff. apply size_ge_alpha_maxSize_iff in Hratio.
      rewrite Hsz in Hratio. eapply Qle_trans; [exact Hratio|].
      rewrite <- Zle_Qle. lia. }
    destruct (insert_rebuild_depth _ _ _ _) as [[|?]|]; [by apply alpha_self_le|done|done].
  - (* the height bound *)
    intros Hne. unfold insert_tree, insert_maxSize in *.
    set (m1 := if maxSize t <? S (tsize T) then S (tsize T) else maxSize t).
    assert (S (tsize T) ≤ m1 ∧ maxSize t ≤ m1) as [Hm1 Hm1'].
    { unfold m1. destruct (maxSize t <? S (tsize T)) eqn:E'; [apply Nat.ltb_lt in E'|apply Nat.ltb_ge in E']; lia. }
    assert (T ≠ Leaf → levels T ≤ S (deepH (alpha t) m1)) as HhT.
    { intros HT. specialize (Hh HT). 
      assert (maxSize t ≠ 0). { pose proof (tsize_pos T HT). lia. }
      pose proof (deepH_mono (alpha t) (maxSize t) m1 Hal ltac:(done) Hm1'). lia. }
    destruct (insert_rebuild_depth (alpha t) a k T) as [dep|] eqn:Hdep.
    + pose proof (insert_rebuild_depth_lt _ _ _ _ _ Hdep) as Hlt.
      destruct dep as [|dep].
      * (* rebuilt from the root *)
        simpl rebuild_at. fold T1. rewrite <- Hsz1. apply levels_balance_deepH; [done|].
        unfold T1. by destruct T; simpl; try destruct (_ =? _)%Z; try destruct (_ <? _)%Z.
      * (* rebuilt below the root *)
        assert (T ≠ Leaf) as HT by (intros ->; simpl in Hlt; lia).
        etransitivity; [|by apply HhT].
        apply levels_rebuild_at_insert; [done|done|].
        (* the scapegoat is deep for its size *)
        unfold insert_rebuild_depth in Hdep.
        destruct (getAlphaDeepHeight (alpha t) (S (tsize T))) as [deep|]; [|done].
        destruct (_ && _) eqn:Etr; [|done].
        destruct (rev (anc k (tinsert a k T))) as [|s rest] eqn:Hrev; [done|].
        injection Hdep as Hdep. fold T1 in Hrev.
        assert (length (anc k T1) = length (anc k T)) as Hlen1.
        { unfold T1. rewrite <- (length_fmap ptr_of), anc_tinsert, length_fmap by done. done. }
        assert (S (length rest) = length (anc k T)) as Hlrest.
        { rewrite <- Hlen1, <- (length_rev (anc k T1)), Hrev. done. }
        pose proof (sg_steps_le (alpha t) rest s 1) as Hj.
        set (j := sg_steps (alpha t) s rest 1) in *.
        assert (Forall (λ x, x ≠ Leaf) (s :: rest)) as Hnl.
        { rewrite <- Hrev. apply Forall_forall. intros x Hx.
          apply (proj1 (elem_of_rev _ _)) in Hx. by apply anc_not_Leaf in Hx. }
        pose proof (sg_steps_stop (alpha t) rest s 1 Hnl ltac:(fold j; lia)) as Hstop.
        fold j in Hstop.
        pose proof (rev_anc_nth k T1 s rest j Hrev Hj) as Hnth.
        replace (length rest - j) with (S dep) in Hnth by lia.
        rewrite Hnth in Hstop. fold T1.
        assert (sub_at (S dep) k T1 ≠ Leaf) as Hsub.
        { rewrite <- Hnth. rewrite Forall_forall in Hnl. apply Hnl.
          apply list_elem_of_In. apply nth_In. simpl. lia. }
        pose proof (levels_balance_deepH (alpha t) _ Hal Hsub). lia.
    + fold T1. unfold T1. rewrite levels_tinsert by done.
      apply Nat.max_lub.
      * destruct (decide (T = Leaf)) as [->|HT]; [simpl; lia|]. by apply HhT.
      * unfold insert_rebuild_depth in Hdep.
        rewrite (deepH_Some (alpha t) (S (tsize T))) in Hdep by done.
        destruct (_ && _) eqn:Etr.
        { destruct (rev (anc k (tinsert a k T))) as [|s rest] eqn:Hrev; [|done].
          apply andb_prop in Etr as [E1%Nat.leb_le _].
          apply (f_equal length) in Hrev. rewrite length_rev in Hrev.
          rewrite <- (length_fmap ptr_of), anc_tinsert, length_fmap in Hrev by done.
          simpl in Hrev. lia. }
        apply andb_false_iff in Etr as [E1|E1].
        -- apply Nat.leb_gt in E1. lia.
        -- apply Nat.ltb_ge in E1. apply le_n_S.
           etransitivity; [exact E1|]. apply deepH_mono; [done|done|lia].
Qed.

Lemma tremove_Leaf_tsize succ k T :
  tmem k T = true → tsize T = S (tsize (tremove succ k T)).
Proof.
  intros Hk. pose proof (find_sub_tmem k T Hk) as Hf.
  destruct (removed_addr succ (find_sub k T)) as [m|] eqn:Hrem.
  - rewrite !tsize_addrs, (addrs_tremove succ k T m Hrem). done.
  - destruct (find_sub k T) as [|a l kb r]; [done|].
    destruct l, r; simpl in Hrem; try done; by destruct succ.
Qed.

Lemma Inv_remove t T k :
  Inv t T → tmem k T = true →
  ∃ t',
    remove k t = Some (true, t')
    ∧ Inv t' (remove_tree (alpha t) (replaceWithSucc t) k T (maxSize t))
    ∧ alpha t' = alpha t
    ∧ replaceWithSucc t' = xorb (replaceWithSucc t) (two_children (find_sub k T))
    ∧ size t' = size t - 1
    ∧ maxSize t' = remove_maxSize (alpha t) T (maxSize t)
    ∧ keys T ≡ₚ k :: keys (remove_tree (alpha t) (replaceWithSucc t) k T (maxSize t)).
Proof.
  intros [HR Hbst Hal Hmax Hratio Hh] Hk.
  destruct (remove_spec_present t T k HR Hk) as (h' & m & E & HR' & Hrem & Hm).
  eexists. split; [exact E|].
  pose proof (rep_size _ _ HR) as Hsz.
  pose proof (tremove_Leaf_tsize (replaceWithSucc t) k T Hk) as Hsz1.
  set (T1 := tremove (replaceWithSucc t) k T) in *.
  assert (bst T1) as Hbst1 by (by apply bst_tremove).
  assert (keys T ≡ₚ k :: keys (remove_tree (alpha t) (replaceWithSucc t) k T (maxSize t)))
    as Hkeys.
  { unfold remove_tree. fold T1. destruct (size_le_alpha_maxSize _ _ _).
    - rewrite keys_balance. by apply keys_tremove.
    - by apply keys_tremove. }
  split; [|done]. split; cbn [alpha size maxSize]; try done.
  - unfold remove_tree. fold T1. destruct (size_le_alpha_maxSize _ _ _); [|done].
    eapply bst_keys_eq; [apply keys_balance|done].
  - unfold remove_maxSize. rewrite Hsz.
    destruct (size_le_alpha_maxSize _ _ _); lia.
  - unfold remove_maxSize. rewrite Hsz.
    destruct (size_le_alpha_maxSize _ _ _) eqn:Erb; [by apply alpha_self_le|].
    apply size_ge_alpha_maxSize_iff. apply Qlt_le_weak, Qnot_le_lt.
    intros Hc%size_le_alpha_maxSize_iff. congruence.
  - unfold remove_tree, remove_maxSize. fold T1.
    destruct (size_le_alpha_maxSize _ _ _) eqn:Erb.
    + intros Hne.
      assert (T1 ≠ Leaf) as HT1 by (intros E1; rewrite E1 in Hne; done).
      replace (tsize T - 1) with (tsize T1) by lia.
      by apply levels_balance_deepH.
    + intros Hne. pose proof (levels_tremove (replaceWithSucc t) k T). fold T1 in H.
      assert (T ≠ Leaf) as HT by (by apply tmem_not_Leaf in Hk).
      specialize (Hh HT). lia.
Qed.


Lemma search_spec t T k : Rep t T → search k t = Some (tmem k T).
Proof.
  intros HR. unfold search. rewrite (rep_root _ _ HR).
  apply search_loop_spec; [by apply Rep_fuel|by destruct HR].
Qed.



(** ** Sequences of calls *)

Lemma bst_NoDup_keys T : bst T → NoDup (keys T).
Proof.
  rewrite bst_sorted. induction 1 as [|x l Hs IH Hf]; constructor; [|done].
  intros Hx. rewrite Forall_forall in Hf. specialize (Hf x Hx). lia.
Qed.

Lemma tmem_false_keys k T : bst T → tmem k T = false ↔ k ∉ keys T.
Proof.
  intros Hb. rewrite <- (tmem_keys k T Hb). by destruct (tmem k T).
Qed.

Lemma step_Inv o t T :
  Inv t T →
  ∃ b t' T',
    step o t = Some (b, t') ∧ Inv t' T' ∧ alpha t' = alpha t
    ∧ match o with
      | Insert k => b = negb (tmem k T) ∧ ∀ x, x ∈ keys T' ↔ x = k ∨ x ∈ keys T
      | Remove k => b = tmem k T ∧ ∀ x, x ∈ keys T' ↔ x ≠ k ∧ x ∈ keys T
      end.
Proof.
  intros HI. pose proof (inv_bst _ _ HI) as Hbst.
  destruct o as [k|k]; simpl; destruct (tmem k T) eqn:Hk.
  - exists false, t, T. rewrite (insert_spec_present t T k (inv_rep _ _ HI) Hk).
    split_and!; try done. intros x. apply (tmem_keys k T Hbst) in Hk.
    split; [tauto|]. by intros [->|?].
  - destruct (Inv_insert t T k HI Hk) as (t' & E & HI' & Hal & _ & _ & Hkeys).
    eexists true, t', _. split; [done|]. split; [exact HI'|]. split; [done|].
    split; [done|]. intros x. rewrite Hkeys. by rewrite elem_of_cons.
  - destruct (Inv_remove t T k HI Hk) as (t' & E & HI' & Hal & _ & _ & _ & Hkeys).
    eexists true, t', _. split; [done|]. split; [exact HI'|]. split; [done|].
    split; [done|].
    intros x. pose proof (bst_NoDup_keys T Hbst) as Hnd.
    rewrite Hkeys in Hnd. apply NoDup_cons in Hnd as [Hnk _].
    rewrite Hkeys, elem_of_cons. split.
    + intros Hx. split; [|by right]. by intros ->.
    + by intros [? [?|?]].
  - exists false, t, T. rewrite (remove_spec_absent t T k (inv_rep _ _ HI) Hk).
    split_and!; try done. intros x. apply (tmem_false_keys k T Hbst) in Hk.
    split; [|tauto]. intros Hx. split; [|done]. by intros ->.
Qed.

Lemma run_app ops1 : ∀ ops2 t,
  run (ops1 ++ ops2) t =
    '(bs1, t1) ← run ops1 t; '(bs2, t2) ← run ops2 t1; Some (bs1 ++ bs2, t2).
Proof.
  induction ops1 as [|o ops1 IH]; intros ops2 t; simpl.
  - by destruct (run ops2 t) as [[bs2 t2]|].
  - destruct (step o t) as [[b t1]|]; simpl; [|done]. rewrite IH.
    destruct (run ops1 t1) as [[bs1 t1']|]; simpl; [|done].
    by destruct (run ops2 t1') as [[bs2 t2]|].
Qed.

Lemma run_length ops : ∀ t bs t', run ops t = Some (bs, t') → length bs = length ops.
Proof.
  induction ops as [|o ops IH]; intros t bs t'; simpl.
  - by intros [= <- _].
  - destruct (step o t) as [[b t1]|]; simpl; [|done].
    destruct (run ops t1) as [[bs1 t1']|] eqn:E; simpl; [|done].
    intros [= <- _]. simpl. f_equal. by apply (IH t1 bs1 t1').
Qed.

Lemma live_snoc ops bs o b k :
  length bs = length ops →
  live (ops ++ [o]) (bs ++ [b]) k ↔
  (o = Insert k ∧ b = true) ∨ (live ops bs k ∧ ¬ (o = Remove k ∧ b = true)).
Proof.
  intros Hlen. split.
  - intros (i & Ho & Hb & Hlater).
    destruct (decide (i = length ops)) as [->|Hne].
    + left. rewrite list_lookup_middle in Ho by done.
      rewrite list_lookup_middle in Hb by done. by simplify_eq.
    + right. assert (i < length ops) as Hi.
      { apply lookup_lt_Some in Ho. rewrite length_app in Ho. simpl in Ho. lia. }
      rewrite lookup_app_l in Ho by done. rewrite lookup_app_l in Hb by lia.
      split.
      * exists i. split_and!; try done. intros j Hj [Hoj Hbj].
        apply (Hlater j Hj). assert (j < length ops) by (by apply lookup_lt_Some in Hoj).
        rewrite !lookup_app_l by lia. done.
      * intros [-> ->]. apply (Hlater (length ops) Hi).
        split; [by rewrite list_lookup_middle|by rewrite list_lookup_middle].
  - intros [[-> ->]|[(i & Ho & Hb & Hlater) Hlast]].
    + exists (length ops). split_and!.
      * by rewrite list_lookup_middle.
      * by rewrite list_lookup_middle.
      * intros j Hj [Hoj _]. apply lookup_lt_Some in Hoj.
        rewrite length_app in Hoj. simpl in Hoj. lia.
    + assert (i < length ops) as Hi by (by apply lookup_lt_Some in Ho).
      exists i. split_and!.
      * by rewrite lookup_app_l.
      * rewrite lookup_app_l by lia. done.
      * intros j Hj [Hoj Hbj].
        destruct (decide (j = length ops)) as [->|Hne].
        -- rewrite list_lookup_middle in Hoj by done.
           rewrite list_lookup_middle in Hbj by done.
           apply Hlast. by simplify_eq.
        -- assert (j < length ops) as Hjl.
           { apply lookup_lt_Some in Hoj. rewrite length_app in Hoj. simpl in Hoj. lia. }
           rewrite lookup_app_l in Hoj by done. rewrite lookup_app_l in Hbj by lia.
           by apply (Hlater j Hj).
Qed.

(** Every sequence of calls on a fresh tree runs to completion, keeps the
    invariant, and holds exactly the live keys. *)
Lemma run_Inv a t0 ops :
  ScapegoatTree_ctor a = inr t0 →
  ∃ bs t T,
    run ops t0 = Some (bs, t) ∧ Inv t T ∧ alpha t = a
    ∧ ∀ k, k ∈ keys T ↔ live ops bs k.
Proof.
  intros Hctor. induction ops as [|o ops IH] using rev_ind.
  - exists [], t0, Leaf. split; [done|]. split; [by apply (Inv_ctor a)|]. split.
    + unfold ScapegoatTree_ctor in Hctor. destruct (_ || _); [done|]. by injection Hctor as <-.
    + intros k. simpl. split; [by intros ?%elem_of_nil|].
      intros (i & Ho & _). by rewrite lookup_nil in Ho.
  - destruct IH as (bs & t & T & Hrun & HI & Hal & Hkeys).
    destruct (step_Inv o t T HI) as (b & t' & T' & Hstep & HI' & Hal' & Ho).
    exists (bs ++ [b]), t', T'. split_and!; try done.
    + rewrite run_app, Hrun. simpl. by rewrite Hstep.
    + congruence.
    + intros k. pose proof (run_length _ _ _ _ Hrun) as Hlen.
      rewrite (live_snoc ops bs o b k Hlen). rewrite <- Hkeys.
      pose proof (inv_bst _ _ HI) as Hbst.
      destruct o as [k0|k0]; destruct Ho as [-> Hk'].
      * rewrite Hk'. destruct (tmem k0 T) eqn:Hm; simpl.
        -- apply (tmem_keys k0 T Hbst) in Hm. split.
           ++ intros [->|?]; right; (split; [done|by intros [? _]]).
           ++ intros [[_ ?]|[? _]]; [done|by right].
        -- split.
           ++ intros [->|?]; [by left|]. right. split; [done|by intros [? _]].
           ++ intros [[[= ->] _]|[? _]]; [by left|by right].
      * rewrite Hk'. destruct (tmem k0 T) eqn:Hm; simpl.
        -- split.
           ++ intros [? ?]. right. split; [done|]. intros [[= ->] _]. done.
           ++ intros [[? _]|[? Hn]]; [done|]. split; [|done].
              intros ->. by apply Hn.
        -- apply (tmem_false_keys k0 T Hbst) in Hm. split.
           ++ intros [? ?]. right. split; [done|]. by intros [_ ?].
           ++ intros [[? _]|[? _]]; [done|]. split; [|done]. by intros ->.
Qed.

(** Two trees with the same keys answer every sequence of calls alike. *)
Lemma run_obs ops : ∀ t1 T1 t2 T2,
  Inv t1 T1 → Inv t2 T2 → (∀ x, x ∈ keys T1 ↔ x ∈ keys T2) →
  ∃ bs t1' T1' t2' T2',
    run ops t1 = Some (bs, t1') ∧ run ops t2 = Some (bs, t2')
    ∧ Inv t1' T1' ∧ Inv t2' T2' ∧ (∀ x, x ∈ keys T1' ↔ x ∈ keys T2').
Proof.
  induction ops as [|o ops IH]; intros t1 T1 t2 T2 HI1 HI2 Hk.
  - exists [], t1, T1, t2, T2. by split_and!.
  - destruct (step_Inv o t1 T1 HI1) as (b1 & t1' & T1' & Hs1 & HI1' & _ & Ho1).
    destruct (step_Inv o t2 T2 HI2) as (b2 & t2' & T2' & Hs2 & HI2' & _ & Ho2).
    pose proof (inv_bst _ _ HI1) as Hb1. pose proof (inv_bst _ _ HI2) as Hb2.
    assert (∀ k, tmem k T1 = tmem k T2) as Hmem.
    { intros k. destruct (tmem k T1) eqn:E1, (tmem k T2) eqn:E2; try done.
      - apply (tmem_keys k T1 Hb1), Hk, (tmem_keys k T2 Hb2) in E1. congruence.
      - apply (tmem_keys k T2 Hb2), Hk, (tmem_keys k T1 Hb1) in E2. congruence. }
    assert (b1 = b2 ∧ ∀ x, x ∈ keys T1' ↔ x ∈ keys T2') as [<- Hk'].
    { destruct o as [k|k]; destruct Ho1 as [-> H1], Ho2 as [-> H2];
        (split; [by rewrite Hmem|]); intros x; rewrite H1, H2, Hk; done. }
    destruct (IH t1' T1' t2' T2' HI1' HI2' Hk') as
      (bs & u1 & U1 & u2 & U2 & Hr1 & Hr2 & HJ1 & HJ2 & HkU).
    exists (b1 :: bs), u1, U1, u2, U2. simpl. rewrite Hs1, Hs2. simpl.
    rewrite Hr1, Hr2. simpl. by split_and!.
Qed.

(** * The properties of the specification *)

(** ** Auxiliary facts *)

Lemma reach_Inv a t0 ops bs t :
  ScapegoatTree_ctor a = inr t0 → run ops t0 = Some (bs, t) →
  ∃ T, Inv t T ∧ alpha t = a ∧ ∀ k, k ∈ keys T ↔ live ops bs k.
Proof.
  intros Hc Hrun. destruct (run_Inv a t0 ops Hc) as (bs' & t' & T & Hrun' & HI & Ha & Hk).
  rewrite Hrun in Hrun'. injection Hrun' as <- <-. by exists T.
Qed.

Lemma search_true_tmem t T k : Inv t T → search k t = Some true → tmem k T = true.
Proof. intros HI. rewrite (search_spec t T k (inv_rep _ _ HI)). by intros [= ->]. Qed.

Lemma search_false_tmem t T k : Inv t T → search k t = Some false → tmem k T = false.
Proof. intros HI. rewrite (search_spec t T k (inv_rep _ _ HI)). by intros [= ->]. Qed.

Lemma Inv_search_keys t1 T1 t2 T2 x :
  Inv t1 T1 → Inv t2 T2 → (∀ y, y ∈ keys T1 ↔ y ∈ keys T2) →
  search x t1 = search x t2.
Proof.
  intros H1 H2 Hk.
  rewrite (search_spec _ _ x (inv_rep _ _ H1)), (search_spec _ _ x (inv_rep _ _ H2)).
  f_equal. destruct (tmem x T2) eqn:E.
  - apply (tmem_keys _ _ (inv_bst _ _ H1)), Hk, (tmem_keys _ _ (inv_bst _ _ H2)), E.
  - apply (tmem_false_keys _ _ (inv_bst _ _ H1)). rewrite Hk.
    apply (tmem_false_keys _ _ (inv_bst _ _ H2)), E.
Qed.

Lemma Rep_Leaf_heap t : Rep t Leaf → heap t = ∅ ∧ root t = None ∧ size t = 0.
Proof.
  intros HR. split; [|split; [apply (rep_root _ _ HR)|apply (rep_size _ _ HR)]].
  apply map_empty. intros i. destruct (heap t !! i) eqn:E; [|done].
  assert (i ∈ addrs Leaf) as Hi by (apply (rep_exact _ _ HR); by eexists).
  simpl in Hi. by apply elem_of_nil in Hi.
Qed.

Lemma split_balanced_sizes_close T : split_balanced T → sizes_close T.
Proof.
  induction T as [|a l IHl k r IHr]; [done|].
  intros (Hsl & Hsr & Hbl & Hbr). simpl tsize in *.
  split; [by apply split_balanced_sizes|]. split; auto.
Qed.





Lemma models_find_sub h k T : models h T → models h (find_sub k T).
Proof.
  induction T as [|a l IHl kb r IHr]; [done|]. intros Hm. cbn [find_sub].
  destruct (k =? kb)%Z; [done|]. destruct Hm as (_ & Hl & Hr).
  destruct (k <? kb)%Z; auto.
Qed.

Lemma find_sub_key k T a l kb r : find_sub k T = Br a l kb r → kb = k.
Proof.
  induction T as [|b tl IHl tk tr IHr]; [done|]. cbn [find_sub].
  destruct (k =? tk)%Z eqn:E.
  - intros [= -> -> -> ->]. symmetry. by apply Z.eqb_eq.
  - destruct (k <? tk)%Z; auto.
Qed.

Lemma models_nodes h T a k :
  models h T → (a, k) ∈ nodes T → ∃ n, h !! a = Some n ∧ key n = k.
Proof.
  induction T as [|b l IHl kb r IHr]; simpl; [by intros _ ?%elem_of_nil|].
  intros (Hb & Hl & Hr) Hin. apply elem_of_app in Hin as [Hin|Hin]; [by apply IHl|].
  apply elem_of_cons in Hin as [[= -> ->]|Hin]; [|by apply IHr].
  by eexists.
Qed.

(** The leftmost cell has no left child, the rightmost no right child. *)
Lemma delete_min_cell h : ∀ l a k r,
  models h (Br a l k r) →
  ∃ mn, h !! (delete_min a l k r).1.1 = Some mn
        ∧ key mn = (delete_min a l k r).1.2 ∧ left mn = None.
Proof.
  induction l as [|la ll IHl lk lr _]; intros a k r (Ha & Hl & Hr); simpl.
  - by eexists.
  - specialize (IHl la lk lr Hl). by destruct (delete_min la ll lk lr) as [m l'].
Qed.

Lemma delete_max_cell h : ∀ r a l k,
  models h (Br a l k r) →
  ∃ mn, h !! (delete_max a l k r).1.1 = Some mn
        ∧ key mn = (delete_max a l k r).1.2 ∧ right mn = None.
Proof.
  induction r as [|ra rl _ rk rr IHr]; intros a l k (Ha & Hl & Hr); simpl.
  - by eexists.
  - specialize (IHr ra rl rk Hr). by destruct (delete_max ra rl rk rr) as [m r'].
Qed.

(** Removal at a node with two children, on the in-order list of cells:
    the neighbour [m] of [c] disappears and [c] takes its key. *)
Lemma nodes_remove_root_two succ c l kx r :
  two_children (Br c l kx r) = true →
  ∃ m mk pre post,
    removed_addr succ (Br c l kx r) = Some m
    ∧ nodes (remove_root succ (Br c l kx r)) = pre ++ (c, mk) :: post
    ∧ nodes (Br c l kx r)
      = (if succ then pre ++ (c, kx) :: (m, mk) :: post
         else pre ++ (m, mk) :: (c, kx) :: post)
    ∧ ∀ h, models h (Br c l kx r) →
        ∃ mn, h !! m = Some mn ∧ key mn = mk
              ∧ if succ then left mn = None else right mn = None.
Proof.
  destruct l as [|la ll lk lr]; [done|]. destruct r as [|ra rl rk rr]; [done|].
  intros _. destruct succ.
  - pose proof (nodes_delete_min rl ra rk rr) as Hn.
    pose proof (delete_min_cell) as Hc. specialize (λ h, Hc h rl ra rk rr).
    cbn [removed_addr remove_root].
    destruct (delete_min ra rl rk rr) as [[m mk] r']. simpl in Hn, Hc.
    exists m, mk, (nodes (Br la ll lk lr)), (nodes r').
    split; [done|]. split; [done|]. split.
    + cbn [nodes] in Hn |- *. by rewrite Hn.
    + intros h (_ & _ & Hr). by apply Hc.
  - pose proof (nodes_delete_max lr la ll lk) as Hn.
    pose proof (delete_max_cell) as Hc. specialize (λ h, Hc h lr la ll lk).
    cbn [removed_addr remove_root].
    destruct (delete_max la ll lk lr) as [[m mk] l']. simpl in Hn, Hc.
    exists m, mk, (nodes l'), (nodes (Br ra rl rk rr)).
    split; [done|]. split; [done|]. split.
    + cbn [nodes] in Hn |- *. rewrite Hn. by rewrite <- app_assoc.
    + intros h (_ & Hl & _). by apply Hc.
Qed.

Lemma nodes_tremove_two succ k : ∀ T,
  two_children (find_sub k T) = true →
  ∃ c m mk pre post,
    ptr_of (find_sub k T) = Some c
    ∧ removed_addr succ (find_sub k T) = Some m
    ∧ nodes (tremove succ k T) = pre ++ (c, mk) :: post
    ∧ nodes T
      = (if succ then pre ++ (c, k) :: (m, mk) :: post
         else pre ++ (m, mk) :: (c, k) :: post)
    ∧ ∀ h, models h T →
        ∃ mn, h !! m = Some mn ∧ key mn = mk
              ∧ if succ then left mn = None else right mn = None.
Proof.
  induction T as [|a l IHl kb r IHr]; [done|]. cbn [find_sub tremove].
  destruct (k =? kb)%Z eqn:E.
  - apply Z.eqb_eq in E as ->. intros Htc.
    destruct (nodes_remove_root_two succ a l kb r Htc) as (m & mk & pre & post & H).
    by exists a, m, mk, pre, post.
  - destruct (k <? kb)%Z.
    + intros Htc. destruct (IHl Htc) as (c & m & mk & pre & post & Hp & Hr & Hn & Hn' & Hc).
      exists c, m, mk, pre, (post ++ (a, kb) :: nodes r).
      split; [done|]. split; [done|]. cbn [nodes]. rewrite Hn, Hn'.
      split; [by rewrite <- app_assoc|]. split.
      * destruct succ; by rewrite <- app_assoc.
      * intros h (_ & Hl & _). by apply Hc.
    + intros Htc. destruct (IHr Htc) as (c & m & mk & pre & post & Hp & Hr & Hn & Hn' & Hc).
      exists c, m, mk, (nodes l ++ (a, kb) :: pre), post.
      split; [done|]. split; [done|]. cbn [nodes]. rewrite Hn, Hn'.
      split; [by rewrite <- app_assoc|]. split.
      * destruct succ; by rewrite <- app_assoc.
      * intros h (_ & _ & Hr'). by apply Hc.
Qed.

(** The flag after one call: only a removal at a node with two children
    changes it. *)
Lemma step_flag o t T b u :
  Inv t T → step o t = Some (b, u) →
  replaceWithSucc u
  = xorb (replaceWithSucc t)
      (match o with
       | Remove k => two_children (find_sub k T)
       | Insert _ => false
       end).
Proof.
  intros HI. pose proof (inv_rep _ _ HI) as HR. destruct o as [k|k]; simpl.
  - destruct (tmem k T) eqn:Hk.
    + rewrite (insert_spec_present t T k HR Hk). intros [= _ <-].
      by destruct (replaceWithSucc t).
    + destruct (Inv_insert t T k HI Hk) as (t' & E & _ & _ & Hf & _).
      rewrite E. intros [= _ <-]. rewrite Hf. by destruct (replaceWithSucc t).
  - destruct (tmem k T) eqn:Hk.
    + destruct (Inv_remove t T k HI Hk) as (t' & E & _ & _ & Hf & _).
      rewrite E. by intros [= _ <-].
    + rewrite (remove_spec_absent t T k HR Hk). intros [= _ <-].
      rewrite (find_sub_not_tmem k T Hk). by destruct (replaceWithSucc t).
Qed.

(** ** Construction *)


(** ** Rebuilding a subtree *)

(** C4: flattening the subtree [S] in front of the dummy cell [d] gives the
    right-linked chain of its cells in in-order, and buildTree on that chain
    with the size of [S] returns the dummy, whose left child is a tree [B] of
    the same cells with the same in-order traversal, in which every split
    gives the left side the ceiling and the right side the floor of half the
    remaining nodes, so that sibling sizes differ by at most one. *)
Theorem flatten_buildTree_rebuilds (h : gmap nat Node) (S : tree) (d : nat) :
  models h S → NoDup (addrs S) → d ∉ addrs S →
  h !! d = Some (mkNode (-1) None None) →
  ∃ nl h1 h2 B,
    flatten (Datatypes.S (base.size h)) h (ptr_of S) (Some d) = Some (nl, h1)
    ∧ nl = head_ptr (nodes S) (Some d)
    ∧ chain h1 (nodes S) (Some d)
    ∧ buildTree (Datatypes.S (tsize S)) h1 (tsize S) nl = Some (Some d, h2)
    ∧ h2 !! d = Some (mkNode (-1) (ptr_of B) None)
    ∧ models h2 B
    ∧ nodes B = nodes S
    ∧ keys B = keys S
    ∧ tsize B = tsize S
    ∧ split_balanced B
    ∧ sizes_close B.
Proof.
  intros Hm Hnd HdS Hd.
  assert (levels S < Datatypes.S (base.size h)) as Hfuel.
  { pose proof (levels_le_tsize S). pose proof (models_size _ _ Hm Hnd). lia. }
  destruct (flatten_spec S _ h (Some d) Hfuel Hm Hnd) as (h1 & E1 & C1 & F1).
  assert (h1 !! d = Some (mkNode (-1) None None)) as Hd1 by (by rewrite F1).
  assert (chain h1 (nodes S ++ [(d, (-1)%Z)]) None) as C1'.
  { apply chain_app; [done|]. simpl. split; [|done]. eexists. split; [exact Hd1|done]. }
  destruct (buildTree_spec (Datatypes.S (tsize S)) (tsize S) h1 (nodes S) (d, (-1)%Z) None)
    as (h2 & nd & B & M & L & Ll & Lk & Lr & F2).
  { lia. }
  { by rewrite tsize_nodes. }
  { rewrite fmap_app, <- addrs_nodes. simpl. apply NoDup_app. split_and!; [done| |].
    - intros x Hx Hx'. apply list_elem_of_singleton in Hx'. by subst.
    - apply NoDup_singleton. }
  { done. }
  rewrite head_ptr_app in B. simpl in B, L, Lk.
  exists (head_ptr (nodes S) (Some d)), h1, h2, (balance S).
  split_and!; try done.
  - rewrite L. f_equal. destruct nd as [k l r]. simpl in *. by subst.
  - apply nodes_balance.
  - apply keys_balance.
  - apply tsize_balance.
  - apply split_balanced_balance.
  - apply split_balanced_sizes_close, split_balanced_balance.
Qed.

Lemma flatten_buildTree_rebuilds_witness :
  models rebuild_example_heap rebuild_example_tree
  ∧ NoDup (addrs rebuild_example_tree)
  ∧ (9 ∉ addrs rebuild_example_tree)
  ∧ rebuild_example_heap !! 9 = Some (mkNode (-1) None None)
  ∧ ∃ nl h1 h2 B,
      flatten (S (base.size rebuild_example_heap)) rebuild_example_heap
        (ptr_of rebuild_example_tree) (Some 9) = Some (nl, h1)
      ∧ nl = head_ptr (nodes rebuild_example_tree) (Some 9)
      ∧ chain h1 (nodes rebuild_example_tree) (Some 9)
      ∧ buildTree (S (tsize rebuild_example_tree)) h1 (tsize rebuild_example_tree) nl
        = Some (Some 9, h2)
      ∧ h2 !! 9 = Some (mkNode (-1) (ptr_of B) None)
      ∧ models h2 B
      ∧ nodes B = nodes rebuild_example_tree
      ∧ keys B = keys rebuild_example_tree
      ∧ tsize B = tsize rebuild_example_tree
      ∧ split_balanced B
      ∧ sizes_close B.
Proof.
  assert (models rebuild_example_heap rebuild_example_tree) as Hm.
  { vm_compute. repeat split. }
  assert (NoDup (addrs rebuild_example_tree)) as Hnd.
  { apply (bool_decide_unpack _). vm_compute. reflexivity. }
  assert (9 ∉ addrs rebuild_example_tree) as Hd.
  { apply (bool_decide_unpack _). vm_compute. reflexivity. }
  assert (rebuild_example_heap !! 9 = Some (mkNode (-1) None None)) as Hc.
  { vm_compute. reflexivity. }
  split; [exact Hm|]. split; [exact Hnd|]. split; [exact Hd|]. split; [exact Hc|].
  exact (flatten_buildTree_rebuilds rebuild_example_heap rebuild_example_tree 9
           Hm Hnd Hd Hc).
Defined.

(** ** Any sequence of calls on a freshly constructed tree *)

(** C1: after any sequence of insert and remove calls on a freshly
    constructed tree, every call has returned, and search(k) is true exactly
    for the keys k whose most recent successful insert has not been followed
    by a successful remove, and false for every other key. *)
Theorem membership_correct (a : Q) (t0 : ScapegoatTree) (ops : list op) :
  ScapegoatTree_ctor a = inr t0 →
  ∃ bs t,
    run ops t0 = Some (bs, t)
    ∧ ∀ k, (live ops bs k → search k t = Some true)
           ∧ (¬ live ops bs k → search k t = Some false).
Proof.
  intros Hc. destruct (run_Inv a t0 ops Hc) as (bs & t & T & Hrun & HI & Ha & Hk).
  exists bs, t. split; [done|]. intros k.
  rewrite (search_spec t T k (inv_rep _ _ HI)). rewrite <- Hk.
  pose proof (inv_bst _ _ HI) as Hbst.
  split; intros H.
  - by apply (tmem_keys k T Hbst) in H as ->.
  - by apply (tmem_false_keys k T Hbst) in H as ->.
Qed.

Lemma membership_correct_witness :
  ScapegoatTree_ctor (3 # 5) = inr (mkTree ∅ None 0 0 (3 # 5) true)
  ∧ ∃ bs t,
      run [Insert 5; Insert 3; Insert 5; Remove 5; Remove 7; Insert 9]%Z
        (mkTree ∅ None 0 0 (3 # 5) true) = Some (bs, t)
      ∧ ∀ k, (live [Insert 5; Insert 3; Insert 5; Remove 5; Remove 7; Insert 9]%Z bs k
              → search k t = Some true)
             ∧ (¬ live [Insert 5; Insert 3; Insert 5; Remove 5; Remove 7; Insert 9]%Z bs k
                → search k t = Some false).
Proof.
  split; [reflexivity|]. apply (membership_correct (3 # 5)). reflexivity.
Defined.




(** ** One more call on a reachable tree *)

Section Reachable.

(** The tree [t] is what some sequence of calls [ops], with results [bs],
    has made of the freshly constructed tree [t0]. *)
Variables (a : Q) (t0 : ScapegoatTree) (ops : list op) (bs : list bool).
Variable t : ScapegoatTree.
Hypothesis Hc : ScapegoatTree_ctor a = inr t0.
Hypothesis Hrun : run ops t0 = Some (bs, t).

(** C7: on a tree built by any sequence of calls, insert of a key that is
    present returns false and leaves the whole state unchanged, remove of a
    key that is absent returns false and leaves the whole state unchanged,
    and a remove that succeeded is followed by a remove of the same key that
    returns false. *)
Theorem failed_calls_change_nothing (k : Z) :
  (search k t = Some true → insert k t = Some (false, t))
  ∧ (search k t = Some false → remove k t = Some (false, t))
  ∧ (∀ t', remove k t = Some (true, t') → remove k t' = Some (false, t')).
Proof.
  destruct (reach_Inv a t0 ops bs t Hc Hrun) as (T & HI & _ & _).
  pose proof (inv_rep _ _ HI) as HR. pose proof (inv_bst _ _ HI) as Hbst.
  split_and!.
  - intros Hs. apply (insert_spec_present t T k HR). by apply (search_true_tmem t T).
  - intros Hs. apply (remove_spec_absent t T k HR). by apply (search_false_tmem t T).
  - intros t' Hrem. destruct (tmem k T) eqn:Hk.
    + destruct (Inv_remove t T k HI Hk) as (t'' & E & HI' & _ & _ & _ & _ & Hkeys).
      rewrite E in Hrem. injection Hrem as <-.
      apply (remove_spec_absent _ _ k (inv_rep _ _ HI')).
      apply tmem_false_keys; [apply HI'|].
      pose proof (bst_NoDup_keys T Hbst) as Hnd. rewrite Hkeys in Hnd.
      by apply NoDup_cons in Hnd as [? _].
    + rewrite (remove_spec_absent t T k HR Hk) in Hrem. done.
Qed.




(** C6: when remove finds its key in a node [c] with two children, the
    call succeeds and negates replaceWithSucc; with the flag set, the cell
    [m] that follows [c] in the in-order traversal (the successor, which has
    no left child) is unlinked and freed and [c] receives its key; with the
    flag unset the same happens with the cell that precedes [c] (the
    predecessor, which has no right child).  Every later call leaves the
    flag as it is, except a removal at a node with two children, which
    negates it again. *)
Theorem two_children_removal (k : Z)
    (prev : option nat) (c : nat) (cn : Node) (lc rc : nat) :
  remove_find (S (base.size (heap t))) (heap t) k None (root t)
    = Some (Some (prev, c)) →
  heap t !! c = Some cn → left cn = Some lc → right cn = Some rc →
  ∃ T t' m mn cn' pre post,
    let T' := remove_tree (alpha t) (replaceWithSucc t) k T (maxSize t) in
    Rep t T ∧ key cn = k
    ∧ remove k t = Some (true, t') ∧ Rep t' T'
    ∧ replaceWithSucc t' = negb (replaceWithSucc t)
    ∧ heap t !! m = Some mn
    ∧ (if replaceWithSucc t
       then nodes T = pre ++ (c, k) :: (m, key mn) :: post ∧ left mn = None
       else nodes T = pre ++ (m, key mn) :: (c, k) :: post ∧ right mn = None)
    ∧ nodes T' = pre ++ (c, key mn) :: post
    ∧ heap t' !! m = None
    ∧ heap t' !! c = Some cn' ∧ key cn' = key mn
    ∧ ∀ o b u, step o t' = Some (b, u) →
        replaceWithSucc u
        = xorb (replaceWithSucc t')
            (match o with
             | Remove k' => two_children (find_sub k' T')
             | Insert _ => false
             end).
Proof.
  intros Hfind Hcn Hl Hr.
  destruct (reach_Inv a t0 ops bs t Hc Hrun) as (T & HI & _ & _).
  pose proof (inv_rep _ _ HI) as HR.
  pose proof (remove_find_spec T (S (base.size (heap t))) (heap t) k None
                (Rep_fuel _ _ HR) (rep_models _ _ HR)) as Hsp.
  rewrite <- (rep_root _ _ HR), Hfind in Hsp.
  destruct (ptr_of (find_sub k T)) as [c'|] eqn:Hptr; [|done].
  injection Hsp as _ Hcc. subst c'.
  pose proof (models_find_sub (heap t) k T (rep_models _ _ HR)) as Hms.
  destruct (models_root _ _ _ Hms Hptr) as (l & kk & r & HX & Hcell).
  pose proof (find_sub_key k T _ _ _ _ HX) as ->.
  rewrite Hcn in Hcell. injection Hcell as ->. simpl in Hl, Hr.
  assert (two_children (find_sub k T) = true) as Htc.
  { rewrite HX. by destruct l, r. }
  assert (tmem k T = true) as Hk.
  { destruct (tmem k T) eqn:Hk; [done|].
    by rewrite (find_sub_not_tmem k T Hk) in HX. }
  destruct (Inv_remove t T k HI Hk) as (t' & E & HI' & _ & Hf & _).
  destruct (remove_spec_present t T k HR Hk) as (h' & m & E' & _ & Hrem & Hm).
  rewrite E in E'. injection E' as E'.
  destruct (nodes_tremove_two (replaceWithSucc t) k T Htc)
    as (c2 & m' & mk & pre & post & Hp' & Hrem' & Hn & Hn' & Hcell).
  rewrite Hptr in Hp'. injection Hp' as <-.
  rewrite Hrem in Hrem'. injection Hrem' as <-.
  destruct (Hcell (heap t) (rep_models _ _ HR)) as (mn & Hmn & Hkey & Hside).
  subst mk.
  assert (nodes (remove_tree (alpha t) (replaceWithSucc t) k T (maxSize t))
          = pre ++ (c, key mn) :: post) as HnT'.
  { unfold remove_tree. destruct (size_le_alpha_maxSize _ _ _); [|done].
    by rewrite nodes_balance. }
  destruct (models_nodes (heap t') _ c (key mn) (rep_models _ _ (inv_rep _ _ HI')))
    as (cn' & Hcn' & Hkcn').
  { rewrite HnT'. apply elem_of_app. right. apply elem_of_cons. by left. }
  exists T, t', m, mn, cn', pre, post. cbv zeta.
  split; [done|]. split; [done|]. split; [done|]. split; [apply HI'|].
  split; [by rewrite Hf, Htc; destruct (replaceWithSucc t)|].
  split; [done|]. split; [by destruct (replaceWithSucc t)|].
  split; [done|]. split; [by rewrite E'|]. split; [done|]. split; [done|].
  intros o b u Hstep. by apply (step_flag o t' _ b u HI').
Qed.

(** C10: removing the last key takes the rebuild branch, flatten of the
    empty subtree returns the list head with the heap untouched, buildTree of
    size 0 only clears the left child of the head, and the result is the
    empty tree with root none, size 0 and maxSize 0 and no cell left; every
    later sequence of calls returns what it returns on a freshly constructed
    tree, and every search afterwards agrees. *)
Theorem remove_last_key (k : Z) :
  size t = 1 → search k t = Some true →
  size_le_alpha_maxSize (alpha t) (size t - 1) (maxSize t) = true
  ∧ (∀ fuel h lh, flatten (S fuel) h None lh = Some (lh, h))
  ∧ (∀ fuel h c n, h !! c = Some n →
       buildTree (S fuel) h 0 (Some c) = Some (Some c, <[c := set_left n None]> h))
  ∧ remove k t = Some (true, mkTree ∅ None 0 0 a (replaceWithSucc t))
  ∧ ∀ ops', ∃ bs' u u',
      run ops' (mkTree ∅ None 0 0 a (replaceWithSucc t)) = Some (bs', u)
      ∧ run ops' t0 = Some (bs', u')
      ∧ ∀ x, search x u = search x u'.
Proof.
  intros Hsz Hs.
  destruct (reach_Inv a t0 ops bs t Hc Hrun) as (T & HI & Ha & _).
  pose proof (search_true_tmem t T k HI Hs) as Hk.
  pose proof (rep_size _ _ (inv_rep _ _ HI)) as HszT.
  assert (size_le_alpha_maxSize (alpha t) (size t - 1) (maxSize t) = true) as Hrb.
  { apply size_le_alpha_maxSize_iff. rewrite Hsz. simpl.
    pose proof (inv_alpha _ _ HI) as [H1 H2].
    pose proof (inject_nat_nonneg (maxSize t)).
    apply Qmult_le_0_compat; [lra|done]. }
  destruct (Inv_remove t T k HI Hk) as (t' & E & HI' & Ha' & Hf' & Hsz' & Hm' & _).
  unfold remove_tree, remove_maxSize in *. rewrite <- HszT, Hrb in *.
  assert (tremove (replaceWithSucc t) k T = Leaf) as HL.
  { pose proof (tsize_balance (tremove (replaceWithSucc t) k T)) as Hb.
    pose proof (rep_size _ _ (inv_rep _ _ HI')) as Hs'. rewrite Hsz', Hsz, Hb in Hs'.
    destruct (tremove _ k T); [done|]. simpl in Hs'. lia. }
  rewrite HL in HI'. simpl in HI'.
  destruct (Rep_Leaf_heap t' (inv_rep _ _ HI')) as (Hh & Hr & _).
  assert (two_children (find_sub k T) = false) as Htc.
  { destruct T as [|x l kx r]; [done|]. simpl in HszT.
    destruct l, r; simpl in HszT; try lia. simpl in *.
    destruct (k =? kx)%Z; [done|]. by destruct (k <? kx)%Z. }
  assert (t' = mkTree ∅ None 0 0 a (replaceWithSucc t)) as ->.
  { destruct t' as [h r s m al f]. simpl in *. subst.
    rewrite Htc, Hsz. by destruct (replaceWithSucc t). }
  split; [done|]. split; [done|].
  split. { intros fuel h c n Hn. simpl. by rewrite Hn. }
  split; [done|]. intros ops'.
  pose proof (Inv_ctor a t0 Hc) as HI0.
  destruct (run_obs ops' _ Leaf t0 Leaf HI' HI0) as (bs' & u & U & u' & U' & R1 & R2 & I1 & I2 & Hk');
    [done|].
  exists bs', u, u'. split; [done|]. split; [done|].
  intros x. by apply (Inv_search_keys u U u' U').
Qed.

End Reachable.

Lemma failed_calls_change_nothing_witness :
  let t0 := mkTree ∅ None 0 0 (3 # 5) true in
  let ops := [Insert 5; Insert 3; Insert 8]%Z in
  ScapegoatTree_ctor (3 # 5) = inr t0
  ∧ run ops t0 = Some (results_of ops t0, state_of ops t0)
  ∧ (search 5 (state_of ops t0) = Some true
     → insert 5 (state_of ops t0) = Some (false, state_of ops t0))
  ∧ (search 5 (state_of ops t0) = Some false
     → remove 5 (state_of ops t0) = Some (false, state_of ops t0))
  ∧ (∀ t', remove 5 (state_of ops t0) = Some (true, t')
           → remove 5 t' = Some (false, t')).
Proof.
  intros t0 ops. split; [reflexivity|]. split; [vm_compute; reflexivity|].
  apply (failed_calls_change_nothing (3 # 5) t0 ops (results_of ops t0)).
  - reflexivity.
  - vm_compute. reflexivity.
Defined.




Lemma two_children_removal_witness :
  let t0 := mkTree ∅ None 0 0 (3 # 5) true in
  let ops := [Insert 5; Insert 3; Insert 8; Insert 7; Insert 9]%Z in
  let t := state_of ops t0 in
  ScapegoatTree_ctor (3 # 5) = inr t0
  ∧ run ops t0 = Some (results_of ops t0, t)
  ∧ remove_find (S (base.size (heap t))) (heap t) 5 None (root t) = Some (Some (None, 0))
  ∧ heap t !! 0 = Some (mkNode 5 (Some 1) (Some 2))
  ∧ ∃ t' T',
      remove 5 t = Some (true, t') ∧ Rep t' T'
      ∧ replaceWithSucc t' = negb (replaceWithSucc t)
      ∧ heap t' !! 3 = None
      ∧ ∃ cn', heap t' !! 0 = Some cn' ∧ key cn' = 7%Z.
Proof.
  intros t0 ops t.
  assert (ScapegoatTree_ctor (3 # 5) = inr t0) as Hc by reflexivity.
  assert (run ops t0 = Some (results_of ops t0, t)) as Hrun by (vm_compute; reflexivity).
  split; [exact Hc|]. split; [exact Hrun|].
  split; [vm_compute; reflexivity|]. split; [vm_compute; reflexivity|].
  destruct (two_children_removal (3 # 5) t0 ops (results_of ops t0) t Hc Hrun 5%Z None 0
              (mkNode 5 (Some 1) (Some 2)) 1 2)
    as (T & t' & m & mn & cn' & pre & post & _ & _ & E & HR' & Hf & Hmn & _ & _ & Hm & Hc' & Hk & _).
  - vm_compute. reflexivity.
  - vm_compute. reflexivity.
  - reflexivity.
  - reflexivity.
  - assert (remove 5 t = Some (true, mkTree
        (<[0 := mkNode 7 (Some 1) (Some 2)]> (<[1 := mkNode 3 None None]>
          (<[2 := mkNode 8 None (Some 4)]> (<[4 := mkNode 9 None None]> ∅))))
        (Some 0) 4 5 (3 # 5) false)) as E2 by (vm_compute; reflexivity).
    rewrite E2 in E. injection E as <-.
    eexists _, _. split; [exact E2|]. split; [exact HR'|]. split; [exact Hf|].
    split; [vm_compute; reflexivity|]. eexists. split; vm_compute; reflexivity.
Defined.

Lemma remove_last_key_witness :
  let t0 := mkTree ∅ None 0 0 (3 # 5) true in
  let ops := [Insert 5; Insert 3; Insert 8; Remove 5; Remove 3]%Z in
  ScapegoatTree_ctor (3 # 5) = inr t0
  ∧ run ops t0 = Some (results_of ops t0, state_of ops t0)
  ∧ size (state_of ops t0) = 1
  ∧ search 8 (state_of ops t0) = Some true
  ∧ remove 8 (state_of ops t0)
    = Some (true, mkTree ∅ None 0 0 (3 # 5) (replaceWithSucc (state_of ops t0))).
Proof.
  intros t0 ops. set (t := state_of ops t0).
  assert (ScapegoatTree_ctor (3 # 5) = inr t0) as Hc by reflexivity.
  assert (run ops t0 = Some (results_of ops t0, t)) as Hrun by (vm_compute; reflexivity).
  split; [exact Hc|]. split; [exact Hrun|].
  split; [vm_compute; reflexivity|]. split; [vm_compute; reflexivity|].
  apply (remove_last_key (3 # 5) t0 ops (results_of ops t0) t Hc Hrun 8%Z).
  - vm_compute. reflexivity.
  - vm_compute. reflexivity.
Defined.

(** * Further properties of the code *)

(** ** Auxiliary facts *)

Lemma dtor_steps_le T : dtor_steps T ≤ 2 * tsize T.
Proof. induction T as [|a l _ k r IHr]; simpl; lia. Qed.

Lemma dtor_loop_spec : ∀ n T fuel h,
  dtor_steps T = n → n < fuel → models h T → NoDup (addrs T) →
  ∃ h', dtor_loop fuel h (ptr_of T) = Some (h', None)
        ∧ (∀ x, x ∈ addrs T → h' !! x = None)
        ∧ (∀ x, x ∉ addrs T → h' !! x = h !! x).
Proof.
  induction n as [n IH] using lt_wf_ind. intros T fuel h Hn Hf Hm Hnd.
  destruct fuel as [|fuel]; [lia|].
  destruct T as [|a l k r]; simpl.
  { exists h. split; [done|]. split; [by intros x ?%elem_of_nil|done]. }
  destruct Hm as (Ha & Hl & Hr). rewrite Ha. simpl.
  apply NoDup_addrs_Br in Hnd as (Hndl & Hndr & Hal & Har & Hlr).
  destruct l as [|b bl bk br]; simpl in *.
  - destruct (IH (dtor_steps r) ltac:(lia) r fuel (delete a h)) as (h' & E & Hin & Hout);
      [done|lia| |done|].
    { by apply models_delete_ne. }
    exists h'. split; [done|]. split.
    + intros x [->|Hx]%elem_of_cons; [|by apply Hin].
      rewrite Hout by done. apply lookup_delete_eq.
    + intros x Hx. apply not_elem_of_cons in Hx as [Hxa Hx].
      rewrite Hout by done. by apply lookup_delete_ne.
  - destruct Hl as (Hb & Hbl & Hbr). rewrite Hb. simpl.
    assert (a ≠ b) as Hab by set_solver.
    rewrite lookup_insert_ne by done. rewrite Hb. simpl.
    unfold set_left, set_right. simpl.
    set (h2 := <[b := _]> (<[a := _]> h)).
    apply (NoDup_addrs_Br b bl bk br) in Hndl as (Hndbl & Hndbr & Hbbl & Hbbr & Hblbr).
    set (T' := Br b bl bk (Br a br k r)).
    assert (models h2 T') as Hm'.
    { subst h2 T'. apply models_Br.
      - by rewrite lookup_insert_eq.
      - apply models_insert_ne; [done|]. apply models_insert_ne; [set_solver|]. done.
      - apply models_Br.
        + rewrite lookup_insert_ne by done. by rewrite lookup_insert_eq.
        + apply models_insert_ne; [done|]. apply models_insert_ne; [set_solver|]. done.
        + apply models_insert_ne; [set_solver|]. apply models_insert_ne; [done|]. done. }
    assert (NoDup (addrs T')) as Hnd'.
    { subst T'. simpl. apply NoDup_app. split; [done|]. split.
      - intros x Hx [->|Hx']%elem_of_cons; [done|].
        apply elem_of_app in Hx' as [Hx'|Hx']; [by apply (Hblbr x)|].
        apply elem_of_cons in Hx' as [->|Hx']; [set_solver|]. apply (Hlr x); set_solver.
      - apply NoDup_cons. split.
        + intros Hx. apply elem_of_app in Hx as [Hx|Hx]; [done|].
          apply elem_of_cons in Hx as [->|Hx]; [done|]. apply (Hlr b); set_solver.
        + apply NoDup_app. split; [done|]. split.
          * intros x Hx [->|Hx']%elem_of_cons; [set_solver|]. apply (Hlr x); set_solver.
          * apply NoDup_cons. split; done. }
    destruct (IH (dtor_steps T') ltac:(subst T'; simpl in *; lia) T' fuel h2)
      as (h' & E & Hin & Hout); [done|subst T'; simpl in *; lia|done|done|].
    exists h'. change (ptr_of T') with (Some b) in E. split; [exact E|].
    assert (∀ x, x ∈ addrs T' ↔ x ∈ a :: addrs (Br b bl bk br) ++ addrs r) as Hperm.
    { intros x. subst T'. simpl. set_solver. }
    split.
    + intros x Hx. apply Hin. apply Hperm. set_solver.
    + intros x Hx. rewrite Hout.
      * subst h2. rewrite !lookup_insert_ne; [done| |]; set_solver.
      * intros Hx'. apply Hperm in Hx'. set_solver.
Qed.

Lemma Rep_dom t T : Rep t T → dom (heap t) = list_to_set (addrs T).
Proof.
  intros HR. apply set_eq. intros x. rewrite elem_of_dom, elem_of_list_to_set. split.
  - apply (rep_exact _ _ HR).
  - apply models_lookup, HR.
Qed.

Lemma Rep_heap_size t T : Rep t T → base.size (heap t) = size t.
Proof.
  intros HR. rewrite <- size_dom, (Rep_dom t T HR).
  rewrite size_list_to_set by apply HR.
  by rewrite (rep_size _ _ HR), tsize_addrs.
Qed.


(** One call on a tree that satisfies the invariant. *)
Lemma step_contract o t T :
  Inv t T →
  ∃ b t' T',
    step o t = Some (b, t') ∧ Inv t' T'
    ∧ match o with
      | Insert k =>
          b = negb (tmem k T) ∧ tmem k T' = true
          ∧ (∀ x, x ≠ k → tmem x T' = tmem x T)
          ∧ size t' = (if b then S (size t) else size t)
      | Remove k =>
          b = tmem k T ∧ tmem k T' = false
          ∧ (∀ x, x ≠ k → tmem x T' = tmem x T)
          ∧ size t' = (if b then size t - 1 else size t)
      end
    ∧ (b = false → t' = t).
Proof.
  intros HI. pose proof (inv_bst _ _ HI) as Hbst. pose proof (inv_rep _ _ HI) as HR.
  assert (∀ T' (P : Z → Prop), bst T' → (∀ x, x ∈ keys T' ↔ P x) →
          ∀ x, tmem x T' = true ↔ P x) as Hmem.
  { intros T' P Hb HP x. rewrite <- HP. by apply tmem_keys. }
  assert (∀ T' x, bst T' → (x ∈ keys T' ↔ x ∈ keys T) → tmem x T' = tmem x T) as Heq.
  { intros T' x Hb Hx. destruct (tmem x T) eqn:E.
    - apply tmem_keys; [done|]. apply Hx. by apply tmem_keys.
    - apply tmem_false_keys; [done|]. rewrite Hx. by apply tmem_false_keys. }
  destruct o as [k|k]; simpl.
  - destruct (tmem k T) eqn:Hk.
    + exists false, t, T. rewrite (insert_spec_present t T k HR Hk). done.
    + destruct (Inv_insert t T k HI Hk) as (t' & E & HI' & _ & _ & Hsz & Hkeys).
      eexists true, t', _. split; [done|]. split; [done|].
      pose proof (inv_bst _ _ HI') as Hb'. split; [|done]. split; [done|]. split.
      { apply tmem_keys; [done|]. rewrite Hkeys. set_solver. }
      split; [|done]. intros x Hx. apply Heq; [done|]. rewrite Hkeys. set_solver.
  - destruct (tmem k T) eqn:Hk.
    + destruct (Inv_remove t T k HI Hk) as (t' & E & HI' & _ & _ & Hsz & _ & Hkeys).
      eexists true, t', _. split; [done|]. split; [done|].
      pose proof (inv_bst _ _ HI') as Hb'. split; [|done]. split; [done|].
      pose proof (bst_NoDup_keys T Hbst) as Hnd. rewrite Hkeys in Hnd.
      apply NoDup_cons in Hnd as [Hnk _]. split.
      { by apply tmem_false_keys. }
      split; [|done]. intros x Hx. apply Heq; [done|]. rewrite Hkeys. set_solver.
    + exists false, t, T. rewrite (remove_spec_absent t T k HR Hk). done.
Qed.





Lemma tsize_lt_pow_levels T : tsize T < 2 ^ levels T.
Proof.
  induction T as [|a l IHl k r IHr]; simpl; [lia|].
  assert (2 ^ levels l ≤ 2 ^ (levels l `max` levels r)) by (apply Nat.pow_le_mono_r; lia).
  assert (2 ^ levels r ≤ 2 ^ (levels l `max` levels r)) by (apply Nat.pow_le_mono_r; lia).
  lia.
Qed.

Lemma levels_balance_log2 T :
  T ≠ Leaf → levels (balance T) = S (Nat.log2 (tsize T)).
Proof.
  intros HT. assert (balance T ≠ Leaf) as HB.
  { intros E. apply (f_equal tsize) in E. rewrite tsize_balance in E.
    destruct T; [done|]. simpl in E. lia. }
  pose proof (levels_split_balanced (balance T) (split_balanced_balance T) HB) as H1.
  pose proof (tsize_lt_pow_levels (balance T)) as H2. rewrite tsize_balance in H1, H2.
  destruct (levels (balance T)) as [|n] eqn:E.
  { destruct (balance T); [done|]. simpl in E. lia. }
  f_equal. symmetry. apply Nat.log2_unique; [lia|].
  rewrite Nat.pow_succ_r' in H1. split; [lia|exact H2].
Qed.

Lemma tverify_general a T :
  tverify a T
  = Some (mkVerificationData (root_balanced a T) (child_ordered T) (tsize T)
            (tree_height T)).
Proof.
  unfold tree_height.
  induction T as [|b l IHl k r IHr]; [done|].
  cbn [tverify]. rewrite IHl, IHr. bind_step. cbn [isBST subtreeSize height].
  replace (tsize l + tsize r + 1) with (tsize (Br b l k r)) by (simpl; lia).
  rewrite (deepH_Some a (tsize (Br b l k r))) by (simpl; lia). bind_step.
  f_equal. f_equal.
  - unfold root_balanced, tree_height. f_equal. cbn [levels]. lia.
  - cbn [child_ordered].
    destruct (child_ordered l), (child_ordered r), l, r; simpl; try done;
      by rewrite ?andb_true_r.
  - cbn [levels]. lia.
Qed.

Lemma bst_child_ordered T : bst T → child_ordered T = true.
Proof.
  induction T as [|b l IHl k r IHr]; [done|]. intros (Hl & Hr & Hlk & Hrk).
  cbn [child_ordered]. rewrite IHl, IHr by done. simpl.
  rewrite Forall_forall in Hlk, Hrk.
  assert (match l with Leaf => true | Br _ _ lk _ => (lk <? k)%Z end = true) as ->.
  { destruct l as [|? ? lk ?]; [done|]. apply Z.ltb_lt, Hlk. simpl. set_solver. }
  destruct r as [|? ? rk ?]; [done|]. simpl.
  apply Z.gtb_lt, Hrk. simpl. set_solver.
Qed.

(** A cell of the tree, with the key it holds. *)
Lemma models_addr_node h T c :
  models h T → c ∈ addrs T → ∃ n, h !! c = Some n ∧ (c, key n) ∈ nodes T.
Proof.
  induction T as [|b l IHl k r IHr]; simpl; [by intros _ ?%elem_of_nil|].
  intros (Hb & Hl & Hr) Hin. apply elem_of_app in Hin as [Hin|Hin].
  - destruct (IHl Hl Hin) as (n & Hn & Hnode). exists n. set_solver.
  - apply elem_of_cons in Hin as [->|Hin].
    + eexists. split; [exact Hb|]. simpl. set_solver.
    + destruct (IHr Hr Hin) as (n & Hn & Hnode). exists n. set_solver.
Qed.

Lemma nodes_insert_tree al a k T :
  tmem k T = false → nodes (insert_tree al a k T) ≡ₚ (a, k) :: nodes T.
Proof.
  intros Hk. unfold insert_tree. destruct (insert_rebuild_depth al a k T).
  - rewrite nodes_rebuild_at. by apply nodes_tinsert.
  - by apply nodes_tinsert.
Qed.

Lemma live_mentioned ops bs k : live ops bs k → k ∈ op_key <$> ops.
Proof.
  intros (i & Hi & _). apply list_elem_of_fmap. exists (Insert k). split; [done|].
  by apply list_elem_of_lookup_2 in Hi.
Qed.

(** A rebuild of the whole tree. *)
Lemma rebuild_root_Rep t T :
  Rep t T →
  ∃ h',
    rebuild (mkScapegoat (root t) None (size t)) t
      = Some (mkTree h' (ptr_of (balance T)) (size t) (size t) (alpha t)
                (replaceWithSucc t))
    ∧ Rep (mkTree h' (ptr_of (balance T)) (size t) (size t) (alpha t)
             (replaceWithSucc t)) (balance T).
Proof.
  intros HR.
  destruct (rebuild_root_spec t T (rep_models _ _ HR) (rep_nodup _ _ HR))
    as (h' & E & Hm & Hfr).
  exists h'. rewrite (rep_root _ _ HR), (rep_size _ _ HR) at 1. split; [exact E|].
  split; simpl.
  - exact Hm.
  - done.
  - rewrite addrs_balance. apply HR.
  - intros x Hx. rewrite addrs_balance.
    destruct (decide (x ∈ addrs T)) as [|Hn]; [done|].
    rewrite (Hfr x Hn) in Hx. by apply (rep_exact _ _ HR).
  - rewrite tsize_balance. apply HR.
Qed.






(** ** The alpha-deep height and verify *)





(** ** A tree reached by calls from a freshly constructed one *)

Section Reached.

Variables (a : Q) (t0 : ScapegoatTree) (ops : list op) (bs : list bool).
Variable t : ScapegoatTree.
Hypothesis Hc : ScapegoatTree_ctor a = inr t0.
Hypothesis Hrun : run ops t0 = Some (bs, t).

(** X1: the destructor returns, having released every node: it never
    follows a null or dangling pointer, it leaves no cell behind, and its
    loop finds a node at the root at most 2 * size times. *)
Theorem dtor_frees_every_node :
  ScapegoatTree_dtor t
  = Some (mkTree ∅ None (size t) (maxSize t) (alpha t) (replaceWithSucc t))
  ∧ ∀ fuel, 2 * size t < fuel → dtor_loop fuel (heap t) (root t) = Some (∅, None).
Proof.
  destruct (reach_Inv a t0 ops bs t Hc Hrun) as (T & HI & _ & _).
  pose proof (inv_rep _ _ HI) as HR.
  assert (∀ fuel, 2 * size t < fuel → dtor_loop fuel (heap t) (root t) = Some (∅, None))
    as Hloop.
  { intros fuel Hf. pose proof (dtor_steps_le T) as Hst.
    rewrite (rep_size _ _ HR) in Hf.
    destruct (dtor_loop_spec (dtor_steps T) T fuel (heap t) eq_refl ltac:(lia)
                (rep_models _ _ HR) (rep_nodup _ _ HR)) as (h' & E & Hin & Hout).
    rewrite (rep_root _ _ HR), E. do 2 f_equal.
    apply map_empty. intros x. destruct (decide (x ∈ addrs T)) as [Hx|Hx]; [by apply Hin|].
    rewrite Hout by done. destruct (heap t !! x) eqn:Ex; [|done].
    exfalso. apply Hx, (rep_exact _ _ HR). by eexists. }
  split; [|exact Hloop]. unfold ScapegoatTree_dtor.
  rewrite Hloop by (rewrite (Rep_heap_size t T HR); lia). done.
Qed.

(** X2: the counters are exact: the heap holds size cells and no other,
    a recount of the tree from the root gives size, size is the number of
    keys that are live, the root is null exactly when size is 0, and size
    never exceeds maxSize. *)
Theorem counters_are_exact :
  base.size (heap t) = size t
  ∧ getSubtreeSize (S (size t)) (heap t) (root t) = Some (size t)
  ∧ (∃ l, NoDup l ∧ length l = size t ∧ ∀ k, k ∈ l ↔ live ops bs k)
  ∧ (root t = None ↔ size t = 0)
  ∧ size t ≤ maxSize t.
Proof.
  destruct (reach_Inv a t0 ops bs t Hc Hrun) as (T & HI & _ & Hlive).
  pose proof (inv_rep _ _ HI) as HR. pose proof (rep_size _ _ HR) as Hsz.
  split; [apply (Rep_heap_size t T HR)|]. split.
  { rewrite (rep_root _ _ HR), Hsz. apply getSubtreeSize_spec; [|apply HR].
    pose proof (levels_le_tsize T). lia. }
  split.
  { exists (keys T). split; [apply bst_NoDup_keys, HI|]. split; [|done].
    rewrite Hsz, tsize_nodes, keys_nodes. by rewrite length_fmap. }
  split; [|apply HI].
  rewrite (rep_root _ _ HR), Hsz. destruct T; simpl; [done|]. split; [done|lia].
Qed.

(** X3: insert returns true exactly when the key was absent; afterwards
    the key is present, every other key is as before, and size has grown by
    one exactly when the call returned true. *)
Theorem insert_contract (k : Z) :
  ∃ b t',
    insert k t = Some (b, t')
    ∧ search k t = Some (negb b)
    ∧ search k t' = Some true
    ∧ (∀ x, x ≠ k → search x t' = search x t)
    ∧ size t' = (if b then S (size t) else size t).
Proof.
  destruct (reach_Inv a t0 ops bs t Hc Hrun) as (T & HI & _ & _).
  destruct (step_contract (Insert k) t T HI)
    as (b & t' & T' & E & HI' & (Hb & Hk & Hx & Hsz) & _).
  exists b, t'. split; [exact E|].
  rewrite (search_spec t T k (inv_rep _ _ HI)), (search_spec t' T' k (inv_rep _ _ HI')).
  split; [by rewrite Hb, negb_involutive|]. split; [by rewrite Hk|]. split; [|done].
  intros x Hne.
  rewrite (search_spec t T x (inv_rep _ _ HI)), (search_spec t' T' x (inv_rep _ _ HI')).
  by rewrite Hx.
Qed.

(** X4: remove returns true exactly when the key was present; afterwards
    the key is absent, every other key is as before, and size has shrunk by
    one exactly when the call returned true. *)
Theorem remove_contract (k : Z) :
  ∃ b t',
    remove k t = Some (b, t')
    ∧ search k t = Some b
    ∧ search k t' = Some false
    ∧ (∀ x, x ≠ k → search x t' = search x t)
    ∧ (b = true → 0 < size t)
    ∧ size t' = (if b then size t - 1 else size t).
Proof.
  destruct (reach_Inv a t0 ops bs t Hc Hrun) as (T & HI & _ & _).
  destruct (step_contract (Remove k) t T HI)
    as (b & t' & T' & E & HI' & (Hb & Hk & Hx & Hsz) & _).
  exists b, t'. split; [exact E|].
  rewrite (search_spec t T k (inv_rep _ _ HI)), (search_spec t' T' k (inv_rep _ _ HI')).
  split; [by rewrite Hb|]. split; [by rewrite Hk|]. split.
  { intros x Hne.
    rewrite (search_spec t T x (inv_rep _ _ HI)), (search_spec t' T' x (inv_rep _ _ HI')).
    by rewrite Hx. }
  split; [|done]. intros ->. symmetry in Hb.
  rewrite (rep_size _ _ (inv_rep _ _ HI)). destruct T; simpl in *; [done|lia].
Qed.




(** X8: a rebuild of the whole tree, as remove asks for, keeps the keys
    and makes the tree as low as a binary tree of its size can be: what
    verifyHelper then measures at the root is the node count size and the
    height floor(log2(size)); maxSize becomes size. *)
Theorem whole_rebuild_is_height_optimal :
  0 < size t →
  ∃ t' vd,
    rebuild (mkScapegoat (root t) None (size t)) t = Some t'
    ∧ size t' = size t ∧ maxSize t' = size t
    ∧ (∀ k, search k t' = search k t)
    ∧ verifyHelper (S (base.size (heap t'))) (alpha t') (heap t') (root t') = Some vd
    ∧ subtreeSize vd = size t
    ∧ height vd = Z.of_nat (Nat.log2 (size t))
    ∧ isBST vd = true.
Proof.
  intros Hpos. destruct (reach_Inv a t0 ops bs t Hc Hrun) as (T & HI & _ & _).
  pose proof (inv_rep _ _ HI) as HR. pose proof (rep_size _ _ HR) as Hsz.
  destruct (rebuild_root_Rep t T HR) as (h' & E & HR').
  set (t' := mkTree h' _ _ _ _ _) in *.
  assert (bst (balance T)) as Hb.
  { apply bst_sorted. rewrite keys_balance. apply bst_sorted, HI. }
  exists t', (mkVerificationData (root_balanced (alpha t) (balance T))
                (child_ordered (balance T)) (tsize (balance T))
                (tree_height (balance T))).
  split; [exact E|]. split; [done|]. split; [done|]. split.
  { intros k. rewrite (search_spec t' _ k HR'), (search_spec t T k HR). f_equal.
    destruct (tmem k T) eqn:Ek.
    - apply tmem_keys; [done|]. rewrite keys_balance. by apply tmem_keys; [apply HI|].
    - apply tmem_false_keys; [done|]. rewrite keys_balance.
      by apply tmem_false_keys; [apply HI|]. }
  split.
  { rewrite (rep_root _ _ HR'), (verifyHelper_spec (balance T));
      [apply tverify_general|apply (Rep_fuel _ _ HR')|apply HR']. }
  cbn [subtreeSize height isBST]. split; [by rewrite tsize_balance|]. split.
  - unfold tree_height. rewrite levels_balance_log2, Hsz; [lia|].
    intros ->. simpl in Hsz. lia.
  - by apply bst_child_ordered.
Qed.


(** X13: a successful insert allocates one cell, which holds the new
    key, and moves no key: every cell that was there is still there with the
    key it had, also when part of the tree is rebuilt. *)
Theorem insert_moves_no_key (k : Z) :
  search k t = Some false →
  ∃ t' n,
    insert k t = Some (true, t')
    ∧ heap t !! fresh (dom (heap t)) = None
    ∧ heap t' !! fresh (dom (heap t)) = Some n ∧ key n = k
    ∧ dom (heap t') = {[fresh (dom (heap t))]} ∪ dom (heap t)
    ∧ ∀ c cn, heap t !! c = Some cn →
        ∃ cn', heap t' !! c = Some cn' ∧ key cn' = key cn.
Proof.
  intros Hs. destruct (reach_Inv a t0 ops bs t Hc Hrun) as (T & HI & _ & _).
  pose proof (inv_rep _ _ HI) as HR.
  pose proof (search_false_tmem t T k HI Hs) as Hk.
  destruct (Inv_insert t T k HI Hk) as (t' & E & HI' & _).
  pose proof (inv_rep _ _ HI') as HR'.
  set (c0 := fresh (dom (heap t))) in *.
  pose proof (nodes_insert_tree (alpha t) c0 k T Hk) as Hn.
  destruct (models_nodes (heap t') _ c0 k (rep_models _ _ HR')) as (n & Hn0 & Hkn).
  { rewrite Hn. set_solver. }
  exists t', n. split; [exact E|]. split.
  { apply (not_elem_of_dom (D := gset nat)), is_fresh. }
  split; [exact Hn0|]. split; [exact Hkn|]. split.
  { rewrite (Rep_dom _ _ HR'), (Rep_dom _ _ HR), !addrs_nodes, Hn.
    rewrite fmap_cons. simpl. set_solver. }
  intros c cn Hcn.
  destruct (models_addr_node (heap t) T c (rep_models _ _ HR)) as (cn2 & Hcn2 & Hnode).
  { apply (rep_exact _ _ HR). by eexists. }
  rewrite Hcn in Hcn2. injection Hcn2 as <-.
  apply (models_nodes (heap t') _ c (key cn) (rep_models _ _ HR')).
  rewrite Hn. set_solver.
Qed.

End Reached.

Lemma dtor_frees_every_node_witness :
  ScapegoatTree_ctor (3 # 5) = inr fresh_tree
  ∧ run sample_ops fresh_tree = Some (results_of sample_ops fresh_tree, sample_tree)
  ∧ size sample_tree = 5
  ∧ ScapegoatTree_dtor sample_tree
    = Some (mkTree ∅ None (size sample_tree) (maxSize sample_tree)
              (alpha sample_tree) (replaceWithSucc sample_tree)).
Proof.
  assert (ScapegoatTree_ctor (3 # 5) = inr fresh_tree) as Hc by reflexivity.
  assert (run sample_ops fresh_tree
          = Some (results_of sample_ops fresh_tree, sample_tree)) as Hrun
    by (vm_compute; reflexivity).
  split; [exact Hc|]. split; [exact Hrun|]. split; [vm_compute; reflexivity|].
  exact (proj1 (dtor_frees_every_node (3 # 5) fresh_tree sample_ops _ sample_tree
                  Hc Hrun)).
Defined.

Lemma counters_are_exact_witness :
  ScapegoatTree_ctor (3 # 5) = inr fresh_tree
  ∧ run sample_ops fresh_tree = Some (results_of sample_ops fresh_tree, sample_tree)
  ∧ base.size (heap sample_tree) = size sample_tree
  ∧ getSubtreeSize (S (size sample_tree)) (heap sample_tree) (root sample_tree)
    = Some (size sample_tree)
  ∧ (∃ l, NoDup l ∧ length l = size sample_tree
          ∧ ∀ k, k ∈ l ↔ live sample_ops (results_of sample_ops fresh_tree) k)
  ∧ (root sample_tree = None ↔ size sample_tree = 0)
  ∧ size sample_tree ≤ maxSize sample_tree.
Proof.
  assert (ScapegoatTree_ctor (3 # 5) = inr fresh_tree) as Hc by reflexivity.
  assert (run sample_ops fresh_tree
          = Some (results_of sample_ops fresh_tree, sample_tree)) as Hrun
    by (vm_compute; reflexivity).
  split; [exact Hc|]. split; [exact Hrun|].
  exact (counters_are_exact (3 # 5) fresh_tree sample_ops _ sample_tree Hc Hrun).
Defined.

Lemma insert_contract_witness :
  ScapegoatTree_ctor (3 # 5) = inr fresh_tree
  ∧ run sample_ops fresh_tree = Some (results_of sample_ops fresh_tree, sample_tree)
  ∧ ∃ b t',
      insert 7 sample_tree = Some (b, t')
      ∧ search 7 sample_tree = Some (negb b)
      ∧ search 7 t' = Some true
      ∧ (∀ x, x ≠ 7%Z → search x t' = search x sample_tree)
      ∧ size t' = (if b then S (size sample_tree) else size sample_tree).
Proof.
  assert (ScapegoatTree_ctor (3 # 5) = inr fresh_tree) as Hc by reflexivity.
  assert (run sample_ops fresh_tree
          = Some (results_of sample_ops fresh_tree, sample_tree)) as Hrun
    by (vm_compute; reflexivity).
  split; [exact Hc|]. split; [exact Hrun|].
  exact (insert_contract (3 # 5) fresh_tree sample_ops _ sample_tree Hc Hrun 7%Z).
Defined.

Lemma remove_contract_witness :
  ScapegoatTree_ctor (3 # 5) = inr fresh_tree
  ∧ run sample_ops fresh_tree = Some (results_of sample_ops fresh_tree, sample_tree)
  ∧ ∃ b t',
      remove 5 sample_tree = Some (b, t')
      ∧ search 5 sample_tree = Some b
      ∧ search 5 t' = Some false
      ∧ (∀ x, x ≠ 5%Z → search x t' = search x sample_tree)
      ∧ (b = true → 0 < size sample_tree)
      ∧ size t' = (if b then size sample_tree - 1 else size sample_tree).
Proof.
  assert (ScapegoatTree_ctor (3 # 5) = inr fresh_tree) as Hc by reflexivity.
  assert (run sample_ops fresh_tree
          = Some (results_of sample_ops fresh_tree, sample_tree)) as Hrun
    by (vm_compute; reflexivity).
  split; [exact Hc|]. split; [exact Hrun|].
  exact (remove_contract (3 # 5) fresh_tree sample_ops _ sample_tree Hc Hrun 5%Z).
Defined.




Lemma whole_rebuild_is_height_optimal_witness :
  ScapegoatTree_ctor (3 # 5) = inr fresh_tree
  ∧ run sample_ops fresh_tree = Some (results_of sample_ops fresh_tree, sample_tree)
  ∧ 0 < size sample_tree
  ∧ ∃ t' vd,
      rebuild (mkScapegoat (root sample_tree) None (size sample_tree)) sample_tree
        = Some t'
      ∧ size t' = size sample_tree ∧ maxSize t' = size sample_tree
      ∧ (∀ k, search k t' = search k sample_tree)
      ∧ verifyHelper (S (base.size (heap t'))) (alpha t') (heap t') (root t') = Some vd
      ∧ subtreeSize vd = size sample_tree
      ∧ height vd = Z.of_nat (Nat.log2 (size sample_tree))
      ∧ isBST vd = true.
Proof.
  assert (ScapegoatTree_ctor (3 # 5) = inr fresh_tree) as Hc by reflexivity.
  assert (run sample_ops fresh_tree
          = Some (results_of sample_ops fresh_tree, sample_tree)) as Hrun
    by (vm_compute; reflexivity).
  assert (0 < size sample_tree) as Hpos by (vm_compute; lia).
  split; [exact Hc|]. split; [exact Hrun|]. split; [exact Hpos|].
  exact (whole_rebuild_is_height_optimal (3 # 5) fresh_tree sample_ops _ sample_tree
           Hc Hrun Hpos).
Defined.


Lemma insert_moves_no_key_witness :
  ScapegoatTree_ctor (3 # 5) = inr fresh_tree
  ∧ run [Insert 1; Insert 2; Insert 3]%Z fresh_tree
    = Some (results_of [Insert 1; Insert 2; Insert 3]%Z fresh_tree, rising_tree)
  ∧ search 4 rising_tree = Some false
  ∧ ∃ t' n,
      insert 4 rising_tree = Some (true, t')
      ∧ heap rising_tree !! fresh (dom (heap rising_tree)) = None
      ∧ heap t' !! fresh (dom (heap rising_tree)) = Some n ∧ key n = 4%Z
      ∧ dom (heap t') = {[fresh (dom (heap rising_tree))]} ∪ dom (heap rising_tree)
      ∧ ∀ c cn, heap rising_tree !! c = Some cn →
          ∃ cn', heap t' !! c = Some cn' ∧ key cn' = key cn.
Proof.
  assert (ScapegoatTree_ctor (3 # 5) = inr fresh_tree) as Hc by reflexivity.
  assert (run [Insert 1; Insert 2; Insert 3]%Z fresh_tree
          = Some (results_of [Insert 1; Insert 2; Insert 3]%Z fresh_tree, rising_tree))
    as Hrun by (vm_compute; reflexivity).
  assert (search 4 rising_tree = Some false) as Hs by (vm_compute; reflexivity).
  split; [exact Hc|]. split; [exact Hrun|]. split; [exact Hs|].
  exact (insert_moves_no_key (3 # 5) fresh_tree [Insert 1; Insert 2; Insert 3]%Z _
           rising_tree Hc Hrun 4%Z Hs).
Defined.

(** ** Two trees with the same keys *)

(** X11: the results of calls depend on the set of keys only: two trees,
    whatever their balance factors and the calls that built them, that answer
    search alike for the keys those calls mention hold the same keys, return
    the same results for every further sequence of calls, and answer every
    search alike afterwards. *)
Theorem results_depend_on_keys_only (a1 a2 : Q) (t01 t02 : ScapegoatTree)
    (ops1 ops2 : list op) (bs1 bs2 : list bool) (t1 t2 : ScapegoatTree) :
  ScapegoatTree_ctor a1 = inr t01 → run ops1 t01 = Some (bs1, t1) →
  ScapegoatTree_ctor a2 = inr t02 → run ops2 t02 = Some (bs2, t2) →
  Forall (λ k, search k t1 = search k t2) (op_key <$> ops1 ++ ops2) →
  ∀ ops, ∃ bs u1 u2,
    run ops t1 = Some (bs, u1) ∧ run ops t2 = Some (bs, u2)
    ∧ ∀ k, search k u1 = search k u2.
Proof.
  intros Hc1 Hr1 Hc2 Hr2 Hs ops. rewrite Forall_forall in Hs.
  destruct (reach_Inv a1 t01 ops1 bs1 t1 Hc1 Hr1) as (T1 & HI1 & _ & Hl1).
  destruct (reach_Inv a2 t02 ops2 bs2 t2 Hc2 Hr2) as (T2 & HI2 & _ & Hl2).
  assert (∀ x, x ∈ op_key <$> ops1 ++ ops2 → (x ∈ keys T1 ↔ x ∈ keys T2)) as Hm.
  { intros x Hx. specialize (Hs x Hx).
    rewrite (search_spec _ _ x (inv_rep _ _ HI1)),
            (search_spec _ _ x (inv_rep _ _ HI2)) in Hs.
    injection Hs as Hs.
    rewrite <- !(tmem_keys x) by apply HI1 || apply HI2. by rewrite Hs. }
  destruct (run_obs ops t1 T1 t2 T2 HI1 HI2)
    as (bs & u1 & U1 & u2 & U2 & R1 & R2 & I1 & I2 & Hk).
  { intros x. split; intros Hx.
    - apply Hm; [|done]. apply Hl1, live_mentioned in Hx.
      rewrite fmap_app. set_solver.
    - apply Hm; [|done]. apply Hl2, live_mentioned in Hx.
      rewrite fmap_app. set_solver. }
  exists bs, u1, u2. split; [done|]. split; [done|].
  intros k. by apply (Inv_search_keys u1 U1 u2 U2).
Qed.

Lemma results_depend_on_keys_only_witness :
  let t01 := mkTree ∅ None 0 0 (3 # 5) true in
  let t02 := mkTree ∅ None 0 0 (9 # 10) true in
  let ops1 := [Insert 1; Insert 2; Insert 3; Insert 4; Remove 2]%Z in
  let ops2 := [Insert 4; Insert 3; Insert 1]%Z in
  ScapegoatTree_ctor (3 # 5) = inr t01
  ∧ run ops1 t01 = Some (results_of ops1 t01, state_of ops1 t01)
  ∧ ScapegoatTree_ctor (9 # 10) = inr t02
  ∧ run ops2 t02 = Some (results_of ops2 t02, state_of ops2 t02)
  ∧ Forall (λ k, search k (state_of ops1 t01) = search k (state_of ops2 t02))
      (op_key <$> ops1 ++ ops2)
  ∧ root (state_of ops1 t01) ≠ root (state_of ops2 t02)
  ∧ ∀ ops, ∃ bs u1 u2,
      run ops (state_of ops1 t01) = Some (bs, u1)
      ∧ run ops (state_of ops2 t02) = Some (bs, u2)
      ∧ ∀ k, search k u1 = search k u2.
Proof.
  intros t01 t02 ops1 ops2.
  assert (ScapegoatTree_ctor (3 # 5) = inr t01) as Hc1 by reflexivity.
  assert (run ops1 t01 = Some (results_of ops1 t01, state_of ops1 t01)) as Hr1
    by (vm_compute; reflexivity).
  assert (ScapegoatTree_ctor (9 # 10) = inr t02) as Hc2 by reflexivity.
  assert (run ops2 t02 = Some (results_of ops2 t02, state_of ops2 t02)) as Hr2
    by (vm_compute; reflexivity).
  assert (Forall (λ k, search k (state_of ops1 t01) = search k (state_of ops2 t02))
            (op_key <$> ops1 ++ ops2)) as Hs
    by (repeat constructor; vm_compute; reflexivity).
  split; [exact Hc1|]. split; [exact Hr1|]. split; [exact Hc2|]. split; [exact Hr2|].
  split; [exact Hs|]. split; [vm_compute; discriminate|].
  exact (results_depend_on_keys_only (3 # 5) (9 # 10) t01 t02 ops1 ops2 _ _ _ _
           Hc1 Hr1 Hc2 Hr2 Hs).
Defined.

(** * The generic tree against the integer tree *)

Section Simulation.

Context {T : Type}.

Implicit Types (F : nat → T → Z) (f : T → Z) (gh : gmap nat (@Generic.Node T)).

Lemma lookup_heap_at F gh a : heap_at F gh !! a = to_int (F a) <$> gh !! a.
Proof. unfold heap_at. rewrite map_lookup_imap. by destruct (gh !! a). Qed.

Lemma heap_at_insert F gh a n :
  heap_at F (<[a := n]> gh) = <[a := to_int (F a) n]> (heap_at F gh).
Proof. unfold heap_at. by apply map_imap_insert_Some. Qed.

Lemma heap_at_delete F gh a : heap_at F (delete a gh) = delete a (heap_at F gh).
Proof. unfold heap_at. apply map_imap_delete. Qed.

Lemma dom_heap_at F gh : dom (heap_at F gh) = dom gh.
Proof.
  apply set_eq. intros a. rewrite !elem_of_dom, lookup_heap_at.
  by rewrite fmap_is_Some.
Qed.

Lemma size_heap_at F gh : base.size (heap_at F gh) = base.size gh.
Proof. by rewrite <- !size_dom, dom_heap_at. Qed.

Lemma heap_at_ext F F' gh :
  (∀ a, is_Some (gh !! a) → F a = F' a) → heap_at F gh = heap_at F' gh.
Proof.
  intros H. apply map_eq. intros a. rewrite !lookup_heap_at.
  destruct (gh !! a) eqn:E; [|done]. simpl. by rewrite H.
Qed.

Lemma heap_at_empty F : heap_at F (∅ : gmap nat (@Generic.Node T)) = ∅.
Proof. unfold heap_at. apply map_imap_empty. Qed.

(** The functions that do not look at keys. *)

Lemma sim_getSubtreeSize F gh : ∀ fuel c,
  getSubtreeSize fuel (heap_at F gh) c = Generic.getSubtreeSize fuel gh c.
Proof.
  induction fuel as [|fuel IH]; intros c; [done|]. simpl.
  destruct c as [c|]; [|done]. rewrite lookup_heap_at.
  destruct (gh !! c) as [n|]; [|done]. simpl. by rewrite !IH.
Qed.

Lemma sim_findScapegoat_loop F gh fuel al : ∀ path curr par sz idx,
  findScapegoat_loop fuel al (heap_at F gh) path curr par sz idx
  = Generic.findScapegoat_loop fuel al gh path curr par sz idx.
Proof.
  assert (∀ curr par sz idx,
    findScapegoat_loop fuel al (heap_at F gh) [] curr par sz idx
    = Generic.findScapegoat_loop fuel al gh [] curr par sz idx) as Hnil.
  { intros curr par sz idx. simpl. destruct par as [p|]; [|done].
    destruct (getAlphaDeepHeight al sz) as [deep|]; [|done]. simpl.
    destruct (deep <? idx); [done|]. rewrite lookup_heap_at.
    destruct (gh !! p) as [pn|]; [|done]. simpl.
    rewrite !sim_getSubtreeSize.
    destruct (decide (Generic.left pn = curr));
      by destruct (Generic.getSubtreeSize _ _ _). }
  induction path as [|top rest IH]; intros curr par sz idx; [apply Hnil|].
  simpl. destruct par as [p|]; [|done].
  destruct (getAlphaDeepHeight al sz) as [deep|]; [|done]. simpl.
  destruct (deep <? idx); [done|]. rewrite lookup_heap_at.
  destruct (gh !! p) as [pn|]; [|done]. simpl.
  rewrite !sim_getSubtreeSize.
  destruct (decide (Generic.left pn = curr));
    (destruct (Generic.getSubtreeSize _ _ _); [|done]); simpl; apply IH.
Qed.

Lemma sim_findScapegoat F gh fuel al path :
  findScapegoat fuel al (heap_at F gh) path = Generic.findScapegoat fuel al gh path.
Proof.
  destruct path as [|curr [|par rest]]; [done|done|]. simpl.
  rewrite sim_getSubtreeSize. destruct (Generic.getSubtreeSize _ _ _); [|done].
  simpl. apply sim_findScapegoat_loop.
Qed.

Lemma sim_flatten F : ∀ fuel gh r l,
  flatten fuel (heap_at F gh) r l = with_heap_at F (Generic.flatten fuel gh r l).
Proof.
  induction fuel as [|fuel IH]; intros gh r l; [done|]. simpl.
  destruct r as [c|]; [|done]. rewrite lookup_heap_at.
  destruct (gh !! c) as [n|]; [|done]. simpl. rewrite IH.
  destruct (Generic.flatten fuel gh (Generic.right n) l) as [[tl h1]|]; [|done]. simpl.
  rewrite lookup_heap_at. destruct (h1 !! c) as [n1|]; [|done]. simpl.
  rewrite !lookup_insert_eq. simpl.
  change (set_right (to_int (F c) n1) tl) with (to_int (F c) (Generic.set_right n1 tl)).
  rewrite <- heap_at_insert. apply IH.
Qed.

Lemma sim_buildTree F : ∀ fuel gh n l,
  buildTree fuel (heap_at F gh) n l = with_heap_at F (Generic.buildTree fuel gh n l).
Proof.
  induction fuel as [|fuel IH]; intros gh n l; [done|].
  destruct n as [|n'].
  { simpl. destruct l as [c|]; [|done]. simpl. rewrite lookup_heap_at.
    destruct (gh !! c) as [cn|]; [|done]. simpl. by rewrite heap_at_insert. }
  cbn [buildTree Generic.buildTree]. rewrite IH.
  destruct (Generic.buildTree fuel gh _ l) as [[firstHalf h1]|]; [|done]. simpl.
  destruct firstHalf as [fh|]; [|done]. simpl. rewrite lookup_heap_at.
  destruct (h1 !! fh) as [fn|]; [|done]. simpl. rewrite IH.
  destruct (Generic.buildTree fuel h1 _ (Generic.right fn)) as [[secondHalf h2]|];
    [|done]. simpl.
  destruct secondHalf as [s|]; [|done]. simpl. rewrite !lookup_heap_at.
  destruct (h2 !! s) as [sn|]; [|done]. simpl.
  destruct (h2 !! fh) as [fn2|]; [|done]. simpl.
  change (set_right (to_int (F fh) fn2) (Generic.left sn))
    with (to_int (F fh) (Generic.set_right fn2 (Generic.left sn))).
  rewrite <- heap_at_insert, lookup_heap_at.
  destruct (<[fh := _]> h2 !! s) as [sn3|]; [|done]. simpl.
  rewrite !heap_at_insert. reflexivity.
Qed.

Lemma sim_descend_left F gh : ∀ fuel prev curr,
  descend_left fuel (heap_at F gh) prev curr = Generic.descend_left fuel gh prev curr.
Proof.
  induction fuel as [|fuel IH]; intros prev curr; [done|]. simpl.
  rewrite lookup_heap_at. destruct (gh !! curr) as [cn|]; [|done]. simpl.
  destruct (Generic.left cn); [apply IH|done].
Qed.

Lemma sim_descend_right F gh : ∀ fuel prev curr,
  descend_right fuel (heap_at F gh) prev curr = Generic.descend_right fuel gh prev curr.
Proof.
  induction fuel as [|fuel IH]; intros prev curr; [done|]. simpl.
  rewrite lookup_heap_at. destruct (gh !! curr) as [cn|]; [|done]. simpl.
  destruct (Generic.right cn); [apply IH|done].
Qed.


End Simulation.

Section SimulationRanked.

Context {T : Type}.
Variable dummy_key : T.
Variables (f : T → Z) (lt : T → T → bool).
Hypothesis Hlt : ranked_by f lt.

Local Notation "'ranks'" := (heap_at (λ _ : nat, f)).

(** The three-way comparison, in the order of the integer tree and in the
    order of the generic tree. *)
Lemma compare_ranked {A : Type} (k x : T) (found less greater : A) :
  (if (f k =? f x)%Z then found else if (f k <? f x)%Z then less else greater)
  = (if lt k x then less else if lt x k then greater else found).
Proof.
  rewrite !Hlt. destruct (Z.eqb_spec (f k) (f x)) as [->|Hne].
  - by rewrite Z.ltb_irrefl.
  - destruct (Z.ltb_spec (f k) (f x)); [done|].
    destruct (Z.ltb_spec (f x) (f k)); [done|lia].
Qed.

Lemma sim_search_loop gh k : ∀ fuel c,
  search_loop fuel (ranks gh) (f k) c = Generic.search_loop lt fuel gh k c.
Proof.
  induction fuel as [|fuel IH]; intros c; [done|]. simpl.
  destruct c as [c|]; [|done]. rewrite lookup_heap_at.
  destruct (gh !! c) as [n|]; [|done]. simpl.
  rewrite !IH. apply compare_ranked.
Qed.

Lemma sim_insert_find gh k : ∀ fuel path prev c,
  insert_find fuel (ranks gh) (f k) path prev c
  = Generic.insert_find lt fuel gh k path prev c.
Proof.
  induction fuel as [|fuel IH]; intros path prev c; [done|]. simpl.
  destruct c as [c|]; [|done]. rewrite lookup_heap_at.
  destruct (gh !! c) as [n|]; [|done]. simpl.
  rewrite !IH. apply compare_ranked.
Qed.

Lemma sim_remove_find gh k : ∀ fuel prev c,
  remove_find fuel (ranks gh) (f k) prev c
  = Generic.remove_find lt fuel gh k prev c.
Proof.
  induction fuel as [|fuel IH]; intros prev c; [done|]. simpl.
  destruct c as [c|]; [|done]. rewrite lookup_heap_at.
  destruct (gh !! c) as [n|]; [|done]. simpl.
  rewrite !IH, !Hlt.
  destruct (Z.eqb_spec (f k) (f (Generic.key n))) as [->|Hne].
  - by rewrite Z.ltb_irrefl.
  - destruct (Z.ltb_spec (f k) (f (Generic.key n))); [done|]. simpl.
    destruct (Z.ltb_spec (f (Generic.key n)) (f k)); [|lia]. simpl.
    destruct (Z.gtb_spec (f k) (f (Generic.key n))); [done|lia].
Qed.


(** [rebuild]: the dummy node of the integer tree holds [-1], that of the
    generic tree an unspecified key; neither is read. *)
Lemma sim_rebuild sg gt :
  rebuild sg (tree_ranks f gt) = tree_ranks f <$> Generic.rebuild dummy_key sg gt.
Proof.
  unfold rebuild, Generic.rebuild. cbn [heap tree_ranks].
  generalize (S (treeSize sg)). intros bfuel.
  rewrite dom_heap_at. set (d := fresh (dom (Generic.heap gt))).
  set (F := λ a : nat, if decide (a = d) then (λ _ : T, (-1)%Z) else f).
  assert (Generic.heap gt !! d = None) as Hd.
  { apply (not_elem_of_dom (D := gset nat)), is_fresh. }
  assert (∀ gh, gh !! d = None → heap_at F gh = ranks gh) as Hext.
  { intros gh Hgh. apply heap_at_ext. intros x [n Hx]. unfold F.
    destruct (decide (x = d)) as [->|]; [congruence|done]. }
  assert (<[d := mkNode (-1) None None]> (ranks (Generic.heap gt))
          = heap_at F (<[d := Generic.mkNode dummy_key None None]> (Generic.heap gt)))
    as ->.
  { rewrite heap_at_insert, (Hext _ Hd). f_equal. unfold to_int, F. simpl.
    by rewrite decide_True. }
  rewrite size_heap_at, sim_flatten.
  destruct (Generic.flatten _ _ (scapegoat sg) (Some d)) as [[nodeList h1]|]; [|done].
  simpl. rewrite sim_buildTree.
  destruct (Generic.buildTree bfuel h1 (treeSize sg) nodeList) as [[p2 h2]|]; [|done].
  simpl. rewrite lookup_heap_at. destruct (h2 !! d) as [dn|]; [|done]. simpl.
  destruct (parent sg) as [p|]; simpl.
  - rewrite lookup_heap_at. destruct (h2 !! p) as [pn|]; [|done]. simpl.
    destruct (decide (scapegoat sg = Generic.left pn)); simpl;
      unfold tree_ranks, with_heap; simpl; do 2 f_equal.
    + change (set_left (to_int (F p) pn) (Generic.left dn))
        with (to_int (F p) (Generic.set_left pn (Generic.left dn))).
      rewrite <- heap_at_insert, <- heap_at_delete. apply Hext, lookup_delete_eq.
    + change (set_right (to_int (F p) pn) (Generic.left dn))
        with (to_int (F p) (Generic.set_right pn (Generic.left dn))).
      rewrite <- heap_at_insert, <- heap_at_delete. apply Hext, lookup_delete_eq.
  - unfold tree_ranks, with_heap; simpl; do 2 f_equal.
    rewrite <- heap_at_delete. apply Hext, lookup_delete_eq.
Qed.

Lemma sim_removeNodeWithTwoChildren node gt :
  removeNodeWithTwoChildren node (tree_ranks f gt)
  = tree_ranks f <$> Generic.removeNodeWithTwoChildren node gt.
Proof.
  unfold removeNodeWithTwoChildren, Generic.removeNodeWithTwoChildren.
  cbn [heap replaceWithSucc tree_ranks]. rewrite size_heap_at.
  set (gh := Generic.heap gt). generalize (S (base.size gh)). intros dfuel.
  assert (∀ (r : option (nat * gmap nat (@Generic.Node T))),
    ('(curr, h1) ← ('(c, h) ← r; Some (c, ranks h));
     cn ← h1 !! curr; nn ← h1 !! node;
     Some (with_replaceWithSucc
             (with_heap (tree_ranks f gt)
                (delete curr (<[node := set_key nn (key cn)]> h1)))
             (negb (Generic.replaceWithSucc gt))))
    = tree_ranks f <$>
      ('(curr, h1) ← r;
       cn ← h1 !! curr; nn ← h1 !! node;
       Some (Generic.with_replaceWithSucc
               (Generic.with_heap gt
                  (delete curr (<[node := Generic.set_key nn (Generic.key cn)]> h1)))
               (negb (Generic.replaceWithSucc gt))))) as Htail.
  { intros [[curr h1]|]; [|done]. simpl. rewrite !lookup_heap_at.
    destruct (h1 !! curr) as [cn|]; [|done]. simpl.
    destruct (h1 !! node) as [nn|]; [|done]. simpl.
    unfold tree_ranks, with_heap, with_replaceWithSucc. simpl. do 2 f_equal.
    by rewrite heap_at_delete, heap_at_insert. }
  rewrite <- Htail. f_equal.
  destruct (Generic.replaceWithSucc gt).
  - rewrite lookup_heap_at. destruct (gh !! node) as [n|]; [|done]. simpl.
    destruct (Generic.right n) as [curr|]; [|done]. simpl. rewrite lookup_heap_at.
    destruct (gh !! curr) as [cn|]; [|done]. simpl.
    destruct (Generic.left cn).
    + rewrite sim_descend_left.
      destruct (Generic.descend_left dfuel gh node curr) as [[prev c2]|]; [|done]. simpl.
      rewrite !lookup_heap_at. destruct (gh !! c2) as [cn2|]; [|done]. simpl.
      destruct (gh !! prev) as [pn|]; [|done]. simpl. by rewrite heap_at_insert.
    + simpl. by rewrite heap_at_insert.
  - rewrite lookup_heap_at. destruct (gh !! node) as [n|]; [|done]. simpl.
    destruct (Generic.left n) as [curr|]; [|done]. simpl. rewrite lookup_heap_at.
    destruct (gh !! curr) as [cn|]; [|done]. simpl.
    destruct (Generic.right cn).
    + rewrite sim_descend_right.
      destruct (Generic.descend_right dfuel gh node curr) as [[prev c2]|]; [|done]. simpl.
      rewrite !lookup_heap_at. destruct (gh !! c2) as [cn2|]; [|done]. simpl.
      destruct (gh !! prev) as [pn|]; [|done]. simpl. by rewrite heap_at_insert.
    + simpl. by rewrite heap_at_insert.
Qed.

Lemma sim_removeNodeWithoutChild node par gt :
  removeNodeWithoutChild node par (tree_ranks f gt)
  = tree_ranks f <$> Generic.removeNodeWithoutChild node par gt.
Proof.
  unfold removeNodeWithoutChild, Generic.removeNodeWithoutChild.
  cbn [heap root tree_ranks]. rewrite lookup_heap_at.
  destruct (Generic.heap gt !! node) as [n|]; [|done]. simpl.
  destruct (decide (Generic.root gt = Some node)); simpl.
  { unfold tree_ranks, with_heap, with_root. simpl. do 2 f_equal.
    by rewrite heap_at_delete. }
  destruct par as [p|]; [|done]. simpl. rewrite lookup_heap_at.
  destruct (Generic.heap gt !! p) as [pn|]; [|done]. simpl.
  destruct (decide (Generic.left pn = Some node)); simpl;
    unfold tree_ranks, with_heap; simpl; do 2 f_equal;
    by rewrite heap_at_delete, heap_at_insert.
Qed.

End SimulationRanked.

Section SimulationCalls.

Context {T : Type}.
Variable dummy_key : T.
Variables (f : T → Z).

Local Notation "'ranks'" := (heap_at (λ _ : nat, f)).

(** No call assigns the comparison function. *)
Lemma rebuild_isLessThan sg gt gt' :
  Generic.rebuild dummy_key sg gt = Some gt' →
  Generic.isLessThan gt' = Generic.isLessThan gt.
Proof.
  unfold Generic.rebuild. generalize (S (treeSize sg)).
  generalize (S (base.size (<[fresh (dom (Generic.heap gt)) :=
                               Generic.mkNode dummy_key None None]> (Generic.heap gt)))).
  intros ffuel bfuel H.
  destruct (Generic.flatten ffuel _ _ _) as [[nl h1]|]; [|done]. simpl in H.
  destruct (Generic.buildTree bfuel h1 _ nl) as [[p2 h2]|]; [|done]. simpl in H.
  destruct (h2 !! _) as [dn|]; [|done]. simpl in H.
  destruct (parent sg) as [p|]; simpl in H.
  - destruct (h2 !! p) as [pn|]; [|done]. simpl in H.
    destruct (decide _); simpl in H; by injection H as <-.
  - by injection H as <-.
Qed.

Lemma removeNodeWithTwoChildren_isLessThan node (gt gt' : @Generic.ScapegoatTree T) :
  Generic.removeNodeWithTwoChildren node gt = Some gt' →
  Generic.isLessThan gt' = Generic.isLessThan gt.
Proof.
  unfold Generic.removeNodeWithTwoChildren. intros H.
  destruct (if Generic.replaceWithSucc gt then _ else _) as [[curr h1]|]; [|done].
  simpl in H. destruct (h1 !! curr) as [cn|]; [|done]. simpl in H.
  destruct (h1 !! node) as [nn|]; [|done]. simpl in H. by injection H as <-.
Qed.

Lemma removeNodeWithoutChild_isLessThan node par (gt gt' : @Generic.ScapegoatTree T) :
  Generic.removeNodeWithoutChild node par gt = Some gt' →
  Generic.isLessThan gt' = Generic.isLessThan gt.
Proof.
  unfold Generic.removeNodeWithoutChild. intros H.
  destruct (Generic.heap gt !! node) as [n|]; [|done]. simpl in H.
  destruct (decide _); simpl in H; [by injection H as <-|].
  destruct par as [p|]; [|done]. simpl in H.
  destruct (Generic.heap gt !! p) as [pn|]; [|done]. simpl in H.
  destruct (decide _); simpl in H; by injection H as <-.
Qed.

Lemma insert_isLessThan k gt b gt' :
  Generic.insert dummy_key k gt = Some (b, gt') →
  Generic.isLessThan gt' = Generic.isLessThan gt.
Proof.
  unfold Generic.insert. generalize (S (base.size (Generic.heap gt))). intros fuel H.
  destruct (Generic.insert_find _ fuel _ _ _ _ _) as [[[path prev]|]|]; [| |done];
    simpl in H; [|by injection H as _ <-].
  set (h1 := <[_ := _]> (Generic.heap gt)) in H.
  destruct (match prev with None => _ | Some p => _ end) as [gt1|] eqn:E1; [|done].
  assert (Generic.isLessThan gt1 = Generic.isLessThan gt) as H1.
  { destruct prev as [p|]; simpl in E1.
    - destruct (h1 !! p) as [pn|]; [|done]. simpl in E1.
      destruct (Generic.isLessThan gt k (Generic.key pn)); by injection E1 as <-.
    - by injection E1 as <-. }
  simpl in H.
  set (gt3 := if _ <? _ then _ else _) in H.
  assert (Generic.isLessThan gt3 = Generic.isLessThan gt) as H3.
  { subst gt3. by destruct (_ <? _). }
  destruct (getAlphaDeepHeight _ _) as [deep|]; [|done]. simpl in H.
  destruct (_ && _).
  - destruct (Generic.findScapegoat _ _ _ _) as [sg|]; [|done]. simpl in H.
    destruct (Generic.rebuild dummy_key sg gt3) as [gt4|] eqn:E4; [|done].
    simpl in H. injection H as _ <-.
    by rewrite (rebuild_isLessThan _ _ _ E4).
  - by injection H as _ <-.
Qed.

Lemma remove_isLessThan k gt b gt' :
  Generic.remove dummy_key k gt = Some (b, gt') →
  Generic.isLessThan gt' = Generic.isLessThan gt.
Proof.
  unfold Generic.remove. generalize (S (base.size (Generic.heap gt))). intros fuel H.
  destruct (Generic.remove_find _ fuel _ _ _ _) as [[[prev curr]|]|]; [| |done];
    simpl in H; [|by injection H as _ <-].
  destruct (Generic.heap gt !! curr) as [cn|]; [|done]. simpl in H.
  destruct (match Generic.left cn with Some _ => _ | None => _ end) as [gt1|] eqn:E1;
    [|done].
  assert (Generic.isLessThan gt1 = Generic.isLessThan gt) as H1.
  { destruct (Generic.left cn), (Generic.right cn);
      first [by apply removeNodeWithTwoChildren_isLessThan in E1
            |by apply removeNodeWithoutChild_isLessThan in E1]. }
  simpl in H. destruct (size_le_alpha_maxSize _ _ _).
  - destruct (Generic.rebuild dummy_key _ _) as [gt3|] eqn:E3; [|done].
    simpl in H. injection H as _ <-.
    by rewrite (rebuild_isLessThan _ _ _ E3).
  - by injection H as _ <-.
Qed.

Lemma step_isLessThan o gt b gt' :
  Generic.step dummy_key o gt = Some (b, gt') →
  Generic.isLessThan gt' = Generic.isLessThan gt.
Proof. destruct o; [apply insert_isLessThan|apply remove_isLessThan]. Qed.

Lemma sim_search k gt :
  ranked_by f (Generic.isLessThan gt) →
  search (f k) (tree_ranks f gt) = Generic.search k gt.
Proof.
  intros Hlt. unfold search, Generic.search. cbn [heap root tree_ranks].
  rewrite size_heap_at. by apply sim_search_loop.
Qed.



Lemma sim_insert k gt :
  ranked_by f (Generic.isLessThan gt) →
  insert (f k) (tree_ranks f gt) = result_ranks f (Generic.insert dummy_key k gt).
Proof.
  intros Hlt. unfold insert, Generic.insert. cbn [heap root tree_ranks].
  rewrite size_heap_at, (sim_insert_find f _ Hlt), dom_heap_at.
  generalize (S (base.size (Generic.heap gt))). intros fuel.
  destruct (Generic.insert_find _ fuel _ _ _ _ _) as [[[path prev]|]|]; [|done|done].
  cbn [mbind option_bind]. fold (tree_ranks f gt).
  set (node := fresh (dom (Generic.heap gt))).
  change (mkNode (f k) None None) with (to_int f (Generic.mkNode k None None)).
  rewrite <- (heap_at_insert (λ _, f)).
  set (gh1 := <[node := Generic.mkNode k None None]> (Generic.heap gt)).
  (* linking the new leaf *)
  assert (match prev with
          | None => Some (with_root (with_heap (tree_ranks f gt) (ranks gh1)) (Some node))
          | Some p =>
              pn ← ranks gh1 !! p;
              if (f k <? key pn)%Z
              then Some (with_heap (tree_ranks f gt)
                           (<[p := set_left pn (Some node)]> (ranks gh1)))
              else Some (with_heap (tree_ranks f gt)
                           (<[p := set_right pn (Some node)]> (ranks gh1)))
          end
          = tree_ranks f <$>
            match prev with
            | None => Some (Generic.with_root (Generic.with_heap gt gh1) (Some node))
            | Some p =>
                pn ← gh1 !! p;
                if Generic.isLessThan gt k (Generic.key pn)
                then Some (Generic.with_heap gt
                             (<[p := Generic.set_left pn (Some node)]> gh1))
                else Some (Generic.with_heap gt
                             (<[p := Generic.set_right pn (Some node)]> gh1))
            end) as ->.
  { destruct prev as [p|]; [|done]. rewrite lookup_heap_at.
    destruct (gh1 !! p) as [pn|]; [|done]. simpl. rewrite Hlt.
    destruct (f k <? f (Generic.key pn))%Z; simpl;
      unfold tree_ranks, Generic.with_heap, with_heap; simpl; do 2 f_equal;
      by rewrite heap_at_insert. }
  destruct (match prev with None => _ | Some p => _ end) as [gt1|]; [|done].
  cbn [fmap option_fmap option_map mbind option_bind].
  set (gt3 := if Generic.maxSize (Generic.with_size gt1 (S (Generic.size gt1)))
                 <? Generic.size (Generic.with_size gt1 (S (Generic.size gt1)))
              then Generic.with_maxSize (Generic.with_size gt1 (S (Generic.size gt1)))
                     (Generic.size (Generic.with_size gt1 (S (Generic.size gt1))))
              else Generic.with_size gt1 (S (Generic.size gt1))).
  assert ((if maxSize (with_size (tree_ranks f gt1) (S (size (tree_ranks f gt1))))
              <? size (with_size (tree_ranks f gt1) (S (size (tree_ranks f gt1))))
           then with_maxSize (with_size (tree_ranks f gt1) (S (size (tree_ranks f gt1))))
                  (size (with_size (tree_ranks f gt1) (S (size (tree_ranks f gt1)))))
           else with_size (tree_ranks f gt1) (S (size (tree_ranks f gt1))))
          = tree_ranks f gt3) as ->.
  { subst gt3. cbn [maxSize size with_size tree_ranks Generic.maxSize Generic.size
                    Generic.with_size].
    by destruct (_ <? _). }
  clearbody gt3. cbn [alpha size heap tree_ranks].
  destruct (getAlphaDeepHeight _ _) as [deep|]; [|done].
  cbn [mbind option_bind]. destruct (_ && _); [|done].
  rewrite size_heap_at, sim_findScapegoat.
  destruct (Generic.findScapegoat _ _ _ _) as [sg|]; [|done].
  cbn [mbind option_bind]. fold (tree_ranks f gt3). rewrite (sim_rebuild dummy_key).
  by destruct (Generic.rebuild dummy_key sg gt3).
Qed.

Lemma sim_remove k gt :
  ranked_by f (Generic.isLessThan gt) →
  remove (f k) (tree_ranks f gt) = result_ranks f (Generic.remove dummy_key k gt).
Proof.
  intros Hlt. unfold remove, Generic.remove. cbn [heap root tree_ranks].
  rewrite size_heap_at, (sim_remove_find f _ Hlt).
  generalize (S (base.size (Generic.heap gt))). intros fuel.
  destruct (Generic.remove_find _ fuel _ _ _ _) as [[[prev curr]|]|]; [|done|done].
  cbn [mbind option_bind]. fold (tree_ranks f gt). rewrite lookup_heap_at.
  destruct (Generic.heap gt !! curr) as [cn|]; [|done].
  cbn [fmap option_fmap option_map mbind option_bind left right to_int].
  assert (match Generic.left cn, Generic.right cn with
          | Some _, Some _ => removeNodeWithTwoChildren curr (tree_ranks f gt)
          | _, _ => removeNodeWithoutChild curr prev (tree_ranks f gt)
          end
          = tree_ranks f <$>
            match Generic.left cn, Generic.right cn with
            | Some _, Some _ => Generic.removeNodeWithTwoChildren curr gt
            | _, _ => Generic.removeNodeWithoutChild curr prev gt
            end) as ->.
  { destruct (Generic.left cn), (Generic.right cn);
      first [apply sim_removeNodeWithTwoChildren|apply sim_removeNodeWithoutChild]. }
  destruct (match Generic.left cn with Some _ => _ | None => _ end) as [gt1|]; [|done].
  cbn [fmap option_fmap option_map mbind option_bind].
  change (with_size (tree_ranks f gt1) (size (tree_ranks f gt1) - 1))
    with (tree_ranks f (Generic.with_size gt1 (Generic.size gt1 - 1))).
  set (gt2 := Generic.with_size gt1 (Generic.size gt1 - 1)). clearbody gt2.
  cbn [alpha size maxSize root tree_ranks].
  destruct (size_le_alpha_maxSize _ _ _); [|done].
  fold (tree_ranks f gt2). rewrite (sim_rebuild dummy_key).
  by destruct (Generic.rebuild dummy_key _ gt2).
Qed.

Lemma sim_step o gt :
  ranked_by f (Generic.isLessThan gt) →
  step (op_rank f o) (tree_ranks f gt) = result_ranks f (Generic.step dummy_key o gt).
Proof. destruct o; [apply sim_insert|apply sim_remove]. Qed.

(** Every sequence of calls on the generic tree does what the same calls,
    on the ranks of the keys, do on the integer tree. *)
Lemma sim_run : ∀ ops gt,
  ranked_by f (Generic.isLessThan gt) →
  run (op_rank f <$> ops) (tree_ranks f gt)
  = '(bs, gt') ← Generic.run dummy_key ops gt; Some (bs, tree_ranks f gt').
Proof.
  induction ops as [|o ops IH]; intros gt Hlt; [done|].
  cbn [fmap list_fmap run Generic.run]. rewrite (sim_step o gt Hlt).
  destruct (Generic.step dummy_key o gt) as [[b gt1]|] eqn:E; [|done].
  cbn [result_ranks mbind option_bind].
  rewrite IH by (by rewrite (step_isLessThan _ _ _ _ E)).
  by destruct (Generic.run dummy_key ops gt1) as [[bs gt2]|].
Qed.

Lemma run_isLessThan : ∀ ops gt bs gt',
  Generic.run dummy_key ops gt = Some (bs, gt') →
  Generic.isLessThan gt' = Generic.isLessThan gt.
Proof.
  induction ops as [|o ops IH]; intros gt bs gt' H; simpl in H.
  - by injection H as _ <-.
  - destruct (Generic.step dummy_key o gt) as [[b gt1]|] eqn:E; [|done]. simpl in H.
    destruct (Generic.run dummy_key ops gt1) as [[bs2 gt2]|] eqn:E2; [|done].
    simpl in H. injection H as _ <-.
    by rewrite (IH _ _ _ E2), (step_isLessThan _ _ _ _ E).
Qed.

End SimulationCalls.

(** ** Properties of the generic tree *)

Lemma live_upto_ranks {T : Type} (f : T → Z) ops bs k :
  live_upto f ops bs k ↔ live (op_rank f <$> ops) bs (f k).
Proof.
  unfold live_upto, live. split.
  - intros (i & k' & Hk & Hi & Hb & Hlater). exists i.
    rewrite list_lookup_fmap, Hi. simpl. rewrite Hk. split; [done|]. split; [done|].
    intros j Hj [Hr Hbj]. rewrite list_lookup_fmap in Hr.
    destruct (ops !! j) as [[k2|k2]|] eqn:E; simpl in Hr; [done| |done].
    injection Hr as Hr. by apply (Hlater j k2 Hj Hr).
  - intros (i & Hi & Hb & Hlater). rewrite list_lookup_fmap in Hi.
    destruct (ops !! i) as [[k'|k']|] eqn:E; simpl in Hi; [|done|done].
    injection Hi as Hk. exists i, k'. split; [done|]. split; [done|]. split; [done|].
    intros j k2 Hj Hk2 [Hr Hbj]. apply (Hlater j Hj). split; [|done].
    rewrite list_lookup_fmap, Hr. simpl. by rewrite Hk2.
Qed.

Lemma generic_ctor_ranks {T : Type} (f : T → Z) al lt (gt0 : @Generic.ScapegoatTree T) :
  Generic.ScapegoatTree_ctor al lt = inr gt0 →
  ScapegoatTree_ctor al = inr (tree_ranks f gt0) ∧ Generic.isLessThan gt0 = lt.
Proof.
  unfold Generic.ScapegoatTree_ctor, ScapegoatTree_ctor, checkInvalidAlpha.
  destruct (_ || _); [done|]. intros [= <-]. split; [|done].
  unfold tree_ranks. simpl. by rewrite heap_at_empty.
Qed.

(** What the simulation gives for a sequence of calls on a fresh generic
    tree. *)
Lemma generic_run_Inv {T : Type} (dummy_key : T) (f : T → Z) al lt gt0 ops :
  ranked_by f lt → Generic.ScapegoatTree_ctor al lt = inr gt0 →
  ∃ bs gt U,
    Generic.run dummy_key ops gt0 = Some (bs, gt)
    ∧ run (op_rank f <$> ops) (tree_ranks f gt0) = Some (bs, tree_ranks f gt)
    ∧ Inv (tree_ranks f gt) U
    ∧ ranked_by f (Generic.isLessThan gt)
    ∧ ∀ k, k ∈ keys U ↔ live (op_rank f <$> ops) bs k.
Proof.
  intros Hlt Hc. destruct (generic_ctor_ranks f al lt gt0 Hc) as [Hc0 Hlt0].
  destruct (run_Inv al _ (op_rank f <$> ops) Hc0) as (bs & t & U & Hrun & HI & _ & Hk).
  pose proof (sim_run dummy_key f ops gt0) as Hsim.
  rewrite Hrun in Hsim. specialize (Hsim ltac:(by rewrite Hlt0)).
  destruct (Generic.run dummy_key ops gt0) as [[bs' gt]|] eqn:E; [|done].
  simpl in Hsim. injection Hsim as -> ->.
  exists bs', gt, U. split; [done|]. split; [done|]. split; [done|]. split; [|done].
  by rewrite (run_isLessThan _ _ _ _ _ E), Hlt0.
Qed.



(** X15: membership in the generic tree is membership up to the
    comparison function: after any sequence of calls on a freshly
    constructed tree whose comparison function orders the keys by a rank,
    search(k) is true exactly when a key of the rank of k is live, so that
    keys that the function does not separate count as one key. *)
Theorem generic_membership_up_to_rank {T : Type} (dummy_key : T) (f : T → Z)
    (al : Q) (lt : T → T → bool) (gt0 : @Generic.ScapegoatTree T)
    (ops : list (@Generic.op T)) :
  ranked_by f lt → Generic.ScapegoatTree_ctor al lt = inr gt0 →
  ∃ bs gt,
    Generic.run dummy_key ops gt0 = Some (bs, gt)
    ∧ ∀ k, (live_upto f ops bs k → Generic.search k gt = Some true)
           ∧ (¬ live_upto f ops bs k → Generic.search k gt = Some false).
Proof.
  intros Hlt Hc.
  destruct (generic_run_Inv dummy_key f al lt gt0 ops Hlt Hc)
    as (bs & gt & U & Hg & Hrun & HI & Hlt' & Hk).
  exists bs, gt. split; [done|]. intros k.
  rewrite <- (sim_search f k gt Hlt'), (search_spec _ U _ (inv_rep _ _ HI)).
  rewrite live_upto_ranks, <- Hk. pose proof (inv_bst _ _ HI) as Hb.
  split; intros H.
  - by apply (tmem_keys _ U Hb) in H as ->.
  - by apply (tmem_false_keys _ U Hb) in H as ->.
Qed.

Lemma generic_membership_up_to_rank_witness :
  ranked_by (λ s, Z.of_nat (String.length s)) shorter
  ∧ Generic.ScapegoatTree_ctor (3 # 5) shorter
    = inr (Generic.mkTree shorter ∅ None 0 0 (3 # 5) true)
  ∧ (∃ gt, Generic.run EmptyString string_ops
             (Generic.mkTree shorter ∅ None 0 0 (3 # 5) true)
           = Some ([true; true; false; true; true; true], gt))
  ∧ ∃ bs gt,
      Generic.run EmptyString string_ops
        (Generic.mkTree shorter ∅ None 0 0 (3 # 5) true) = Some (bs, gt)
      ∧ ∀ k, (live_upto (λ s, Z.of_nat (String.length s)) string_ops bs k
              → Generic.search k gt = Some true)
             ∧ (¬ live_upto (λ s, Z.of_nat (String.length s)) string_ops bs k
                → Generic.search k gt = Some false).
Proof.
  assert (ranked_by (λ s, Z.of_nat (String.length s)) shorter) as Hlt.
  { intros x y. reflexivity. }
  split; [exact Hlt|]. split; [reflexivity|].
  split; [eexists; vm_compute; reflexivity|].
  apply (generic_membership_up_to_rank EmptyString _ (3 # 5) shorter _ string_ops Hlt).
  reflexivity.
Defined.

(** X16: the generic tree of integers with the default comparison
    function is the integer tree: after any sequence of calls on freshly
    constructed trees both have returned the same results and hold the same
    nodes at the same addresses, with the same keys and links, the same root
    and the same counters. *)
Theorem generic_default_is_integer_tree (dummy_key : Z) (al : Q)
    (gt0 : @Generic.ScapegoatTree Z) (ops : list (@Generic.op Z)) :
  Generic.ScapegoatTree_ctor_default al = inr gt0 →
  ∃ t0 bs gt t,
    ScapegoatTree_ctor al = inr t0
    ∧ Generic.run dummy_key ops gt0 = Some (bs, gt)
    ∧ run (op_rank id <$> ops) t0 = Some (bs, t)
    ∧ root t = Generic.root gt ∧ size t = Generic.size gt
    ∧ maxSize t = Generic.maxSize gt
    ∧ replaceWithSucc t = Generic.replaceWithSucc gt
    ∧ ∀ c, heap t !! c
           = (λ n, mkNode (Generic.key n) (Generic.left n) (Generic.right n))
             <$> Generic.heap gt !! c.
Proof.
  intros Hc.
  assert (ranked_by id (@Generic.defaultIsLessThan Z Z_less)) as Hlt by (by intros x y).
  change (Generic.ScapegoatTree_ctor al Generic.defaultIsLessThan = inr gt0) in Hc.
  destruct (generic_ctor_ranks id al _ gt0 Hc) as [Hc0 _].
  destruct (generic_run_Inv dummy_key id al _ gt0 ops Hlt Hc)
    as (bs & gt & U & Hg & Hrun & _).
  exists (tree_ranks id gt0), bs, gt, (tree_ranks id gt).
  split; [done|]. split; [done|]. split; [done|]. split; [done|]. split; [done|].
  split; [done|]. split; [done|]. intros c. cbn [heap tree_ranks].
  by rewrite lookup_heap_at.
Qed.

Lemma generic_default_is_integer_tree_witness :
  Generic.ScapegoatTree_ctor_default (3 # 5)
  = inr (Generic.mkTree Generic.defaultIsLessThan ∅ None 0 0 (3 # 5) true)
  ∧ ∃ t0 bs gt t,
      ScapegoatTree_ctor (3 # 5) = inr t0
      ∧ Generic.run 0%Z [Generic.Insert 1; Generic.Insert 2; Generic.Insert 3;
                         Generic.Insert 4; Generic.Remove 2]%Z
          (Generic.mkTree Generic.defaultIsLessThan ∅ None 0 0 (3 # 5) true)
        = Some (bs, gt)
      ∧ run (op_rank id <$> [Generic.Insert 1; Generic.Insert 2; Generic.Insert 3;
                             Generic.Insert 4; Generic.Remove 2]%Z) t0 = Some (bs, t)
      ∧ root t = Generic.root gt ∧ size t = Generic.size gt
      ∧ maxSize t = Generic.maxSize gt
      ∧ replaceWithSucc t = Generic.replaceWithSucc gt
      ∧ ∀ c, heap t !! c
             = (λ n, mkNode (Generic.key n) (Generic.left n) (Generic.right n))
               <$> Generic.heap gt !! c.
Proof.
  split; [reflexivity|].
  apply (generic_default_is_integer_tree 0%Z (3 # 5)). reflexivity.
Defined.
